(** * The Actual Backrooms: chunk generation, chunk streaming and position relay

    A shallow embedding of [src/Chunk.ts], [src/World.ts],
    [server/index.js], Multiplayer.ts and [src/Player.ts], and the properties
    of the specification that are settled against it, followed by further
    properties of the code.

    Numbers.  Every value of the program is a JavaScript [number], an IEEE 754
    binary64.  The embedding splits them by use:

    - integer-valued numbers (seeds, hashes, chunk coordinates, time stamps)
      are [Z]; the result of an arithmetic operator on them is rounded to
      binary64 by [JS.fl], which is the identity up to [2^53] and rounds to
      nearest, ties to even, above; the bit operators [<<] and [&] first apply
      [ToInt32];
    - numbers with a fractional part (lengths, positions, noise values, random
      draws) are rationals [Q] with exact arithmetic: rounding of fractions is
      not modelled, and [Math.sqrt] is truncated to 64 fractional bits.

    [JS.fl] is compared with the kernel's own binary64 arithmetic in the
    examples that use the module [Binary64Check], as are the lines that compute
    the wall threshold.

    State.  A closure or an object with mutable fields becomes a function from
    the old state to a result and the new state: the variable [seed] of the
    random source, the static fields of [Chunk] with the hidden state of
    [Math.random] and the object counter of three.js ([Statics]), the fields
    of [World], the two variables of the relay.  What [World] asks of its
    collaborators is returned as a list of events.

    Outside the sources and taken as parameters: [Math.random] and
    [createNoise2D] of the package simplex-noise.  Of three.js the embedding
    keeps the objects that [Chunk] builds, with the identity of each group and
    the list of identities that are children of the scene; the quaternion of
    the camera and the trigonometric functions, which [Player] uses, are
    parameters too. *)

From Stdlib Require Import ZArith QArith Qround Qminmax Qabs Qpower Lia Lqa Floats Ascii String.
From stdpp Require Import gmap strings list fin_maps pretty.

Local Open Scope Z_scope.

(** ** JavaScript numbers that hold integers *)

Module JS.

(** Round an integer to the nearest binary64 (53-bit significand), ties to
    even.  Overflow to [Infinity] needs [|n| >= 2^1024] and is not modelled. *)
Definition fl (n : Z) : Z :=
  let a := Z.abs n in
  if a <? 2 ^ 53 then n
  else
    let k := Z.log2 a - 52 in
    let q := a / 2 ^ k in
    let r := a mod 2 ^ k in
    let half := 2 ^ (k - 1) in
    let q' := if r <? half then q
              else if half <? r then q + 1
              else if Z.even q then q else q + 1 in
    Z.sgn n * (q' * 2 ^ k).

(** [ToInt32] of an integer: reduce modulo [2^32] into [-2^31, 2^31). *)
Definition toInt32 (n : Z) : Z := (n + 2 ^ 31) mod 2 ^ 32 - 2 ^ 31.

(** [a << b] on numbers: both operands go through [ToInt32] (the count is
    taken modulo 32), the result is an Int32 again. *)
Definition shl (a b : Z) : Z := toInt32 (Z.shiftl (toInt32 a) (b mod 32)).

(** [a & b] on numbers. *)
Definition band (a b : Z) : Z := Z.land (toInt32 a) (toInt32 b).

(** [a + b], [a - b], [a * b] on integer-valued numbers. *)
Definition add (a b : Z) : Z := fl (a + b).
Definition sub (a b : Z) : Z := fl (a - b).
Definition mul (a b : Z) : Z := fl (a * b).

(** The integers a [number] can hold. *)
Definition representable (n : Z) : Prop := fl n = n.

End JS.

(** ** Chunk.ts: coordinate hash and seeded random source *)

(** [hashCoords(x, z, seed)], Chunk.ts lines 19-24. *)
Definition hashCoords (x z seed : Z) : Z :=
  let h := seed in
  let h := JS.add (JS.sub (JS.shl h 5) h) x in
  let h := JS.add (JS.sub (JS.shl h 5) h) z in
  JS.band h 0x7fffffff.

(** The closure returned by [seededRandom(seed)] owns one mutable variable,
    [seed]; the embedding passes it explicitly.  [lcg_next] is the assignment
    of line 13, [next] the whole body of the closure (lines 13-14): the drawn
    value and the new content of [seed]. *)
Definition lcg_next (seed : Z) : Z :=
  JS.band (JS.add (JS.mul seed 1103515245) 12345) 0x7fffffff.

Definition next (seed : Z) : Q * Z :=
  let seed := lcg_next seed in
  (inject_Z seed / inject_Z 0x7fffffff, seed)%Q.

(** [seededRandom(seed)]: the initial state of the closure. *)
Definition seededRandom (seed : Z) : Z := seed.

(** State of the closure after [n] calls, and the value returned by call
    number [n] (counted from 0). *)
Fixpoint state_after (n : nat) (seed : Z) : Z :=
  match n with
  | O => seed
  | S n => state_after n (lcg_next seed)
  end.

Definition nth_draw (n : nat) (seed : Z) : Q := fst (next (state_after n seed)).

(** ** Checking [fl] against the kernel's binary64 arithmetic *)

Module Binary64Check.

(** The integer held by a finite float with an integral value. *)
Definition Z_of_float (f : float) : option Z :=
  match Prim2SF f with
  | S754_zero _ => Some 0
  | S754_finite s m e =>
      let v := if 0 <=? e then Z.pos m * 2 ^ e else Z.pos m / 2 ^ (- e) in
      Some (if s then - v else v)
  | _ => None
  end.

(** A natural number below [2^63] as a float (rounded like any conversion). *)
Definition float_of_Z (n : Z) : float := PrimFloat.of_uint63 (Uint63.of_Z n).

Definition lcg_next_float (seed : Z) : option Z :=
  match Z_of_float (float_of_Z seed * float_of_Z 1103515245 + float_of_Z 12345)%float with
  | Some v => Some (JS.band v 0x7fffffff)
  | None => None
  end.

(** An integer of magnitude below [2^63] as a float. *)
Definition float_of_signed (n : Z) : float :=
  if n <? 0 then (- float_of_Z (- n))%float else float_of_Z n.

(** One fold of [hashCoords], [h = ((h << 5) - h) + v], and the whole function,
    with the subtraction and the addition done by the kernel. *)
Definition fold_float (h : float) (v : Z) : option float :=
  match Z_of_float h with
  | Some hz => Some (float_of_signed (JS.shl hz 5) - h + float_of_signed v)%float
  | None => None
  end.

Definition hashCoords_float (x z seed : Z) : option Z :=
  match fold_float (float_of_signed seed) x with
  | Some h =>
      match fold_float h z with
      | Some h =>
          match Z_of_float h with
          | Some hz => Some (JS.band hz 0x7fffffff)
          | None => None
          end
      | None => None
      end
  | None => None
  end.

(** Lines 231-232 in binary64 (the constants are the binary64 nearest to 0.1,
    0.02 and 0.15; [Math.min] on numbers that are not NaN). *)
Definition min_float (a b : float) : float := if (a <? b)%float then a else b.

Definition wallThreshold_float (worldX worldZ : float) : float :=
  (let depth := PrimFloat.sqrt (worldX * worldX + worldZ * worldZ) / 100 in
   0x1.999999999999ap-4 - min_float (depth * 0x1.47ae147ae147bp-6) 0x1.3333333333333p-3)%float.

(** The list does not increase, and stays at or above [bound]. *)
Fixpoint descending (bound : float) (l : list float) : bool :=
  match l with
  | [] => true
  | a :: l' =>
      (bound <=? a)%float
      && match l' with
         | [] => true
         | b :: _ => (b <=? a)%float
         end
      && descending bound l'
  end.

End Binary64Check.

(** ** Mutable variables as explicit state *)

Definition State (S A : Type) : Type := S -> A * S.

Definition ret {S A : Type} (a : A) : State S A := fun s => (a, s).

Definition bind {S A B : Type} (m : State S A) (k : A -> State S B) : State S B :=
  fun s => let (a, s') := m s in k a s'.

Notation "'let*' x ':=' m 'in' k" := (bind m (fun x => k))
  (at level 10, x pattern, m at level 100, k at level 200).

(** A [for] loop over [l] whose body appends to a sequence. *)
Fixpoint forM {S A B : Type} (l : list A) (body : A -> State S (list B)) : State S (list B) :=
  match l with
  | [] => ret []
  | a :: l => let* bs := body a in let* rest := forM l body in ret (bs ++ rest)
  end.

(** [n] executions of a loop body. *)
Fixpoint repeatM {S B : Type} (n : nat) (body : State S B) : State S (list B) :=
  match n with
  | O => ret []
  | S n => let* b := body in let* rest := repeatM n body in ret (b :: rest)
  end.

(** ** Fractional numbers *)

Local Open Scope Q_scope.

(** [a > b] on fractional numbers. *)
Definition Qgtb (a b : Q) : bool := negb (Qle_bool a b).

(** [Math.PI], the binary64 nearest to pi. *)
Definition Math_PI : Q := 0x1.921fb54442d18p+1.

(** [Math.sqrt], truncated to 64 fractional bits (exact whenever the root has
    no more than 64 fractional bits; 0 on negative arguments, where JavaScript
    yields NaN: the generator only takes roots of sums of squares). *)
Definition Math_sqrt (q : Q) : Q :=
  Z.sqrt (Qfloor (q * inject_Z (2 ^ 128))) # (2 ^ 64).

(** [Math.min], [Math.floor]. *)
Definition Math_min (a b : Q) : Q := Qmin a b.
Definition Math_floor (q : Q) : Z := Qfloor q.

(** ** types.ts *)

Record ChunkCoord : Type := { x : Z; z : Z }.

Record WorldConfig : Type := {
  chunkSize : Q;
  viewDistance : Z;
  wallHeight : Q;
  corridorWidth : Q;
  seed : Z;
}.

(** [DEFAULT_CONFIG] of types.ts (in the sources as lines 297-303 of
    unnamed/part_000): chunkSize 32, viewDistance 3, wallHeight 3,
    corridorWidth 3, seed 42, as in section 6 of the specification. *)
Definition DEFAULT_CONFIG : WorldConfig :=
  {| chunkSize := 32; viewDistance := 3; wallHeight := 3; corridorWidth := 3; seed := 42 |}.

(** ** The part of three.js that the program builds *)

Module THREE.

Record Vector3 : Type := { x : Q; y : Q; z : Q }.

Inductive Geometry : Type :=
| PlaneGeometry (width height : Q)
| BoxGeometry (width height depth : Q).

(** What is painted on a canvas; the numbers that come from [Math.random] are
    kept, the fixed ones are in the painting functions. *)
Inductive PaintOp : Type :=
| FillRect (style : string) (x y w h : Q)
| FillRectRGB (r g b : Q) (x y w h : Q)
| FillArc (alpha : Q) (x y radius : Q)
| FillEllipse (style : string) (x y rx ry rotation : Q)
| StrokeLine (style : string) (x0 y0 x1 y1 : Q)
| StrokeRect (style : string) (x y w h : Q).

Record Canvas : Type := { width : Z; height : Z; ops : list PaintOp }.

Record MeshStandardMaterial : Type := {
  map : option (Canvas * (Q * Q));   (* CanvasTexture and its repeat *)
  color : option Z;
  roughness : Q;
  metalness : Q;
  emissive : option Z;
  emissiveIntensity : Q;
}.

(** The material slot of a mesh holds a reference: to one of the three static
    fields of [Chunk], or to a material object created for this mesh. *)
Inductive MaterialRef : Type :=
| Chunk_wallMaterial
| Chunk_floorMaterial
| Chunk_ceilingMaterial
| OwnMaterial (m : MeshStandardMaterial).

Record Mesh : Type := {
  geometry : Geometry;
  material : MaterialRef;
  position : Vector3;
  rotation : Vector3;
  castShadow : bool;
  receiveShadow : bool;
}.

Record PointLight : Type := {
  light_color : Z;
  intensity : Q;
  distance : Q;
  decay : Q;
  light_position : Vector3;
  light_castShadow : bool;
}.

Inductive Object3D : Type :=
| AMesh (m : Mesh)
| ALight (l : PointLight).

(** [id] is the identity of the object: three.js numbers the objects it
    creates from a global counter. *)
Record Group : Type := {
  id : nat;
  group_position : Vector3;
  children : list Object3D;
}.

Definition vec (x y z : Q) : Vector3 := {| x := x; y := y; z := z |}.

End THREE.

Import THREE(Vector3, Geometry, Object3D, Mesh, Group, Canvas, MeshStandardMaterial, PaintOp).

(** ** Chunk.ts: the class [Chunk] *)

(** The state shared by all chunks of a process: the three static material
    fields of the class, the hidden state of [Math.random], and three.js's
    object counter. *)
Record Statics (Entropy : Type) : Type := {
  wallMaterial : option MeshStandardMaterial;
  floorMaterial : option MeshStandardMaterial;
  ceilingMaterial : option MeshStandardMaterial;
  entropy : Entropy;
  nextObjectId : nat;
}.
Arguments wallMaterial {Entropy}.
Arguments floorMaterial {Entropy}.
Arguments ceilingMaterial {Entropy}.
Arguments entropy {Entropy}.
Arguments nextObjectId {Entropy}.

Record Chunk : Type := {
  coord : ChunkCoord;
  mesh : Group;
  config : WorldConfig;
}.

(** The locals of [generate] that do not depend on the random source. *)
Definition worldX (coord : ChunkCoord) (config : WorldConfig) : Q :=
  inject_Z (x coord) * chunkSize config.
Definition worldZ (coord : ChunkCoord) (config : WorldConfig) : Q :=
  inject_Z (z coord) * chunkSize config.

Definition gridSize : Z := 4.
Definition cellSize (config : WorldConfig) : Q := chunkSize config / inject_Z gridSize.

(** Lines 231-232. *)
Definition depth (worldX worldZ : Q) : Q :=
  Math_sqrt (worldX * worldX + worldZ * worldZ) / 100.
Definition wallThreshold (worldX worldZ : Q) : Q :=
  0.1 - Math_min (depth worldX worldZ * 0.02) 0.15.

(** Lines 220-228: the layout signal of cell [(gx, gz)]. *)
Definition noiseVal (noise2D : Q -> Q -> Q) (coord : ChunkCoord) (config : WorldConfig)
    (gx gz : Z) : Q :=
  let cellWorldX := worldX coord config + inject_Z gx * cellSize config in
  let cellWorldZ := worldZ coord config + inject_Z gz * cellSize config in
  noise2D (cellWorldX * 0.05) (cellWorldZ * 0.05) * 0.5 +
  noise2D (cellWorldX * 0.1) (cellWorldZ * 0.1) * 0.3 +
  noise2D (cellWorldX * 0.2) (cellWorldZ * 0.2) * 0.2.

Definition wall (config : WorldConfig) (gx gz : Z) (wallLength : Q) (turned : bool) : Object3D :=
  THREE.AMesh {|
    THREE.geometry := THREE.BoxGeometry wallLength (wallHeight config) 0.2;
    THREE.material := THREE.Chunk_wallMaterial;
    THREE.position := THREE.vec (inject_Z gx * cellSize config + cellSize config / 2)
                                (wallHeight config / 2)
                                (inject_Z gz * cellSize config + cellSize config / 2);
    THREE.rotation := THREE.vec 0 (if turned then Math_PI / 2 else 0) 0;
    THREE.castShadow := true;
    THREE.receiveShadow := true |}.

Definition pillar (config : WorldConfig) (gx gz : Z) (rx rz : Q) : Object3D :=
  THREE.AMesh {|
    THREE.geometry := THREE.BoxGeometry 0.4 (wallHeight config) 0.4;
    THREE.material := THREE.Chunk_wallMaterial;
    THREE.position := THREE.vec (inject_Z gx * cellSize config + rx * cellSize config)
                                (wallHeight config / 2)
                                (inject_Z gz * cellSize config + rz * cellSize config);
    THREE.rotation := THREE.vec 0 0 0;
    THREE.castShadow := true;
    THREE.receiveShadow := false |}.

(** The two branches of the body of the cell sweep (lines 234-254 and
    256-267), over the state of the random source. *)
Definition wallSegment (config : WorldConfig) (gx gz : Z) (hasWall : bool)
  : State Z (list Object3D) :=
  if hasWall then
    let* r := next in
    let wallLength := cellSize config * (0.5 + r * 0.5) in
    let* r' := next in
    ret [wall config gx gz wallLength (Qgtb r' 0.5)]
  else ret [].

Definition occasionalPillar (config : WorldConfig) (gx gz : Z) : State Z (list Object3D) :=
  let* r := next in
  if Qgtb r 0.92 then
    let* rx := next in
    let* rz := next in
    ret [pillar config gx gz rx rz]
  else ret [].

(** The body of the cell sweep, lines 220-267. *)
Definition cell (noise2D : Q -> Q -> Q) (coord : ChunkCoord) (config : WorldConfig)
    (g : Z * Z) : State Z (list Object3D) :=
  let (gx, gz) := g in
  let hasWall :=
    Qgtb (noiseVal noise2D coord config gx gz)
         (wallThreshold (worldX coord config) (worldZ coord config)) in
  let* walls := wallSegment config gx gz hasWall in
  let* pillars := occasionalPillar config gx gz in
  ret (walls ++ pillars).

(** The cells in the order of the two nested loops of lines 218-219. *)
Definition cells : list (Z * Z) :=
  gx ← seqZ 0 gridSize; gz ← seqZ 0 gridSize; [(gx, gz)].

(** [addLights], lines 275-302. *)
Definition lightSpacing : Q := 8.

(** The values taken by a loop [for (v = lightSpacing / 2; v < chunkSize;
    v += lightSpacing)]. *)
Definition lightLattice (config : WorldConfig) : list Q :=
  (fun i : Z => lightSpacing / 2 + inject_Z i * lightSpacing) <$>
  seqZ 0 (Qceiling ((chunkSize config - lightSpacing / 2) / lightSpacing)).

Definition fixture (config : WorldConfig) (lx lz : Q) (dim : bool) : Object3D :=
  THREE.AMesh {|
    THREE.geometry := THREE.BoxGeometry 1.5 0.1 0.5;
    THREE.material := THREE.OwnMaterial {|
      THREE.map := None; THREE.color := Some 0xffffff%Z;
      THREE.roughness := 1; THREE.metalness := 0;
      THREE.emissive := Some 0xffffee%Z;
      THREE.emissiveIntensity := if dim then 0.3 else 1.0 |};
    THREE.position := THREE.vec lx (wallHeight config - 0.05) lz;
    THREE.rotation := THREE.vec 0 0 0;
    THREE.castShadow := false;
    THREE.receiveShadow := false |}.

Definition pointLight (config : WorldConfig) (lx lz : Q) : Object3D :=
  THREE.ALight {|
    THREE.light_color := 0xfff8dc%Z;
    THREE.intensity := 0.5;
    THREE.distance := 12;
    THREE.decay := 2;
    THREE.light_position := THREE.vec lx (wallHeight config - 0.2) lz;
    THREE.light_castShadow := false |}.

Definition light (config : WorldConfig) (p : Q * Q) : State Z (list Object3D) :=
  let (lx, lz) := p in
  let* r := next in
  if Qgtb r 0.85 then ret []
  else
    let* r' := next in
    ret [fixture config lx lz (Qgtb r' 0.9); pointLight config lx lz].

Definition addLights (config : WorldConfig) : State Z (list Object3D) :=
  forM (lx ← lightLattice config; lz ← lightLattice config; [(lx, lz)]) (light config).

Definition floorPanel (config : WorldConfig) : Object3D :=
  THREE.AMesh {|
    THREE.geometry := THREE.PlaneGeometry (chunkSize config) (chunkSize config);
    THREE.material := THREE.Chunk_floorMaterial;
    THREE.position := THREE.vec (chunkSize config / 2) 0 (chunkSize config / 2);
    THREE.rotation := THREE.vec (- Math_PI / 2) 0 0;
    THREE.castShadow := false;
    THREE.receiveShadow := true |}.

Definition ceilingPanel (config : WorldConfig) : Object3D :=
  THREE.AMesh {|
    THREE.geometry := THREE.PlaneGeometry (chunkSize config) (chunkSize config);
    THREE.material := THREE.Chunk_ceilingMaterial;
    THREE.position := THREE.vec (chunkSize config / 2) (wallHeight config) (chunkSize config / 2);
    THREE.rotation := THREE.vec (Math_PI / 2) 0 0;
    THREE.castShadow := false;
    THREE.receiveShadow := false |}.

Section ChunkClass.

(** [Math.random] and its hidden state; [createNoise2D] of the package
    simplex-noise, which is handed the random source (the closure and the
    variable it owns), draws from it, and returns the noise function. *)
Context {Entropy : Type}.
Variable Math_random : State Entropy Q.
Variable createNoise2D : State Z Q -> State Z (Q -> Q -> Q).

(** [createWallTexture], lines 89-122. *)
Definition createWallTexture : State Entropy Canvas :=
  let* stains := repeatM 500 (
    let* px := Math_random in
    let* py := Math_random in
    let* size := Math_random in
    let* alpha := Math_random in
    ret (THREE.FillArc (alpha * 0.15) (px * 256) (py * 256) (size * 3 + 1))) in
  let seams := (fun i : Z => THREE.StrokeLine "rgba(80, 60, 30, 0.1)"
                               0 (inject_Z (64 * i)) 256 (inject_Z (64 * i))) <$> seqZ 0 4 in
  ret {| THREE.width := 256; THREE.height := 256;
         THREE.ops := THREE.FillRect "#c4a84b" 0 0 256 256 :: stains ++ seams |}.

(** [createFloorTexture], lines 124-158. *)
Definition createFloorTexture : State Entropy Canvas :=
  let* carpet := repeatM 2000 (
    let* px := Math_random in
    let* py := Math_random in
    let* b := Math_random in
    let brightness := b * 30 - 15 in
    ret (THREE.FillRectRGB (139 + brightness) (115 + brightness) (85 + brightness)
                           (px * 256) (py * 256) 2 2)) in
  let* stains := repeatM 5 (
    let* px := Math_random in
    let* py := Math_random in
    let* s := Math_random in
    let size := s * 20 + 5 in
    let* rot := Math_random in
    ret (THREE.FillEllipse "rgba(60, 50, 40, 0.2)" (px * 256) (py * 256)
                           size (size * 0.7) (rot * Math_PI))) in
  ret {| THREE.width := 256; THREE.height := 256;
         THREE.ops := THREE.FillRect "#8b7355" 0 0 256 256 :: carpet ++ stains |}.

(** [createCeilingTexture], lines 160-186. *)
Definition createCeilingTexture : State Entropy Canvas :=
  let* dots := forM (px ← seqZ 0 32; py ← seqZ 0 32; [(px, py)]) (fun p =>
    let* r := Math_random in
    ret (if Qgtb r 0.7
         then [THREE.FillRect "rgba(180, 180, 170, 0.5)"
                 (inject_Z (4 * p.1)) (inject_Z (4 * p.2)) 2 2]
         else [])) in
  ret {| THREE.width := 128; THREE.height := 128;
         THREE.ops := THREE.FillRect "#d4d4c4" 0 0 128 128 :: dots
                      ++ [THREE.StrokeRect "rgba(100, 100, 90, 0.3)" 2 2 124 124] |}.

(** [initMaterials], lines 49-87: paints the three textures and stores the
    three materials in the static fields. *)
Definition initMaterials (st : Statics Entropy) : Statics Entropy :=
  let (wallCanvas, e) := createWallTexture (entropy st) in
  let (floorCanvas, e) := createFloorTexture e in
  let (ceilingCanvas, e) := createCeilingTexture e in
  {| wallMaterial := Some {|
       THREE.map := Some (wallCanvas, (2, 1)); THREE.color := None;
       THREE.roughness := 0.9; THREE.metalness := 0.0;
       THREE.emissive := None; THREE.emissiveIntensity := 1 |};
     floorMaterial := Some {|
       THREE.map := Some (floorCanvas, (4, 4)); THREE.color := None;
       THREE.roughness := 1.0; THREE.metalness := 0.0;
       THREE.emissive := None; THREE.emissiveIntensity := 1 |};
     ceilingMaterial := Some {|
       THREE.map := Some (ceilingCanvas, (8, 8)); THREE.color := None;
       THREE.roughness := 0.8; THREE.metalness := 0.0;
       THREE.emissive := Some 0x2a2a1a%Z; THREE.emissiveIntensity := 0.1 |};
     entropy := e;
     nextObjectId := nextObjectId st |}.

(** [generate], lines 188-273: the position of the group and its children in
    the order in which they are added. *)
Definition generate (coord : ChunkCoord) (config : WorldConfig) : Vector3 * list Object3D :=
  let chunkSeed := hashCoords (x coord) (z coord) (seed config) in
  let random := seededRandom chunkSeed in
  let (noise2D, random) := createNoise2D next random in
  let (walls, random) := forM cells (cell noise2D coord config) random in
  let (lights, random) := addLights config random in
  (THREE.vec (worldX coord config) 0 (worldZ coord config),
   floorPanel config :: ceilingPanel config :: walls ++ lights).

(** The constructor, lines 36-47. *)
Definition new_Chunk (coord : ChunkCoord) (config : WorldConfig) : State (Statics Entropy) Chunk :=
  fun st =>
    let id := nextObjectId st in
    let st := {| wallMaterial := wallMaterial st; floorMaterial := floorMaterial st;
                 ceilingMaterial := ceilingMaterial st; entropy := entropy st;
                 nextObjectId := S id |} in
    let st := match wallMaterial st with
              | None => initMaterials st
              | Some _ => st
              end in
    let (position, children) := generate coord config in
    ({| coord := coord;
        mesh := {| THREE.id := id; THREE.group_position := position;
                   THREE.children := children |};
        config := config |}, st).

(** The structural description of a chunk: where its group is and what it
    holds, without the identity of the group object. *)
Definition geometry_of (c : Chunk) : Vector3 * list Object3D :=
  (THREE.group_position (mesh c), THREE.children (mesh c)).

End ChunkClass.

(** ** World.ts: the class [World] *)

(** [Partial<WorldConfig>]: every field may be missing. *)
Record PartialConfig : Type := {
  p_chunkSize : option Q;
  p_viewDistance : option Z;
  p_wallHeight : option Q;
  p_corridorWidth : option Q;
  p_seed : option Z;
}.

(** [{ ...DEFAULT_CONFIG, ...config }] *)
Definition spread (base : WorldConfig) (over : PartialConfig) : WorldConfig :=
  {| chunkSize := default (chunkSize base) (p_chunkSize over);
     viewDistance := default (viewDistance base) (p_viewDistance over);
     wallHeight := default (wallHeight base) (p_wallHeight over);
     corridorWidth := default (corridorWidth base) (p_corridorWidth over);
     seed := default (seed base) (p_seed over) |}.

(** What the class does to its collaborators, in the order in which it does
    it: a chunk is constructed (and with it generated) for a coordinate, a
    chunk is disposed of, a key leaves the store. *)
Inductive Event : Type :=
| Generated (c : ChunkCoord)
| Disposed (id : nat)
| Unloaded (key : string).

Module World.

(** The fields of the class.  [scene] holds the identities of the children of
    the three.js scene.  [lastPlayerChunk] is [None] for the value
    [{ x: Infinity, z: Infinity }] that [forceUpdate] stores, which no
    coordinate of a position compares equal to. *)
Record World : Type := {
  scene : list nat;
  config : WorldConfig;
  chunks : gmap string Chunk;
  lastPlayerChunk : option ChunkCoord;
}.

(** [scene.add(object)] for an object without a parent, [scene.remove(object)]:
    the first (and only) occurrence is spliced out, an absent object is
    ignored. *)
Definition scene_add (id : nat) (children : list nat) : list nat := children ++ [id].

Fixpoint scene_remove (id : nat) (children : list nat) : list nat :=
  match children with
  | [] => []
  | c :: children => if Nat.eqb c id then children else c :: scene_remove id children
  end.

(** [chunkKey], lines 29-31: the template literal prints both numbers in
    decimal (numbers from 1e21 on would be printed with an exponent). *)
Definition chunkKey (coord : ChunkCoord) : string :=
  pretty (x coord) +:+ "," +:+ pretty (z coord).

(** [worldToChunk], lines 33-38. *)
Definition worldToChunk (w : World) (worldPos : Vector3) : ChunkCoord :=
  {| x := Math_floor (THREE.x worldPos / chunkSize (config w));
     z := Math_floor (THREE.z worldPos / chunkSize (config w)) |}.

(** The comparison of lines 44-45. *)
Definition sameChunk (currentChunk : ChunkCoord) (last : option ChunkCoord) : bool :=
  match last with
  | Some l => (x currentChunk =? x l)%Z && (z currentChunk =? z l)%Z
  | None => false
  end.

(** The pairs [(dx, dz)] in the order of the loops of lines 55-56. *)
Definition offsets (viewDistance : Z) : list (Z * Z) :=
  dx ← seqZ (- viewDistance) (2 * viewDistance + 1);
  dz ← seqZ (- viewDistance) (2 * viewDistance + 1);
  [(dx, dz)].

(** The coordinate built at lines 57-60. *)
Definition neighbour (currentChunk : ChunkCoord) (d : Z * Z) : ChunkCoord :=
  {| x := JS.add (x currentChunk) d.1; z := JS.add (z currentChunk) d.2 |}.

(** [unloadChunk], lines 84-88. *)
Definition unloadChunk (key : string) (chunk : Chunk) (w : World) : list Event * World :=
  ([Disposed (THREE.id (mesh chunk)); Unloaded key],
   {| scene := scene_remove (THREE.id (mesh chunk)) (scene w);
      config := config w;
      chunks := delete key (chunks w);
      lastPlayerChunk := lastPlayerChunk w |}).

Section Methods.

Context {Entropy : Type}.
Variable Math_random : State Entropy Q.
Variable createNoise2D : State Z Q -> State Z (Q -> Q -> Q).

(** The constructor, lines 16-27: the ambient light is the one object it
    adds to the scene (fog and background are attributes of the scene). *)
Definition new_World (scene : list nat) (config : PartialConfig)
  : State (Statics Entropy) World :=
  fun st =>
    let ambient := nextObjectId st in
    ({| scene := scene_add ambient scene;
        config := spread DEFAULT_CONFIG config;
        chunks := ∅;
        lastPlayerChunk := Some {| x := 0; z := 0 |} |},
     {| wallMaterial := wallMaterial st; floorMaterial := floorMaterial st;
        ceilingMaterial := ceilingMaterial st; entropy := entropy st;
        nextObjectId := S ambient |}).

(** [loadChunk], lines 78-82. *)
Definition loadChunk (coord : ChunkCoord) (w : World) (st : Statics Entropy)
  : list Event * World * Statics Entropy :=
  let (chunk, st) := new_Chunk Math_random createNoise2D coord (config w) st in
  ([Generated coord],
   {| scene := scene_add (THREE.id (mesh chunk)) (scene w);
      config := config w;
      chunks := <[chunkKey coord := chunk]> (chunks w);
      lastPlayerChunk := lastPlayerChunk w |},
   st).

(** The variables that the loops of [update] change: the events so far, the
    set [neededChunks], the object and the statics. *)
Record Loop : Type := {
  events : list Event;
  neededChunks : gset string;
  world : World;
  statics : Statics Entropy;
}.

(** The body of the loops of lines 55-68. *)
Definition require (currentChunk : ChunkCoord) (l : Loop) (d : Z * Z) : Loop :=
  let coord := neighbour currentChunk d in
  let needed := {[ chunkKey coord ]} ∪ neededChunks l in
  match chunks (world l) !! chunkKey coord with
  | Some _ =>
      {| events := events l; neededChunks := needed; world := world l; statics := statics l |}
  | None =>
      let '(ev, w, st) := loadChunk coord (world l) (statics l) in
      {| events := events l ++ ev; neededChunks := needed; world := w; statics := st |}
  end.

(** The body of the loop of lines 71-75. *)
Definition sweep (l : Loop) (entry : string * Chunk) : Loop :=
  let (key, chunk) := entry in
  if decide (key ∈ neededChunks l) then l
  else
    let (ev, w) := unloadChunk key chunk (world l) in
    {| events := events l ++ ev; neededChunks := neededChunks l; world := w;
       statics := statics l |}.

(** [update], lines 40-76.  The entries of the map are visited in the order of
    [map_to_list] (JavaScript visits them in insertion order; an entry deleted
    by the body is the one being visited). *)
Definition update (playerPosition : Vector3) (w : World) (st : Statics Entropy)
  : list Event * World * Statics Entropy :=
  let currentChunk := worldToChunk w playerPosition in
  if sameChunk currentChunk (lastPlayerChunk w) then ([], w, st)
  else
    let w := {| scene := scene w; config := config w; chunks := chunks w;
                lastPlayerChunk := Some currentChunk |} in
    let l := {| events := []; neededChunks := ∅; world := w; statics := st |} in
    let l := fold_left (require currentChunk) (offsets (viewDistance (config w))) l in
    let l := fold_left sweep (map_to_list (chunks (world l))) l in
    (events l, world l, statics l).

(** [getChunkCount], lines 90-92. *)
Definition getChunkCount (w : World) : nat := size (chunks w).

(** [forceUpdate], lines 95-98. *)
Definition forceUpdate (playerPosition : Vector3) (w : World) (st : Statics Entropy)
  : list Event * World * Statics Entropy :=
  let w := {| scene := scene w; config := config w; chunks := chunks w;
              lastPlayerChunk := None |} in
  update playerPosition w st.

End Methods.

End World.

(** ** server/index.js: the position relay *)

Module Server.

(** The state object kept per connection (lines 41-45). *)
Record Player : Type := {
  id : string;
  position : Vector3;
  rotation : Q;
}.

(** The payload of a [move] event. *)
Record MoveData : Type := {
  data_position : Vector3;
  data_rotation : Q;
}.

(** The module-level variables [players] and [lastBroadcast]. *)
Record Relay : Type := {
  players : gmap string Player;
  lastBroadcast : Z;
}.

Definition BROADCAST_INTERVAL : Z := 50.

Inductive Message : Type :=
| msg_players (roster : list Player)
| msg_player_joined (p : Player)
| msg_player_moved (p : Player)
| msg_player_left (id : string).

(** [socket.emit], [socket.broadcast.emit], [io.emit]. *)
Inductive Target : Type :=
| ToSocket (id : string)
| ToOthers (id : string)
| ToAll.

Definition Emit : Type := Target * Message.

(** [Array.from(players.values())] *)
Definition roster (r : Relay) : list Player := (map_to_list (players r)).*2.

(** The state when the script starts (lines 31 and 35). *)
Definition start : Relay := {| players := ∅; lastBroadcast := 0 |}.

(** The handler of [connection], lines 37-51, up to the registration of the
    two handlers below for the socket. *)
Definition on_connection (socket_id : string) (r : Relay) : list Emit * Relay :=
  let player := {| id := socket_id; position := THREE.vec 0 1.6 0; rotation := 0 |} in
  let r := {| players := <[socket_id := player]> (players r);
              lastBroadcast := lastBroadcast r |} in
  ([(ToSocket socket_id, msg_players (roster r)); (ToOthers socket_id, msg_player_joined player)], r).

(** The handler of [move], lines 54-67; [now] is what [Date.now()] returns
    at line 61. *)
Definition on_move (socket_id : string) (data : MoveData) (now : Z) (r : Relay)
  : list Emit * Relay :=
  match players r !! socket_id with
  | Some player =>
      let player := {| id := id player; position := data_position data;
                       rotation := data_rotation data |} in
      let players := <[socket_id := player]> (players r) in
      if (BROADCAST_INTERVAL <? JS.sub now (lastBroadcast r))%Z
      then ([(ToOthers socket_id, msg_player_moved player)],
            {| players := players; lastBroadcast := now |})
      else ([], {| players := players; lastBroadcast := lastBroadcast r |})
  | None => ([], r)
  end.

(** The handler of [disconnect], lines 70-74. *)
Definition on_disconnect (socket_id : string) (r : Relay) : list Emit * Relay :=
  ([(ToAll, msg_player_left socket_id)],
   {| players := delete socket_id (players r); lastBroadcast := lastBroadcast r |}).

(** The timer of lines 78-82. *)
Definition on_roster_timer (r : Relay) : list Emit * Relay :=
  (if (0 <? size (players r))%nat then [(ToAll, msg_players (roster r))] else [], r).

(** What can happen to the server. *)
Inductive Input : Type :=
| Connection (socket_id : string)
| Move (socket_id : string) (data : MoveData) (now : Z)
| Disconnect (socket_id : string)
| RosterTimer.

Definition step (i : Input) (r : Relay) : list Emit * Relay :=
  match i with
  | Connection s => on_connection s r
  | Move s data now => on_move s data now r
  | Disconnect s => on_disconnect s r
  | RosterTimer => on_roster_timer r
  end.

(** The inputs with what the server emitted on each, and the final state. *)
Fixpoint run (inputs : list Input) (r : Relay) : list (Input * list Emit) * Relay :=
  match inputs with
  | [] => ([], r)
  | i :: inputs =>
      let (out, r) := step i r in
      let (rest, r) := run inputs r in
      ((i, out) :: rest, r)
  end.

Definition is_player_moved (e : Emit) : bool :=
  match e.2 with
  | msg_player_moved _ => true
  | _ => false
  end.

(** The readings of [Date.now()] at which a [player_moved] went out. *)
Fixpoint broadcast_times (trace : list (Input * list Emit)) : list Z :=
  match trace with
  | [] => []
  | (Move _ _ now, out) :: trace =>
      if existsb is_player_moved out then now :: broadcast_times trace
      else broadcast_times trace
  | _ :: trace => broadcast_times trace
  end.

(** Every time in the list is more than the interval after the one before
    it, the first one after [last]. *)
Fixpoint spaced (last : Z) (times : list Z) : Prop :=
  match times with
  | [] => True
  | t :: times => (BROADCAST_INTERVAL < t - last)%Z /\ spaced t times
  end.

End Server.

(** ** Multiplayer.ts: the client of the relay

    The file is in the sources as lines 81-272 of unnamed/part_000. *)

Module Multiplayer.

(** [PlayerState] of types.ts: the shape of the state objects of the relay. *)
Definition PlayerState : Type := Server.Player.

(** The group returned by [createPlayerAvatar]: its identity, its position and
    its rotation about the vertical axis.  The two meshes it holds (body and
    head) are the same in every avatar and are not part of the record. *)
Record Avatar : Type := {
  avatar_id : nat;
  avatar_position : Vector3;
  avatar_rotation_y : Q;
}.

(** The fields of the class: [socket] tells whether the field holds a socket,
    [scene] holds the identities of the children of the three.js scene,
    [onPlayerCountChange] tells whether a callback is registered, and
    [nextObjectId] is the object counter of three.js. *)
Record Multiplayer : Type := {
  socket : bool;
  scene : list nat;
  players : gmap string Avatar;
  localPlayerId : string;
  onPlayerCountChange : bool;
  connected : bool;
  nextObjectId : nat;
}.

(** The constructor: no socket, no avatar, the empty string as identifier. *)
Definition new_Multiplayer (scene : list nat) (nextObjectId : nat) : Multiplayer :=
  {| socket := false; scene := scene; players := ∅; localPlayerId := EmptyString;
     onPlayerCountChange := false; connected := false; nextObjectId := nextObjectId |}.

(** [createPlayerAvatar]: a group at the origin; the group and its two meshes
    take three object identities. *)
Definition createPlayerAvatar : State nat Avatar :=
  fun n => ({| avatar_id := n; avatar_position := THREE.vec 0 0 0; avatar_rotation_y := 0 |},
            (n + 3)%nat).

(** [Vector3.lerp] of three.js. *)
Definition lerp (a v : Vector3) (alpha : Q) : Vector3 :=
  THREE.vec (THREE.x a + (THREE.x v - THREE.x a) * alpha)
            (THREE.y a + (THREE.y v - THREE.y a) * alpha)
            (THREE.z a + (THREE.z v - THREE.z a) * alpha).

(** Where the avatar of a player is drawn: at the height of the floor. *)
Definition target (player : PlayerState) : Vector3 :=
  THREE.vec (THREE.x (Server.position player)) 0 (THREE.z (Server.position player)).

(** The object with other avatars, another scene and another counter. *)
Definition with_avatars (m : Multiplayer) (scene : list nat) (players : gmap string Avatar)
    (nextObjectId : nat) : Multiplayer :=
  {| socket := socket m; scene := scene; players := players;
     localPlayerId := localPlayerId m; onPlayerCountChange := onPlayerCountChange m;
     connected := connected m; nextObjectId := nextObjectId |}.

(** The object with another identifier and another connection flag. *)
Definition with_connection (m : Multiplayer) (localPlayerId : string) (connected : bool)
  : Multiplayer :=
  {| socket := socket m; scene := scene m; players := players m;
     localPlayerId := localPlayerId; onPlayerCountChange := onPlayerCountChange m;
     connected := connected; nextObjectId := nextObjectId m |}.

(** [connect] when [io] returns a socket (when it throws, the object stays
    as it is); the handlers it registers are the cases of [handle] below. *)
Definition connect (m : Multiplayer) : Multiplayer :=
  {| socket := true; scene := scene m; players := players m;
     localPlayerId := localPlayerId m; onPlayerCountChange := onPlayerCountChange m;
     connected := connected m; nextObjectId := nextObjectId m |}.

(** [setOnPlayerCountChange]. *)
Definition setOnPlayerCountChange (m : Multiplayer) : Multiplayer :=
  {| socket := socket m; scene := scene m; players := players m;
     localPlayerId := localPlayerId m; onPlayerCountChange := true;
     connected := connected m; nextObjectId := nextObjectId m |}.

(** [sendPosition]: the payload of the [move] that is emitted, if any. *)
Definition sendPosition (position : Vector3) (rotation : Q) (m : Multiplayer)
  : option Server.MoveData :=
  if negb (socket m) || negb (connected m) then None
  else Some {| Server.data_position := THREE.vec (THREE.x position) (THREE.y position)
                                                 (THREE.z position);
               Server.data_rotation := rotation |}.

(** [addPlayer]. *)
Definition addPlayer (player : PlayerState) (m : Multiplayer) : Multiplayer :=
  if decide (Server.id player = localPlayerId m) then m
  else
    match players m !! Server.id player with
    | Some _ => m
    | None =>
        let (avatar, n) := createPlayerAvatar (nextObjectId m) in
        let avatar := {| avatar_id := avatar_id avatar; avatar_position := target player;
                         avatar_rotation_y := Server.rotation player |} in
        with_avatars m (World.scene_add (avatar_id avatar) (scene m))
                     (<[Server.id player := avatar]> (players m)) n
    end.

(** [removePlayer]. *)
Definition removePlayer (playerId : string) (m : Multiplayer) : Multiplayer :=
  match players m !! playerId with
  | Some avatar =>
      with_avatars m (World.scene_remove (avatar_id avatar) (scene m))
                   (delete playerId (players m)) (nextObjectId m)
  | None => m
  end.

(** [updatePlayerPosition]: the avatar, made at the origin when there is
    none, moves a tenth of the way to the target and takes the rotation. *)
Definition updatePlayerPosition (player : PlayerState) (m : Multiplayer) : Multiplayer :=
  if decide (Server.id player = localPlayerId m) then m
  else
    let '(avatar, scene, n) :=
      match players m !! Server.id player with
      | Some avatar => (avatar, scene m, nextObjectId m)
      | None =>
          let (avatar, n) := createPlayerAvatar (nextObjectId m) in
          (avatar, World.scene_add (avatar_id avatar) (scene m), n)
      end in
    let avatar := {| avatar_id := avatar_id avatar;
                     avatar_position := lerp (avatar_position avatar) (target player) 0.1;
                     avatar_rotation_y := Server.rotation player |} in
    with_avatars m scene (<[Server.id player := avatar]> (players m)) n.

(** The body of the first loop of [updatePlayers]. *)
Definition prune (currentIds : gset string) (m : Multiplayer) (entry : string * Avatar)
  : Multiplayer :=
  let (id, avatar) := entry in
  if decide (id ∈ currentIds) then m
  else with_avatars m (World.scene_remove (avatar_id avatar) (scene m))
                    (delete id (players m)) (nextObjectId m).

(** [updatePlayers].  The entries of the map are visited in the order of
    [map_to_list], as in [World.update]. *)
Definition updatePlayers (roster : list PlayerState) (m : Multiplayer) : Multiplayer :=
  let currentIds : gset string := list_to_set (Server.id <$> roster) in
  let m := fold_left (prune currentIds) (map_to_list (players m)) m in
  fold_left (fun m player =>
               if decide (Server.id player = localPlayerId m) then m
               else updatePlayerPosition player m) roster m.

(** [getPlayerCount], [isConnected]. *)
Definition getPlayerCount (m : Multiplayer) : nat := (size (players m) + 1)%nat.
Definition isConnected (m : Multiplayer) : bool := connected m.

(** [disconnect]. *)
Definition disconnect (m : Multiplayer) : Multiplayer :=
  {| socket := false;
     scene := fold_left (fun scene avatar => World.scene_remove (avatar_id avatar) scene)
                        (map_to_list (players m)).*2 (scene m);
     players := ∅;
     localPlayerId := localPlayerId m; onPlayerCountChange := onPlayerCountChange m;
     connected := false; nextObjectId := nextObjectId m |}.

(** What the socket delivers to the handlers that [connect] registers. *)
Inductive Input : Type :=
| on_connect (socket_id : string)
| on_disconnect
| on_connect_error
| on_players (roster : list PlayerState)
| on_player_joined (player : PlayerState)
| on_player_left (playerId : string)
| on_player_moved (player : PlayerState).

(** The handlers: the count handed to the callback, if it is called, and the
    object afterwards. *)
Definition handle (i : Input) (m : Multiplayer) : option nat * Multiplayer :=
  match i with
  | on_connect socket_id => (None, with_connection m socket_id true)
  | on_disconnect => (None, with_connection m (localPlayerId m) false)
  | on_connect_error => (None, with_connection m (localPlayerId m) false)
  | on_players roster =>
      (if onPlayerCountChange m then Some (length roster) else None, updatePlayers roster m)
  | on_player_joined player => (None, addPlayer player m)
  | on_player_left playerId => (None, removePlayer playerId m)
  | on_player_moved player => (None, updatePlayerPosition player m)
  end.

End Multiplayer.

(** ** Player.ts: the first person controller *)

Module Player.

(** The fields of the class.  [euler] holds the three angles of the Euler
    object (its order is always YXZ); [quaternion] and [camera_position] are
    the two attributes of the camera that the class writes.  The type of the
    quaternion and the operations of three.js on it are parameters. *)
Record Player (Quaternion : Type) : Type := {
  camera_quaternion : Quaternion;
  camera_position : Vector3;
  position : Vector3;
  velocity : Vector3;
  euler : Vector3;
  moveForward : bool;
  moveBackward : bool;
  moveLeft : bool;
  moveRight : bool;
  isRunning : bool;
  isLocked : bool;
}.
Arguments camera_quaternion {Quaternion}.
Arguments camera_position {Quaternion}.
Arguments position {Quaternion}.
Arguments velocity {Quaternion}.
Arguments euler {Quaternion}.
Arguments moveForward {Quaternion}.
Arguments moveBackward {Quaternion}.
Arguments moveLeft {Quaternion}.
Arguments moveRight {Quaternion}.
Arguments isRunning {Quaternion}.
Arguments isLocked {Quaternion}.

(** The settings, lines 22-26. *)
Definition walkSpeed : Q := 4.
Definition runSpeed : Q := 8.
Definition mouseSensitivity : Q := 0.002.
Definition eyeHeight : Q := 1.6.
Definition friction : Q := 10.

(** [Math.max]. *)
Definition Math_max (a b : Q) : Q := Qmax a b.

(** The flag that a key code sets and clears (the [switch] of lines 70-91 and
    of lines 95-116). *)
Inductive Flag : Type := Forward | Backward | Left | Right | Running.

Definition flag_of_code (code : string) : option Flag :=
  if decide (code = "KeyW" \/ code = "ArrowUp") then Some Forward
  else if decide (code = "KeyS" \/ code = "ArrowDown") then Some Backward
  else if decide (code = "KeyA" \/ code = "ArrowLeft") then Some Left
  else if decide (code = "KeyD" \/ code = "ArrowRight") then Some Right
  else if decide (code = "ShiftLeft" \/ code = "ShiftRight") then Some Running
  else None.

Section Class.

Context {Quaternion : Type}.

(** Of three.js: the quaternion of a new camera, [Quaternion.setFromEuler],
    [Euler.setFromQuaternion] (both for the order YXZ) and the direction that
    [Camera.getWorldDirection] computes from the quaternion.  Of JavaScript:
    [Math.atan2], [Math.cos], [Math.sin]. *)
Variable identity : Quaternion.
Variable setFromEuler : Vector3 -> Quaternion.
Variable setFromQuaternion : Quaternion -> Vector3.
Variable getWorldDirection : Quaternion -> Vector3.
Variable Math_atan2 : Q -> Q -> Q.
Variable Math_cos : Q -> Q.
Variable Math_sin : Q -> Q.

(** The constructor, lines 31-43, and the initial values of the fields. *)
Definition new_Player : Player Quaternion :=
  {| camera_quaternion := identity;
     camera_position := THREE.vec 0 eyeHeight 0;
     position := THREE.vec 0 eyeHeight 0;
     velocity := THREE.vec 0 0 0;
     euler := THREE.vec 0 0 0;
     moveForward := false; moveBackward := false; moveLeft := false; moveRight := false;
     isRunning := false; isLocked := false |}.

Definition set_flag (f : Flag) (b : bool) (p : Player Quaternion) : Player Quaternion :=
  {| camera_quaternion := camera_quaternion p; camera_position := camera_position p;
     position := position p; velocity := velocity p; euler := euler p;
     moveForward := match f with Forward => b | _ => moveForward p end;
     moveBackward := match f with Backward => b | _ => moveBackward p end;
     moveLeft := match f with Left => b | _ => moveLeft p end;
     moveRight := match f with Right => b | _ => moveRight p end;
     isRunning := match f with Running => b | _ => isRunning p end;
     isLocked := isLocked p |}.

(** [onKeyDown] and [onKeyUp], lines 69-117. *)
Definition onKeyDown (code : string) (p : Player Quaternion) : Player Quaternion :=
  match flag_of_code code with
  | Some f => set_flag f true p
  | None => p
  end.

Definition onKeyUp (code : string) (p : Player Quaternion) : Player Quaternion :=
  match flag_of_code code with
  | Some f => set_flag f false p
  | None => p
  end.

(** The handler of [pointerlockchange], lines 54-56. *)
Definition onPointerLockChange (locked : bool) (p : Player Quaternion) : Player Quaternion :=
  {| camera_quaternion := camera_quaternion p; camera_position := camera_position p;
     position := position p; velocity := velocity p; euler := euler p;
     moveForward := moveForward p; moveBackward := moveBackward p;
     moveLeft := moveLeft p; moveRight := moveRight p;
     isRunning := isRunning p; isLocked := locked |}.

(** [onMouseMove], lines 119-134. *)
Definition onMouseMove (movementX movementY : Q) (p : Player Quaternion) : Player Quaternion :=
  if negb (isLocked p) then p
  else
    let e := setFromQuaternion (camera_quaternion p) in
    let ey := THREE.y e - movementX * mouseSensitivity in
    let ex := THREE.x e - movementY * mouseSensitivity in
    let ex := Math_max (- Math_PI / 2) (Math_min (Math_PI / 2) ex) in
    let e := THREE.vec ex ey (THREE.z e) in
    {| camera_quaternion := setFromEuler e; camera_position := camera_position p;
       position := position p; velocity := velocity p; euler := e;
       moveForward := moveForward p; moveBackward := moveBackward p;
       moveLeft := moveLeft p; moveRight := moveRight p;
       isRunning := isRunning p; isLocked := isLocked p |}.

(** [Vector3.length] and [Vector3.normalize] of three.js (the latter divides
    by [length() || 1]). *)
Definition length (v : Vector3) : Q :=
  Math_sqrt (THREE.x v * THREE.x v + THREE.y v * THREE.y v + THREE.z v * THREE.z v).

Definition normalize (v : Vector3) : Vector3 :=
  let s := 1 / (if Qeq_bool (length v) 0 then 1 else length v) in
  THREE.vec (THREE.x v * s) (THREE.y v * s) (THREE.z v * s).

(** The direction of lines 138-146, before it is normalized. *)
Definition direction (p : Player Quaternion) : Vector3 :=
  let z := 0 in
  let z := if moveForward p then z - 1 else z in
  let z := if moveBackward p then z + 1 else z in
  let x := 0 in
  let x := if moveLeft p then x - 1 else x in
  let x := if moveRight p then x + 1 else x in
  THREE.vec x 0 z.

(** [update], lines 136-180. *)
Definition update (deltaTime : Q) (p : Player Quaternion) : Player Quaternion :=
  let speed := if isRunning p then runSpeed else walkSpeed in
  let direction := normalize (direction p) in
  let cameraDirection := getWorldDirection (camera_quaternion p) in
  let angle := Math_atan2 (THREE.x cameraDirection) (THREE.z cameraDirection) in
  let moveX := THREE.x direction * Math_cos angle - THREE.z direction * Math_sin angle in
  let moveZ := THREE.x direction * Math_sin angle + THREE.z direction * Math_cos angle in
  let vx := THREE.x (velocity p) in
  let vz := THREE.z (velocity p) in
  let '(vx, vz) :=
    if Qgtb (length direction) 0
    then (vx + moveX * speed * deltaTime * 10, vz + moveZ * speed * deltaTime * 10)
    else (vx, vz) in
  let vx := vx - vx * friction * deltaTime in
  let vz := vz - vz * friction * deltaTime in
  let maxSpeed := speed in
  let currentSpeed := Math_sqrt (vx * vx + vz * vz) in
  let '(vx, vz) :=
    if Qgtb currentSpeed maxSpeed
    then (vx / currentSpeed * maxSpeed, vz / currentSpeed * maxSpeed)
    else (vx, vz) in
  let position := THREE.vec (THREE.x (position p) + vx * deltaTime)
                            (THREE.y (position p))
                            (THREE.z (position p) + vz * deltaTime) in
  {| camera_quaternion := camera_quaternion p; camera_position := position;
     position := position; velocity := THREE.vec vx (THREE.y (velocity p)) vz;
     euler := euler p;
     moveForward := moveForward p; moveBackward := moveBackward p;
     moveLeft := moveLeft p; moveRight := moveRight p;
     isRunning := isRunning p; isLocked := isLocked p |}.

(** [getCoordinates] and [getRotation], lines 182-192. *)
Definition getCoordinates (p : Player Quaternion) : Z * Z * Z :=
  (Math_floor (THREE.x (position p)), Math_floor (THREE.y (position p)),
   Math_floor (THREE.z (position p))).

Definition getRotation (p : Player Quaternion) : Q := THREE.y (euler p).

(** What happens to a player: the events of the document and the frames of
    main.ts, which calls [update] with [Math.min(clock.getDelta(), 0.1)]
    (lines 173 and 181 of main.ts; the method [applyTouchInput] that this
    version of main.ts calls before is not in Player.ts as the sources have
    it). *)
Inductive Input : Type :=
| KeyDown (code : string)
| KeyUp (code : string)
| MouseMove (movementX movementY : Q)
| PointerLockChange (locked : bool)
| Frame (delta : Q).

Definition step (p : Player Quaternion) (i : Input) : Player Quaternion :=
  match i with
  | KeyDown code => onKeyDown code p
  | KeyUp code => onKeyUp code p
  | MouseMove mx my => onMouseMove mx my p
  | PointerLockChange locked => onPointerLockChange locked p
  | Frame delta => update (Math_min delta 0.1) p
  end.

Definition run (inputs : list Input) (p : Player Quaternion) : Player Quaternion :=
  fold_left step inputs p.

End Class.

End Player.

(** ** Vocabulary of the properties *)

(** A string without a comma: the two halves of a chunk key. *)
Fixpoint comma_free (s : string) : Prop :=
  match s with
  | EmptyString => True
  | String c s => c <> ","%char /\ comma_free s
  end.

(** The coordinates that the loops of [update] build around [currentChunk],
    in the arithmetic of the program. *)
Definition visited (currentChunk : ChunkCoord) (viewDistance : Z) : list ChunkCoord :=
  World.neighbour currentChunk <$> World.offsets viewDistance.

(** The Active Window of the specification: the square of side
    [2 * viewDistance + 1] around [center], and the keys of its coordinates. *)
Definition inWindow (center : ChunkCoord) (viewDistance : Z) (c : ChunkCoord) : Prop :=
  (Z.abs (x c - x center) <= viewDistance /\ Z.abs (z c - z center) <= viewDistance)%Z.

Definition windowCoords (center : ChunkCoord) (viewDistance : Z) : list ChunkCoord :=
  (fun d : Z * Z => {| x := x center + d.1; z := z center + d.2 |}%Z)
  <$> World.offsets viewDistance.

Definition activeWindow (center : ChunkCoord) (viewDistance : Z) : gset string :=
  list_to_set (World.chunkKey <$> windowCoords center viewDistance).

(** The window around the chunk of the position lies in the range of exact
    integers. *)
Definition in_exact_range (w : World.World) (pos : Vector3) : Prop :=
  (Z.abs (x (World.worldToChunk w pos)) + viewDistance (World.config w) <= 2 ^ 53
   /\ Z.abs (z (World.worldToChunk w pos)) + viewDistance (World.config w) <= 2 ^ 53)%Z.

(** The chunk store holds a chunk for the coordinate. *)
Definition resident (w : World.World) (c : ChunkCoord) : Prop :=
  is_Some (World.chunks w !! World.chunkKey c).

(** An event of the unload loop. *)
Definition unload_event (e : Event) : Prop :=
  match e with
  | Generated _ => False
  | _ => True
  end.

(** The object is a wall segment of cell [(gx, gz)]. *)
Definition is_wall_of (config : WorldConfig) (gx gz : Z) (o : Object3D) : Prop :=
  exists wallLength turned, o = wall config gx gz wallLength turned.

(** The threshold as section 4.4 (step 3b) of the specification words it:
    [0.1 - min(d * 0.02, 0.15)] with [d] the distance of the world position of
    the cell from the origin. *)
Definition spec_wallThreshold (coord : ChunkCoord) (config : WorldConfig) (gx gz : Z) : Q :=
  let cellWorldX := worldX coord config + inject_Z gx * cellSize config in
  let cellWorldZ := worldZ coord config + inject_Z gz * cellSize config in
  0.1 - Math_min (Math_sqrt (cellWorldX * cellWorldX + cellWorldZ * cellWorldZ) * 0.02) 0.15.

(** The linear congruential recurrence as section 4.2 of the specification
    words it, on integers. *)
Definition spec_recurrence (seed : Z) : Z := ((seed * 1103515245 + 12345) mod 2 ^ 31)%Z.

(** main.ts calls [forceUpdate] once when the game starts (line 123) and
    [update] with the position of the player in every frame (line 185): the
    world and the statics after the frames with the given positions. *)
Fixpoint frames {Entropy : Type} (Math_random : State Entropy Q)
    (createNoise2D : State Z Q -> State Z (Q -> Q -> Q))
    (positions : list Vector3) (w : World.World) (st : Statics Entropy)
  : World.World * Statics Entropy :=
  match positions with
  | [] => (w, st)
  | p :: positions =>
      let r := World.update Math_random createNoise2D p w st in
      frames Math_random createNoise2D positions r.1.2 r.2
  end.

(** Where an object of a chunk is, in the coordinates of the group. *)
Definition position_of (o : Object3D) : Vector3 :=
  match o with
  | THREE.AMesh m => THREE.position m
  | THREE.ALight l => THREE.light_position l
  end.

(** The object lies over the square of the chunk. *)
Definition in_footprint (config : WorldConfig) (o : Object3D) : Prop :=
  (0 <= THREE.x (position_of o) /\ THREE.x (position_of o) <= chunkSize config)
  /\ (0 <= THREE.z (position_of o) /\ THREE.z (position_of o) <= chunkSize config).

(** What a child of the group of a chunk can be: the floor, the ceiling, a
    wall segment of a cell of the grid whose length was drawn, a pillar of a
    cell, or the fixture or the light of a point of the light lattice. *)
Inductive chunk_child (config : WorldConfig) : Object3D -> Prop :=
| child_floor : chunk_child config (floorPanel config)
| child_ceiling : chunk_child config (ceilingPanel config)
| child_wall (gx gz : Z) (r : Q) (turned : bool) :
    (0 <= gx < gridSize)%Z -> (0 <= gz < gridSize)%Z -> 0 <= r -> r < 1 ->
    chunk_child config (wall config gx gz (cellSize config * (0.5 + r * 0.5)) turned)
| child_pillar (gx gz : Z) (rx rz : Q) :
    (0 <= gx < gridSize)%Z -> (0 <= gz < gridSize)%Z ->
    0 <= rx -> rx < 1 -> 0 <= rz -> rz < 1 ->
    chunk_child config (pillar config gx gz rx rz)
| child_fixture (lx lz : Q) (dim : bool) :
    lx ∈ lightLattice config -> lz ∈ lightLattice config ->
    chunk_child config (fixture config lx lz dim)
| child_pointLight (lx lz : Q) :
    lx ∈ lightLattice config -> lz ∈ lightLattice config ->
    chunk_child config (pointLight config lx lz).



(** The coordinates for which chunks were generated, the keys that left the
    store and the identities of the groups disposed of, in the order of the
    events. *)
Definition generated (evs : list Event) : list ChunkCoord :=
  omap (fun e => match e with Generated c => Some c | _ => None end) evs.

Definition unloaded (evs : list Event) : list string :=
  omap (fun e => match e with Unloaded key => Some key | _ => None end) evs.

Definition disposed (evs : list Event) : list nat :=
  omap (fun e => match e with Disposed id => Some id | _ => None end) evs.

(** Every state object of the relay is stored under the identifier it
    carries. *)
Definition keyed (r : Server.Relay) : Prop :=
  forall k p, Server.players r !! k = Some p -> Server.id p = k.

(** The sockets that connected and did not disconnect since, along the
    inputs. *)
Definition connected_after (inputs : list Server.Input) (initial : gset string) : gset string :=
  fold_left (fun s i => match i with
                        | Server.Connection c => {[ c ]} ∪ s
                        | Server.Disconnect c => s ∖ {[ c ]}
                        | _ => s
                        end) inputs initial.

(** The identities of the avatars of the client. *)
Definition avatars (m : Multiplayer.Multiplayer) : list nat :=
  (fun entry : string * Multiplayer.Avatar => Multiplayer.avatar_id entry.2)
    <$> map_to_list (Multiplayer.players m).

(** Where the avatar of a player is before an update: at the origin when
    there is none. *)
Definition avatar_start (m : Multiplayer.Multiplayer) (id : string) : Vector3 :=
  match Multiplayer.players m !! id with
  | Some a => Multiplayer.avatar_position a
  | None => THREE.vec 0 0 0
  end.

(** The deliveries of the socket to the client, in turn. *)
Definition deliver (inputs : list Multiplayer.Input) (m : Multiplayer.Multiplayer)
  : Multiplayer.Multiplayer :=
  fold_left (fun m i => (Multiplayer.handle i m).2) inputs m.

Definition is_on_connect (i : Multiplayer.Input) : bool :=
  match i with
  | Multiplayer.on_connect _ => true
  | _ => false
  end.

(** No direction is held, or the directions held cancel each other. *)
Definition no_net_direction {Quaternion : Type} (p : Player.Player Quaternion) : Prop :=
  Player.moveForward p = Player.moveBackward p /\ Player.moveLeft p = Player.moveRight p.

(** The player is at eye height with the camera at its position, has no
    vertical velocity, and its pitch is within a quarter turn of level. *)
Definition player_invariant {Quaternion : Type} (p : Player.Player Quaternion) : Prop :=
  THREE.y (Player.position p) = Player.eyeHeight
  /\ Player.camera_position p = Player.position p
  /\ THREE.y (Player.velocity p) = 0
  /\ - Math_PI / 2 <= THREE.x (Player.euler p) /\ THREE.x (Player.euler p) <= Math_PI / 2.

(** Collaborators for the closed examples: a [Math.random] that always
    returns 0, a noise field that is 0 everywhere and draws nothing, a process
    in which no chunk was built yet, a [World] just constructed with the
    default configuration, and one with the configuration of the scenario of
    section 8. *)
Module Sample.

Definition Math_random : State unit Q := ret 0.

Definition createNoise2D : State Z Q -> State Z (Q -> Q -> Q) :=
  fun _ => ret (fun _ _ => 0).

Definition statics : Statics unit :=
  {| wallMaterial := None; floorMaterial := None; ceilingMaterial := None;
     entropy := tt; nextObjectId := 0 |}.

Definition no_options : PartialConfig :=
  {| p_chunkSize := None; p_viewDistance := None; p_wallHeight := None;
     p_corridorWidth := None; p_seed := None |}.

Definition world : World.World := (World.new_World [] no_options statics).1.

Definition statics' : Statics unit := (World.new_World [] no_options statics).2.

Definition narrow_world : World.World :=
  (World.new_World []
     {| p_chunkSize := Some 32; p_viewDistance := Some 0%Z; p_wallHeight := None;
        p_corridorWidth := None; p_seed := Some 7%Z |} statics).1.

End Sample.

(** * Properties *)

Local Open Scope Z_scope.

(** ** JavaScript integers *)

Section Int32.

Lemma toInt32_eqm n : exists k, JS.toInt32 n = n + 2 ^ 32 * k.
Proof.
  unfold JS.toInt32. exists (- ((n + 2 ^ 31) / 2 ^ 32)).
  pose proof (Z.div_mod (n + 2 ^ 31) (2 ^ 32)). lia.
Qed.

Lemma toInt32_range n : - 2 ^ 31 <= JS.toInt32 n < 2 ^ 31.
Proof.
  unfold JS.toInt32. pose proof (Z.mod_pos_bound (n + 2 ^ 31) (2 ^ 32)). lia.
Qed.

(** [n & 0x7fffffff] keeps the low 31 bits. *)
Lemma band_mask31 n : JS.band n 0x7fffffff = n mod 2 ^ 31.
Proof.
  unfold JS.band. change (JS.toInt32 0x7fffffff) with (Z.ones 31).
  rewrite Z.land_ones by lia.
  destruct (toInt32_eqm n) as [k ->].
  replace (n + 2 ^ 32 * k) with (n + (2 * k) * 2 ^ 31) by lia.
  apply Z.mod_add. lia.
Qed.

(** [h << 5] is [32 * h] modulo [2^32]. *)
Lemma shl5_eqm h : exists k, JS.shl h 5 = 32 * h + 2 ^ 32 * k.
Proof.
  unfold JS.shl. change (5 mod 32) with 5. rewrite Z.shiftl_mul_pow2 by lia.
  destruct (toInt32_eqm (JS.toInt32 h * 2 ^ 5)) as [k1 ->].
  destruct (toInt32_eqm h) as [k2 ->].
  exists (k1 + 32 * k2). lia.
Qed.

Lemma shl_range a b : - 2 ^ 31 <= JS.shl a b < 2 ^ 31.
Proof. apply toInt32_range. Qed.

End Int32.

Section Rounding.

(** Up to [2^53] every integer is a binary64. *)
Lemma fl_exact n : Z.abs n <= 2 ^ 53 -> JS.fl n = n.
Proof.
  intros Hn. unfold JS.fl.
  destruct (Z.ltb_spec (Z.abs n) (2 ^ 53)) as [|Hge]; [reflexivity|].
  assert (Ha : Z.abs n = 2 ^ 53) by lia.
  rewrite Ha. change (Z.log2 (2 ^ 53) - 52) with 1.
  change (2 ^ 53 mod 2 ^ 1) with 0. change (2 ^ (1 - 1)) with 1.
  change (0 <? 1) with true. cbv iota.
  change (2 ^ 53 / 2 ^ 1 * 2 ^ 1) with (2 ^ 53).
  rewrite <- Ha. rewrite Z.mul_comm. apply Z.abs_sgn.
Qed.

(** From [2^53] on a binary64 is a significand of at least 53 bits times a
    positive power of two. *)
Lemma fl_large_form n :
  2 ^ 53 <= Z.abs n ->
  exists q k, 1 <= k /\ 2 ^ 52 <= q /\ JS.fl n = Z.sgn n * (q * 2 ^ k).
Proof.
  intros Hn. unfold JS.fl.
  destruct (Z.ltb_spec (Z.abs n) (2 ^ 53)) as [|_]; [lia|].
  set (a := Z.abs n) in *.
  assert (Hlog : 53 <= Z.log2 a) by (apply Z.log2_le_pow2; lia).
  set (k := Z.log2 a - 52).
  assert (Hk : 1 <= k) by lia.
  assert (Hq : 2 ^ 52 <= a / 2 ^ k).
  { apply Z.div_le_lower_bound; [apply Z.pow_pos_nonneg; lia|].
    rewrite <- Z.pow_add_r by lia. replace (k + 52) with (Z.log2 a) by lia.
    apply Z.log2_spec. lia. }
  eexists _, k. split; [exact Hk|]. split; [|reflexivity].
  repeat match goal with |- context [if ?b then _ else _] => destruct b end; lia.
Qed.

Lemma fl_large_even n : 2 ^ 53 <= Z.abs n -> Z.even (JS.fl n) = true.
Proof.
  intros Hn. destruct (fl_large_form n Hn) as (q & k & Hk & _ & ->).
  replace k with (Z.succ (k - 1)) by lia. rewrite Z.pow_succ_r by lia.
  replace (Z.sgn n * (q * (2 * 2 ^ (k - 1)))) with (2 * (Z.sgn n * q * 2 ^ (k - 1))) by lia.
  apply Z.even_mul.
Qed.

Lemma fl_large_pos n : 2 ^ 53 <= n -> 2 ^ 53 <= JS.fl n.
Proof.
  intros Hn. destruct (fl_large_form n) as (q & k & Hk & Hq & ->); [lia|].
  rewrite Z.sgn_pos by lia.
  assert (2 ^ 1 <= 2 ^ k) by (apply Z.pow_le_mono_r; lia).
  change (2 ^ 1) with 2 in *. nia.
Qed.

Lemma fl_large_neg n : n <= - 2 ^ 53 -> JS.fl n <= - 2 ^ 53.
Proof.
  intros Hn. destruct (fl_large_form n) as (q & k & Hk & Hq & ->); [lia|].
  rewrite Z.sgn_neg by lia.
  assert (2 ^ 1 <= 2 ^ k) by (apply Z.pow_le_mono_r; lia).
  change (2 ^ 1) with 2 in *. nia.
Qed.

(** Rounding does not move a number across a bound below [2^53]. *)
Lemma fl_lt_iff c n : Z.abs c < 2 ^ 53 -> c < JS.fl n <-> c < n.
Proof.
  intros Hc.
  destruct (Z_lt_le_dec (Z.abs n) (2 ^ 53)) as [Hn|Hn].
  - rewrite fl_exact by lia. reflexivity.
  - destruct (Z_le_gt_dec 0 n).
    + pose proof (fl_large_pos n). lia.
    + pose proof (fl_large_neg n). lia.
Qed.

End Rounding.

(** [fl] against the kernel's binary64 arithmetic. *)
Example fl_mul_binary64 :
  Binary64Check.Z_of_float
    (Binary64Check.float_of_Z 230538014 * Binary64Check.float_of_Z 1103515245)%float
  = Some (JS.mul 230538014 1103515245).
Proof. vm_compute. reflexivity. Qed.

Example lcg_next_binary64_230538014 :
  Binary64Check.lcg_next_float 230538014 = Some (lcg_next 230538014).
Proof. vm_compute. reflexivity. Qed.

Example lcg_next_binary64_samples :
  List.map Binary64Check.lcg_next_float [0; 1; 42; 8162277; 8162278; 8162279; 40362; 2147483647; 1073741824; 1916945634]
  = List.map (fun s => Some (lcg_next s)) [0; 1; 42; 8162277; 8162278; 8162279; 40362; 2147483647; 1073741824; 1916945634].
Proof. vm_compute. reflexivity. Qed.

Example fl_binary64_samples :
  let samples :=
    [0; 1; 2 ^ 53 - 1; 2 ^ 53; 2 ^ 53 + 1; 2 ^ 53 + 2; 2 ^ 53 + 3; 2 ^ 54 - 1; 2 ^ 54 + 2;
     2 ^ 54 + 6; 2 ^ 57 + 2 ^ 4; 2 ^ 57 + 3 * 2 ^ 4; 2 ^ 57 + 2 ^ 4 + 1; 2 ^ 62 - 1;
     2 ^ 62 + 2 ^ 9; 2 ^ 62 + 3 * 2 ^ 9; 254402213001023430; 254402213001035769;
     2369815140147578915; 9007199254739294; 18014398509481983; 9223372036854775807] in
  List.map (fun n => Binary64Check.Z_of_float (Binary64Check.float_of_Z n)) samples
  = List.map (fun n => Some (JS.fl n)) samples
  /\ List.map (fun n => Binary64Check.Z_of_float (- Binary64Check.float_of_Z n)%float) samples
     = List.map (fun n => Some (JS.fl (- n))) samples.
Proof. vm_compute. split; reflexivity. Qed.

Example hashCoords_samples :
  hashCoords 0 0 42 = 40362 /\ hashCoords 1 (-31) 42 = 40362 /\ hashCoords 1 0 42 = 40393
  /\ hashCoords 9007199254737993 (-26) 0 = 2147390654
  /\ hashCoords 9007199254737992 5 0 = 2147390652.
Proof. vm_compute. repeat split; reflexivity. Qed.

Example hashCoords_binary64_samples :
  let samples :=
    [(0, 0, 42); (1, -31, 42); (-7, 12, 7); (123456789, -987654321, 2147483647);
     (9007199254737992, 5, 0); (9007199254737993, -26, 0);
     (-9007199254740991, 31, 0); (-9007199254740990, 0, 0);
     (2 ^ 60, - 2 ^ 59, - 2 ^ 40)] in
  List.map (fun t : Z * Z * Z => Binary64Check.hashCoords_float t.1.1 t.1.2 t.2) samples
  = List.map (fun t : Z * Z * Z => Some (hashCoords t.1.1 t.1.2 t.2)) samples.
Proof. vm_compute. reflexivity. Qed.

(** ** The coordinate hash *)

(** Where nothing is rounded, the hash is the 31 low bits of
    [961 * seed + 31 * x + z]. *)
Lemma hashCoords_exact x z seed :
  Z.abs seed <= 2 ^ 51 -> Z.abs x <= 2 ^ 51 -> Z.abs z <= 2 ^ 51 ->
  hashCoords x z seed = (961 * seed + 31 * x + z) mod 2 ^ 31.
Proof.
  intros Hs Hx Hz. unfold hashCoords, JS.add, JS.sub. rewrite band_mask31.
  destruct (shl5_eqm seed) as [k1 H1]. pose proof (shl_range seed 5) as R1.
  rewrite (fl_exact (JS.shl seed 5 - seed)) by lia.
  rewrite (fl_exact (JS.shl seed 5 - seed + x)) by lia.
  set (h := JS.shl seed 5 - seed + x) in *.
  destruct (shl5_eqm h) as [k2 H2]. pose proof (shl_range h 5) as R2.
  rewrite (fl_exact (JS.shl h 5 - h)) by lia.
  rewrite (fl_exact (JS.shl h 5 - h + z)) by lia.
  rewrite H2. unfold h. rewrite H1.
  replace (32 * (32 * seed + 2 ^ 32 * k1 - seed + x) + 2 ^ 32 * k2
           - (32 * seed + 2 ^ 32 * k1 - seed + x) + z)
    with (961 * seed + 31 * x + z + (62 * k1 + 2 * k2) * 2 ^ 31) by lia.
  apply Z.mod_add. lia.
Qed.

Lemma hashCoords_range x z seed : 0 <= hashCoords x z seed < 2 ^ 31.
Proof. unfold hashCoords. rewrite band_mask31. apply Z.mod_pos_bound. lia. Qed.

(** C10, as stated, fails: all five numbers are integers that a [number]
    holds exactly, and the two hashes differ, because the accumulator passes
    [2^53] and is rounded.  With seed 0 the first fold leaves [h = x].  For
    [x = 9007199254737992], [z = 5]: [h << 5] is -96000, [(h << 5) - h] is
    -9007199254833992 (even, exact), and adding 5 gives the odd number
    -9007199254833987, rounded to -9007199254833988, of which the 31 low bits
    are 2147390652.  For [x + 1], [z - 31]: [h << 5] is -95968, the difference
    -9007199254833961 is odd and rounded to -9007199254833960, and adding -26
    gives -9007199254833986, of which the 31 low bits are 2147390654. *)
Lemma hashCoords_line_collision_large :
  JS.representable 9007199254737992 /\ JS.representable (9007199254737992 + 1)
  /\ JS.representable 5 /\ JS.representable (5 - 31) /\ JS.representable 0
  /\ hashCoords (9007199254737992 + 1) (5 - 31) 0 <> hashCoords 9007199254737992 5 0.
Proof. vm_compute. repeat split; discriminate. Qed.

(** C10 (amended).  For a seed and coordinates of magnitude at most [2^50],
    the chunk seed is [(961 * seed + 31 * x + z) mod 2^31], so that
    [(x + 1, z - 31)] and [(x, z)] receive the same chunk seed. *)
Theorem hashCoords_line_collision x z seed :
  Z.abs seed <= 2 ^ 50 -> Z.abs x <= 2 ^ 50 -> Z.abs z <= 2 ^ 50 ->
  hashCoords x z seed = (961 * seed + 31 * x + z) mod 2 ^ 31
  /\ hashCoords (x + 1) (z - 31) seed = hashCoords x z seed.
Proof.
  intros Hs Hx Hz.
  rewrite !hashCoords_exact by lia. split; [reflexivity|].
  f_equal. lia.
Qed.

Lemma hashCoords_line_collision_witness :
  hashCoords (0 + 1) (0 - 31) 42 = hashCoords 0 0 42.
Proof.
  apply (hashCoords_line_collision 0 0 42); vm_compute; discriminate.
Defined.

(** ** The seeded random source *)

Lemma even_mod_odd n : Z.even n = true -> n mod 2 ^ 31 <> 2 ^ 31 - 1.
Proof.
  intros He Hm. apply Z.even_spec in He as [m ->].
  pose proof (Z.div_mod (2 * m) (2 ^ 31)). lia.
Qed.

Lemma lcg_next_range seed : 0 <= lcg_next seed < 2 ^ 31.
Proof. unfold lcg_next. rewrite band_mask31. apply Z.mod_pos_bound. lia. Qed.

Lemma lcg_next_rounded seed :
  lcg_next seed = JS.fl (JS.fl (seed * 1103515245) + 12345) mod 2 ^ 31.
Proof. unfold lcg_next, JS.add, JS.mul. apply band_mask31. Qed.

(** As long as [seed * 1103515245 + 12345] stays within [2^53] (for a seed
    that is not negative: up to 8162278) nothing is rounded. *)
Lemma lcg_next_exact seed :
  0 <= seed -> seed * 1103515245 + 12345 <= 2 ^ 53 ->
  lcg_next seed = spec_recurrence seed.
Proof.
  intros H0 Hb. rewrite lcg_next_rounded. unfold spec_recurrence.
  rewrite (fl_exact (seed * 1103515245)) by lia.
  rewrite fl_exact by lia. reflexivity.
Qed.

(** The state never becomes [2^31 - 1], the one value whose quotient by
    [2^31 - 1] is 1: an odd state needs an exact sum, and the one 31-bit seed
    that the exact recurrence sends to [2^31 - 1] is 230538014, whose product
    is beyond [2^53]. *)
Lemma lcg_next_not_max seed :
  0 <= seed < 2 ^ 31 -> lcg_next seed <> 2 ^ 31 - 1.
Proof.
  intros Hs. rewrite lcg_next_rounded.
  destruct (Z_lt_le_dec (seed * 1103515245) (2 ^ 53)) as [Hp|Hp].
  - rewrite (fl_exact (seed * 1103515245)) by lia.
    destruct (Z_lt_le_dec (seed * 1103515245 + 12345) (2 ^ 53)) as [Hq|Hq].
    + rewrite fl_exact by lia. intros Hm.
      pose proof (Z.div_mod (seed * 1103515245 + 12345) (2 ^ 31)) as Hd.
      rewrite Hm in Hd.
      set (q := (seed * 1103515245 + 12345) / 2 ^ 31) in *.
      (* 1857678181 * 1103515245 = 1 + 954594553 * 2^31 *)
      assert (seed = 230538014
                     + 2 ^ 31 * (1857678181 * q - 954594553 * seed + 1857667501)) by lia.
      lia.
    + apply even_mod_odd, fl_large_even. lia.
  - apply even_mod_odd, fl_large_even.
    pose proof (fl_large_pos _ Hp). lia.
Qed.

Lemma state_after_range n seed :
  0 <= seed < 2 ^ 31 -> 0 <= state_after n seed < 2 ^ 31.
Proof.
  revert seed. induction n as [|n IH]; intros seed Hs; cbn; [exact Hs|].
  apply IH, lcg_next_range.
Qed.

Lemma draw_range s :
  (0 <= s < 2 ^ 31 - 1)%Z ->
  (0 <= inject_Z s / inject_Z 0x7fffffff /\ inject_Z s / inject_Z 0x7fffffff < 1)%Q.
Proof.
  intros Hs. unfold Qdiv, Qmult, Qle, Qlt. simpl. lia.
Qed.

(** [n] calls return the draws numbered [0 .. n-1] and leave the state
    [state_after n]. *)
Lemma repeatM_next n seed :
  repeatM n next (seededRandom seed)
  = ((fun i => nth_draw i seed) <$> seq 0 n, state_after n seed).
Proof.
  unfold seededRandom. revert seed. induction n as [|n IH]; intros seed; [reflexivity|].
  simpl. unfold bind at 1. unfold next at 1.
  unfold bind at 1. rewrite IH. unfold ret. simpl. f_equal.
  rewrite <- fmap_S_seq, <- list_fmap_compose. reflexivity.
Qed.

Example lcg_next_exact_bound :
  8162278 * 1103515245 + 12345 <= 2 ^ 53 < 8162279 * 1103515245 + 12345.
Proof. lia. Qed.

(** C4, as stated, fails: for the 31-bit seed 230538014 the recurrence on
    integers gives [2^31 - 1] and the program gives 0.  The product
    254402213001023430 lies between [2^57] and [2^58], where the binary64
    numbers are the multiples of 32: it is rounded to 254402213001023424; the
    sum 254402213001035769 is rounded to 254402213001035776, a multiple of
    [2^31] (see also [lcg_next_binary64_230538014]). *)
Lemma lcg_next_not_spec_recurrence :
  0 <= 230538014 < 2 ^ 31
  /\ spec_recurrence 230538014 = 2 ^ 31 - 1
  /\ lcg_next 230538014 = 0
  /\ (next (seededRandom 230538014)).2 <> spec_recurrence 230538014.
Proof. vm_compute. repeat split; discriminate. Qed.

(** The two halves of the sentence of section 4.2 exclude each other at that
    seed: with the recurrence on integers the value returned would be 1. *)
Example spec_recurrence_returns_one :
  (inject_Z (spec_recurrence 230538014) / inject_Z (2 ^ 31 - 1) == 1)%Q.
Proof. vm_compute. reflexivity. Qed.

Example lcg_next_230538014_trace :
  230538014 * 1103515245 = 254402213001023430
  /\ JS.mul 230538014 1103515245 = 254402213001023424
  /\ JS.add 254402213001023424 12345 = 254402213001035776
  /\ 254402213001035776 = 118465262 * 2 ^ 31.
Proof. vm_compute. repeat split; reflexivity. Qed.

(** C4 (amended).  For a 31-bit construction seed, call number [n] of
    [next()] finds a 31-bit state [s], stores
    [fl (fl (s * 1103515245) + 12345) mod 2^31], with [fl] the rounding to
    binary64, which is [(s * 1103515245 + 12345) mod 2^31] when that sum does
    not exceed [2^53], and returns the new state divided by [2^31 - 1], a value
    in [[0, 1)]; the values returned by the first [n] calls are a function of
    the construction seed and of [n]. *)
Theorem seededRandom_next_spec (seed : Z) (n : nat) :
  0 <= seed < 2 ^ 31 ->
  let s := state_after n (seededRandom seed) in
  0 <= s < 2 ^ 31
  /\ (next s).2 = JS.fl (JS.fl (s * 1103515245) + 12345) mod 2 ^ 31
  /\ (s * 1103515245 + 12345 <= 2 ^ 53 -> (next s).2 = spec_recurrence s)
  /\ (next s).1 = (inject_Z (next s).2 / inject_Z (2 ^ 31 - 1))%Q
  /\ (0 <= (next s).1 /\ (next s).1 < 1)%Q
  /\ repeatM n next (seededRandom seed) = ((fun i => nth_draw i seed) <$> seq 0 n, s).
Proof.
  intros Hseed s.
  assert (Hs : 0 <= s < 2 ^ 31) by (apply state_after_range; exact Hseed).
  split_and!.
  - apply Hs.
  - apply Hs.
  - apply lcg_next_rounded.
  - intros Hb. apply lcg_next_exact; lia.
  - reflexivity.
  - apply draw_range. pose proof (lcg_next_range s). pose proof (lcg_next_not_max s Hs). lia.
  - apply draw_range. pose proof (lcg_next_range s). pose proof (lcg_next_not_max s Hs). lia.
  - apply repeatM_next.
Qed.

Lemma seededRandom_next_spec_witness :
  (0 <= nth_draw 3 42 /\ nth_draw 3 42 < 1)%Q.
Proof.
  assert (H : 0 <= 42 < 2 ^ 31) by lia.
  exact (proj1 (proj2 (proj2 (proj2 (proj2 (seededRandom_next_spec 42 3 H)))))).
Defined.

(** ** The wall threshold *)

Local Open Scope Q_scope.

Lemma Math_sqrt_mono (p q : Q) : p <= q -> Math_sqrt p <= Math_sqrt q.
Proof.
  intros Hpq. unfold Math_sqrt. unfold Qle at 1. cbn [Qnum Qden].
  apply Z.mul_le_mono_nonneg_r; [lia|].
  apply Z.sqrt_le_mono, Qfloor_resp_le.
  apply Qmult_le_compat_r; [exact Hpq|]. unfold Qle. simpl. lia.
Qed.

Lemma Math_sqrt_nonneg (q : Q) : 0 <= Math_sqrt q.
Proof.
  unfold Math_sqrt, Qle. cbn [Qnum Qden].
  pose proof (Z.sqrt_nonneg (Qfloor (q * inject_Z (2 ^ 128)))). lia.
Qed.

Lemma depth_unfold (wx wz : Q) :
  depth wx wz == Math_sqrt (wx * wx + wz * wz) * (1 # 100).
Proof. reflexivity. Qed.

Lemma depth_nonneg (wx wz : Q) : 0 <= depth wx wz.
Proof.
  rewrite depth_unfold. pose proof (Math_sqrt_nonneg (wx * wx + wz * wz)). lra.
Qed.

Lemma wallThreshold_depth_antitone (wx1 wz1 wx2 wz2 : Q) :
  depth wx1 wz1 <= depth wx2 wz2 ->
  wallThreshold wx2 wz2 <= wallThreshold wx1 wz1.
Proof.
  intros Hd. unfold wallThreshold, Math_min.
  assert (Hm : Qmin (depth wx1 wz1 * 0.02) 0.15 <= Qmin (depth wx2 wz2 * 0.02) 0.15).
  { apply Q.min_le_compat_r. lra. }
  lra.
Qed.

Lemma wallThreshold_floor (wx wz : Q) : - 0.05 <= wallThreshold wx wz.
Proof.
  unfold wallThreshold, Math_min.
  pose proof (Q.le_min_r (depth wx wz * 0.02) 0.15). lra.
Qed.

Lemma wallThreshold_ceiling (wx wz : Q) : wallThreshold wx wz <= 0.1.
Proof.
  unfold wallThreshold, Math_min.
  assert (0 <= Qmin (depth wx wz * 0.02) 0.15).
  { apply Q.min_glb; [|lra]. pose proof (depth_nonneg wx wz). lra. }
  lra.
Qed.

(** The same in terms of the squared distances, which are exact. *)
Lemma wallThreshold_antitone_squares (wx1 wz1 wx2 wz2 : Q) :
  wx1 * wx1 + wz1 * wz1 <= wx2 * wx2 + wz2 * wz2 ->
  wallThreshold wx2 wz2 <= wallThreshold wx1 wz1.
Proof.
  intros H. apply wallThreshold_depth_antitone. rewrite !depth_unfold.
  apply Math_sqrt_mono in H. lra.
Qed.

(** C7.  The threshold does not increase with the distance from the origin
    that the generator computes (the square root at line 231), and it is never
    below -0.05. *)
Theorem wallThreshold_monotone (wx1 wz1 wx2 wz2 : Q) :
  Math_sqrt (wx1 * wx1 + wz1 * wz1) <= Math_sqrt (wx2 * wx2 + wz2 * wz2) ->
  wallThreshold wx2 wz2 <= wallThreshold wx1 wz1
  /\ - 0.05 <= wallThreshold wx1 wz1
  /\ - 0.05 <= wallThreshold wx2 wz2.
Proof.
  intros H. split_and!.
  - apply wallThreshold_depth_antitone. rewrite !depth_unfold. lra.
  - apply wallThreshold_floor.
  - apply wallThreshold_floor.
Qed.

Lemma wallThreshold_monotone_witness :
  wallThreshold (worldX {| x := 3; z := 4 |} DEFAULT_CONFIG)
                (worldZ {| x := 3; z := 4 |} DEFAULT_CONFIG)
  <= wallThreshold (worldX {| x := 1; z := 0 |} DEFAULT_CONFIG)
                   (worldZ {| x := 1; z := 0 |} DEFAULT_CONFIG).
Proof.
  apply (wallThreshold_monotone
           (worldX {| x := 1; z := 0 |} DEFAULT_CONFIG) (worldZ {| x := 1; z := 0 |} DEFAULT_CONFIG)
           (worldX {| x := 3; z := 4 |} DEFAULT_CONFIG) (worldZ {| x := 3; z := 4 |} DEFAULT_CONFIG)).
  vm_compute. discriminate.
Defined.

Example wallThreshold_values :
  wallThreshold 0 0 == 0.1
  /\ wallThreshold 32 0 == 0.0936
  /\ wallThreshold 96 128 == 0.068
  /\ wallThreshold 24000 0 == - 0.05
  /\ wallThreshold 60000 80000 == - 0.05.
Proof. vm_compute. repeat split; reflexivity. Qed.

(** The same lines evaluated in binary64 on a range of distances: the
    thresholds do not increase and stay at or above the binary64 nearest to
    -0.05 (the clamp [0.1 - 0.15] evaluates to -0.04999999999999999). *)
Example wallThreshold_binary64_samples :
  Binary64Check.descending (-0x1.999999999999ap-5)%float
    (List.map (fun d => Binary64Check.wallThreshold_float d 0)
       [0; 1; 32; 100; 749; 7499; 7500; 7501; 1000000; 0x1p+600; 0x1p+1000]%float)
  = true.
Proof. vm_compute. reflexivity. Qed.

(** ** The cell sweep *)

Lemma occasionalPillar_pillars (config : WorldConfig) (gx gz : Z) (random : Z) o :
  o ∈ (occasionalPillar config gx gz random).1 -> exists rx rz, o = pillar config gx gz rx rz.
Proof.
  unfold occasionalPillar, bind, ret. destruct (next random) as [r s1].
  destruct (Qgtb r 0.92).
  - destruct (next s1) as [rx s2]. destruct (next s2) as [rz s3]. cbn.
    intros ->%list_elem_of_singleton. eauto.
  - cbn. inversion 1.
Qed.

Lemma wall_not_pillar config gx gz len turned rx rz :
  wall config gx gz len turned <> pillar config gx gz rx rz.
Proof. unfold wall, pillar. discriminate. Qed.

(** C3, as stated, fails: in chunk (1, 0) of the default world the cell
    (0, 0) lies 32 units from the origin, which gives -0.05 by the formula of
    the claim, while the generator uses 0.0936; and the cells (0, 0) and (3, 3),
    which the claim gives different thresholds, are treated alike: with a
    layout signal of 0 neither receives a wall, though 0 exceeds -0.05. *)
Lemma wallThreshold_not_per_cell :
  let coord := {| x := 1; z := 0 |} in
  let config := DEFAULT_CONFIG in
  let used := wallThreshold (worldX coord config) (worldZ coord config) in
  ~ used == spec_wallThreshold coord config 0 0
  /\ used == 0.0936
  /\ spec_wallThreshold coord config 0 0 == - 0.05
  /\ spec_wallThreshold coord config 0 0 < noiseVal (fun _ _ => 0) coord config 0 0
  /\ ~ (exists o, o ∈ (cell (fun _ _ => 0) coord config (0, 0)%Z 0%Z).1
                  /\ is_wall_of config 0 0 o).
Proof.
  cbv zeta. split_and!; try (vm_compute; first [reflexivity | discriminate]).
  intros (o & Hin & (len & turned & ->)).
  change (cell (fun _ _ => 0) {| x := 1; z := 0 |} DEFAULT_CONFIG (0, 0)%Z 0%Z)
    with (bind (ret []) (fun walls : list Object3D =>
            let* pillars := occasionalPillar DEFAULT_CONFIG 0 0 in
            ret (walls ++ pillars)) 0%Z) in Hin.
  unfold bind at 1, ret at 1 in Hin. unfold bind, ret in Hin.
  destruct (occasionalPillar DEFAULT_CONFIG 0 0 0%Z) as [pillars s1] eqn:Hp. cbn in Hin.
  assert (Hin' : wall DEFAULT_CONFIG 0 0 len turned ∈ (occasionalPillar DEFAULT_CONFIG 0 0 0%Z).1)
    by (rewrite Hp; exact Hin).
  apply occasionalPillar_pillars in Hin' as (rx & rz & Heq).
  exact (wall_not_pillar _ _ _ _ _ _ _ Heq).
Qed.

(** C3 (amended).  Every cell of a chunk is tested against the same
    threshold, [0.1 - min(depth * 0.02, 0.15)] with [depth] one hundredth of
    the distance of the chunk's own origin [(worldX, worldZ)] from the world
    origin: the cell receives a wall segment exactly when its layout signal
    exceeds that threshold. *)
Theorem cell_wall_iff_chunk_threshold (noise2D : Q -> Q -> Q) (coord : ChunkCoord)
    (config : WorldConfig) (gx gz : Z) (random : Z) :
  let threshold :=
    0.1 - Math_min (Math_sqrt (worldX coord config * worldX coord config
                               + worldZ coord config * worldZ coord config) / 100 * 0.02) 0.15 in
  (exists o, o ∈ (cell noise2D coord config (gx, gz) random).1 /\ is_wall_of config gx gz o)
  <-> threshold < noiseVal noise2D coord config gx gz.
Proof.
  cbv zeta. unfold cell. fold (depth (worldX coord config) (worldZ coord config)).
  fold (wallThreshold (worldX coord config) (worldZ coord config)).
  set (T := wallThreshold _ _). set (v := noiseVal _ _ _ _ _).
  unfold Qgtb at 1. destruct (Qle_bool v T) eqn:Hle; cbn [negb].
  - apply Qle_bool_iff in Hle. split; [|intros H; exfalso; apply (Qlt_not_le _ _ H Hle)].
    intros (o & Hin & (len & turned & ->)). exfalso.
    unfold wallSegment, bind at 1, ret at 1 in Hin. unfold bind, ret in Hin.
    destruct (occasionalPillar config gx gz random) as [pillars s1] eqn:Hp. cbn in Hin.
    assert (Hin' : wall config gx gz len turned ∈ (occasionalPillar config gx gz random).1)
      by (rewrite Hp; exact Hin).
    apply occasionalPillar_pillars in Hin' as (rx & rz & Heq).
    exact (wall_not_pillar _ _ _ _ _ _ _ Heq).
  - split; [intros _|].
    + apply Qnot_le_lt. intros H. apply Qle_bool_iff in H. congruence.
    + intros _. unfold wallSegment, bind, ret.
      destruct (next random) as [r s1]. destruct (next s1) as [r' s2].
      destruct (occasionalPillar config gx gz s2) as [pillars s3]. cbn.
      eexists. split; [apply elem_of_cons; left; reflexivity|].
      eexists _, _. reflexivity.
Qed.

(** ** Chunk generation does not depend on the shared state *)

(** The constructor does change the shared state: the first chunk of a
    process paints the textures from [Math.random] and fills the static
    fields, and every chunk takes a fresh object identity. *)
Example new_Chunk_changes_statics :
  let r := new_Chunk Sample.Math_random Sample.createNoise2D {| x := 0; z := 0 |}
                     DEFAULT_CONFIG Sample.statics in
  let r' := new_Chunk Sample.Math_random Sample.createNoise2D {| x := 0; z := 0 |}
                      DEFAULT_CONFIG r.2 in
  wallMaterial Sample.statics = None
  /\ is_Some (wallMaterial r.2)
  /\ THREE.id (mesh r.1) = 0%nat /\ THREE.id (mesh r'.1) = 1%nat
  /\ length (THREE.children (mesh r.1)) = 34%nat.
Proof. cbv zeta. split_and!; try (vm_compute; reflexivity). vm_compute. eauto. Qed.

(** C1.  For every coordinate and configuration, the position of the group and
    the sequence of its children (hence their number, order and every numeric
    field) are the same whatever the shared state is when the chunk is
    built: the static materials, the state of [Math.random], the object
    counter, or the process in which the call is made; in particular for two
    calls in a row in one process.  Only [createNoise2D] is taken as the same
    function on both sides. *)
Theorem chunk_geometry_deterministic {E1 E2 : Type}
    (rnd1 : State E1 Q) (rnd2 : State E2 Q)
    (createNoise2D : State Z Q -> State Z (Q -> Q -> Q))
    (coord : ChunkCoord) (config : WorldConfig) (st1 : Statics E1) (st2 : Statics E2) :
  let first := new_Chunk rnd1 createNoise2D coord config st1 in
  let again := new_Chunk rnd1 createNoise2D coord config first.2 in
  let other := new_Chunk rnd2 createNoise2D coord config st2 in
  geometry_of first.1 = geometry_of again.1
  /\ geometry_of first.1 = geometry_of other.1
  /\ length (THREE.children (mesh first.1)) = length (THREE.children (mesh other.1))
  /\ geometry_of first.1 = generate createNoise2D coord config.
Proof.
  cbv zeta. unfold new_Chunk, geometry_of.
  destruct (generate createNoise2D coord config) as [position children]. cbn. done.
Qed.

(** ** Chunk keys *)

Section Keys.

Lemma pretty_N_char_no_comma n : pretty_N_char n <> ","%char.
Proof. unfold pretty_N_char. repeat case_match; discriminate. Qed.

Lemma pretty_N_go_comma_free n s : comma_free s -> comma_free (pretty_N_go n s).
Proof.
  revert s. induction (N.lt_wf_0 n) as [n _ IH]; intros s Hs.
  destruct (decide (n = 0%N)) as [->|Hn].
  - rewrite pretty_N_go_0. exact Hs.
  - rewrite pretty_N_go_step by lia. apply IH.
    + apply N.div_lt; lia.
    + split; [apply pretty_N_char_no_comma|exact Hs].
Qed.

Lemma pretty_N_comma_free (n : N) : comma_free (pretty n).
Proof.
  unfold pretty, pretty_N. case_decide.
  - simpl. split; [discriminate|exact I].
  - apply pretty_N_go_comma_free. exact I.
Qed.

Lemma pretty_Z_comma_free (n : Z) : comma_free (pretty n).
Proof.
  unfold pretty, pretty_Z. destruct n as [|p|p].
  - simpl. split; [discriminate|exact I].
  - apply pretty_N_comma_free.
  - simpl. split; [discriminate|]. apply pretty_N_comma_free.
Qed.

(** A key splits at its first comma in one way only. *)
Lemma comma_split (a b r r' : string) :
  comma_free a -> comma_free b ->
  a +:+ "," +:+ r = b +:+ "," +:+ r' -> a = b /\ r = r'.
Proof.
  revert b. induction a as [|c a IH]; intros [|d b] Ha Hb Heq; cbn in *.
  - injection Heq as Heq. done.
  - injection Heq as Hc _. destruct Hb as [Hd _]. congruence.
  - injection Heq as Hc _. destruct Ha as [Hd _]. congruence.
  - injection Heq as -> Heq. destruct Ha as [_ Ha], Hb as [_ Hb].
    destruct (IH b Ha Hb Heq) as [-> ->]. done.
Qed.

(** Two coordinates with the same key are the same coordinate. *)
Lemma chunkKey_inj (c c' : ChunkCoord) : World.chunkKey c = World.chunkKey c' -> c = c'.
Proof.
  destruct c as [cx cz], c' as [cx' cz']. unfold World.chunkKey. simpl. intros Heq.
  apply comma_split in Heq as [Hx Hz]; try apply pretty_Z_comma_free.
  apply (inj pretty) in Hx. apply (inj pretty) in Hz. congruence.
Qed.

Lemma elem_of_offsets (vd dx dz : Z) :
  (dx, dz) ∈ World.offsets vd <-> (- vd <= dx <= vd /\ - vd <= dz <= vd)%Z.
Proof.
  unfold World.offsets. rewrite list_elem_of_bind. split.
  - intros (a & Hin & Ha). apply list_elem_of_bind in Hin as (b & Hin & Hb).
    apply list_elem_of_singleton in Hin. injection Hin as -> ->.
    apply elem_of_seqZ in Ha, Hb. lia.
  - intros [Hx Hz]. exists dx. split; [|apply elem_of_seqZ; lia].
    apply list_elem_of_bind. exists dz. split; [apply list_elem_of_singleton; done|].
    apply elem_of_seqZ. lia.
Qed.

Lemma elem_of_windowCoords (center : ChunkCoord) (vd : Z) (c : ChunkCoord) :
  c ∈ windowCoords center vd <-> inWindow center vd c.
Proof.
  unfold windowCoords, inWindow. rewrite list_elem_of_fmap. split.
  - intros ([dx dz] & -> & Hd). apply elem_of_offsets in Hd. cbn. lia.
  - intros [Hx Hz]. exists ((x c - x center)%Z, (z c - z center)%Z). split.
    + destruct c as [cx cz]. cbn. f_equal; lia.
    + apply elem_of_offsets. lia.
Qed.

(** The keys of the window are the keys of the coordinates of the square. *)
Lemma elem_of_activeWindow (center : ChunkCoord) (vd : Z) (c : ChunkCoord) :
  World.chunkKey c ∈ activeWindow center vd <-> inWindow center vd c.
Proof.
  unfold activeWindow. rewrite elem_of_list_to_set, list_elem_of_fmap.
  rewrite <- elem_of_windowCoords. split.
  - intros (c' & Hk & Hc'). apply chunkKey_inj in Hk. congruence.
  - intros Hc. eauto.
Qed.

(** Within the range of exact integers the loops build the square. *)
Lemma visited_exact (cur : ChunkCoord) (vd : Z) :
  (Z.abs (x cur) + vd <= 2 ^ 53)%Z -> (Z.abs (z cur) + vd <= 2 ^ 53)%Z ->
  visited cur vd = windowCoords cur vd.
Proof.
  intros Hx Hz. unfold visited, windowCoords. apply Forall_fmap_ext, Forall_forall.
  intros [dx dz] Hd. apply elem_of_offsets in Hd. unfold World.neighbour, JS.add. cbn.
  rewrite !fl_exact by lia. reflexivity.
Qed.

(** A coordinate of the square that a [number] can hold is built. *)
Lemma visited_representable (cur : ChunkCoord) (vd : Z) (c : ChunkCoord) :
  JS.representable (x c) -> JS.representable (z c) ->
  inWindow cur vd c -> c ∈ visited cur vd.
Proof.
  intros Rx Rz [Hx Hz]. unfold visited. apply list_elem_of_fmap.
  exists ((x c - x cur)%Z, (z c - z cur)%Z). split.
  - unfold World.neighbour, JS.add. cbn.
    replace (x cur + (x c - x cur))%Z with (x c) by lia.
    replace (z cur + (z c - z cur))%Z with (z c) by lia.
    rewrite Rx, Rz. by destruct c.
  - apply elem_of_offsets. lia.
Qed.

Local Open Scope Z_scope.

Lemma offsets_NoDup (vd : Z) : NoDup (World.offsets vd).
Proof.
  unfold World.offsets. apply NoDup_bind.
  - intros dx1 dx2 [a b] _ _ H1 H2.
    apply list_elem_of_bind in H1 as (b1 & H1 & _), H2 as (b2 & H2 & _).
    apply list_elem_of_singleton in H1, H2. congruence.
  - intros dx _. apply NoDup_bind.
    + intros dz1 dz2 [a b] _ _ H1 H2.
      apply list_elem_of_singleton in H1, H2. congruence.
    + intros dz _. apply NoDup_singleton.
    + apply NoDup_seqZ.
  - apply NoDup_seqZ.
Qed.

Lemma length_bind_const {A B : Type} (f : A -> list B) (n : nat) (l : list A) :
  (forall a, length (f a) = n) -> length (l ≫= f) = (length l * n)%nat.
Proof.
  intros Hf. induction l as [|a l IH]; [reflexivity|].
  rewrite bind_cons, length_app, IH, Hf. cbn. lia.
Qed.

Lemma length_offsets (vd : Z) :
  0 <= vd -> length (World.offsets vd) = Z.to_nat ((2 * vd + 1) * (2 * vd + 1)).
Proof.
  intros Hvd. unfold World.offsets.
  rewrite (length_bind_const _ (Z.to_nat (2 * vd + 1))).
  - rewrite length_seqZ. lia.
  - intros dx. rewrite (length_bind_const _ 1%nat); [|reflexivity].
    rewrite length_seqZ. lia.
Qed.

Lemma windowCoords_NoDup (center : ChunkCoord) (vd : Z) : NoDup (windowCoords center vd).
Proof.
  unfold windowCoords. apply NoDup_fmap_2_strong; [|apply offsets_NoDup].
  intros [a b] [a' b'] _ _ Heq. cbn in Heq. injection Heq as H1 H2. f_equal; lia.
Qed.

(** The window has [(2 * viewDistance + 1)^2] keys. *)
Lemma size_activeWindow (center : ChunkCoord) (vd : Z) :
  0 <= vd -> size (activeWindow center vd) = Z.to_nat ((2 * vd + 1) * (2 * vd + 1)).
Proof.
  intros Hvd. unfold activeWindow. rewrite size_list_to_set.
  - unfold windowCoords. rewrite !length_fmap. by apply length_offsets.
  - apply NoDup_fmap_2_strong; [|apply windowCoords_NoDup].
    intros c c' _ _. apply chunkKey_inj.
Qed.

Lemma last_cons_default {A : Type} (l : list A) (a d d' : A) :
  List.last (a :: l) d = List.last (a :: l) d'.
Proof. revert a. induction l as [|b l IH]; intros a; [reflexivity|]. exact (IH b). Qed.

End Keys.

(** ** The loops of [update] *)

Section WorldFacts.

Context {Entropy : Type}.
Variable Math_random : State Entropy Q.
Variable createNoise2D : State Z Q -> State Z (Q -> Q -> Q).

Local Abbreviation require := (World.require Math_random createNoise2D).
Local Abbreviation update := (World.update Math_random createNoise2D).
Local Abbreviation forceUpdate := (World.forceUpdate Math_random createNoise2D).
Local Abbreviation Loop := (@World.Loop Entropy).
Local Abbreviation chunks_of l := (World.chunks (World.world l)).

(** One execution of the body of the loading loops. *)
Lemma require_step (cur : ChunkCoord) (l : Loop) (d : Z * Z) :
  let l' := require cur l d in
  let key := World.chunkKey (World.neighbour cur d) in
  World.neededChunks l' = {[ key ]} ∪ World.neededChunks l
  /\ dom (chunks_of l') = {[ key ]} ∪ dom (chunks_of l)
  /\ (forall k, is_Some (chunks_of l !! k) -> chunks_of l' !! k = chunks_of l !! k)
  /\ World.config (World.world l') = World.config (World.world l)
  /\ World.lastPlayerChunk (World.world l') = World.lastPlayerChunk (World.world l)
  /\ (World.events l' = World.events l /\ is_Some (chunks_of l !! key)
      \/ World.events l' = World.events l ++ [Generated (World.neighbour cur d)]
         /\ chunks_of l !! key = None).
Proof.
  unfold World.require. cbv zeta.
  destruct (chunks_of l !! World.chunkKey (World.neighbour cur d)) as [c|] eqn:Hk; cbn.
  - split_and!; auto.
    apply set_eq. intros k. rewrite elem_of_union, elem_of_singleton, !elem_of_dom.
    split; [tauto|]. intros [->|H]; [rewrite Hk; eauto|done].
  - unfold World.loadChunk. destruct (new_Chunk _ _ _ _ _) as [chunk st]. cbn.
    split_and!; auto.
    + apply dom_insert_L.
    + intros k [c Hc]. rewrite lookup_insert_ne; [done|]. congruence.
Qed.

(** The loading loops: every key built is needed and resident afterwards, what
    was resident stays as it was, and a chunk is generated only for a key that
    was not resident. *)
Lemma require_fold (cur : ChunkCoord) (ds : list (Z * Z)) (l : Loop) :
  let l' := fold_left (require cur) ds l in
  let keys : gset string := list_to_set (World.chunkKey <$> (World.neighbour cur <$> ds)) in
  World.neededChunks l' = keys ∪ World.neededChunks l
  /\ dom (chunks_of l') = keys ∪ dom (chunks_of l)
  /\ (forall k, is_Some (chunks_of l !! k) -> chunks_of l' !! k = chunks_of l !! k)
  /\ World.config (World.world l') = World.config (World.world l)
  /\ World.lastPlayerChunk (World.world l') = World.lastPlayerChunk (World.world l)
  /\ exists cs, World.events l' = World.events l ++ (Generated <$> cs)
       /\ forall c, c ∈ cs -> chunks_of l !! World.chunkKey c = None.
Proof.
  revert l. induction ds as [|d ds IH]; intros l; cbn.
  - split_and!; try done.
    + apply set_eq. intros k. rewrite elem_of_union, elem_of_empty. tauto.
    + apply set_eq. intros k. rewrite elem_of_union, elem_of_empty. tauto.
    + exists []. split; [by rewrite app_nil_r|]. intros c Hc. inversion Hc.
  - destruct (require_step cur l d) as (N1 & D1 & P1 & C1 & L1 & E1).
    destruct (IH (require cur l d)) as (N2 & D2 & P2 & C2 & L2 & cs & E2 & F2).
    cbv zeta in *. split_and!.
    + rewrite N2, N1. apply set_eq. intros k.
      rewrite !elem_of_union, elem_of_singleton. tauto.
    + rewrite D2, D1. apply set_eq. intros k.
      rewrite !elem_of_union, elem_of_singleton. tauto.
    + intros k Hk. rewrite P2; [by apply P1|]. rewrite P1; done.
    + congruence.
    + congruence.
    + destruct E1 as [[E1 R1]|[E1 R1]].
      * exists cs. split; [by rewrite E2, E1|].
        intros c Hc. specialize (F2 c Hc).
        destruct (chunks_of l !! World.chunkKey c) eqn:Hl; [|done].
        rewrite P1 in F2 by eauto. congruence.
      * exists (World.neighbour cur d :: cs). split; [by rewrite E2, E1, <- app_assoc|].
        intros c Hc. apply elem_of_cons in Hc as [->|Hc]; [done|].
        specialize (F2 c Hc).
        destruct (chunks_of l !! World.chunkKey c) eqn:Hl; [|done].
        rewrite P1 in F2 by eauto. congruence.
Qed.

(** The unloading loop over a list of entries: the entries whose key is not
    needed leave the store, nothing else changes, nothing is generated. *)
Lemma sweep_fold (entries : list (string * Chunk)) (l : Loop) :
  let l' := fold_left World.sweep entries l in
  World.neededChunks l' = World.neededChunks l
  /\ World.statics l' = World.statics l
  /\ World.config (World.world l') = World.config (World.world l)
  /\ World.lastPlayerChunk (World.world l') = World.lastPlayerChunk (World.world l)
  /\ (forall k, chunks_of l' !! k =
        if decide (k ∈ entries.*1 /\ k ∉ World.neededChunks l) then None
        else chunks_of l !! k)
  /\ exists evs, World.events l' = World.events l ++ evs /\ Forall unload_event evs.
Proof.
  revert l. induction entries as [|[key chunk] entries IH]; intros l; cbn.
  - split_and!; try reflexivity.
    exists []. split; [by rewrite app_nil_r|constructor].
  - remember (World.sweep l (key, chunk)) as l1 eqn:Hl1.
    destruct (IH l1) as (N & S & C & L & K & evs & E & F).
    cbv zeta in *. unfold World.sweep in Hl1.
    destruct (decide (key ∈ World.neededChunks l)) as [Hin|Hout]; subst l1; cbn in *.
    + split_and!; try assumption.
      * intros k. rewrite K. apply decide_ext. rewrite elem_of_cons.
        split; [tauto|]. intros [[->|Hk] Hn]; tauto.
      * eauto.
    + split_and!; try assumption.
      * intros k. rewrite K. destruct (decide (k = key)) as [->|Hne].
        -- rewrite (decide_True (P := key ∈ key :: entries.*1 /\ _)).
           ++ case_decide; [done|apply lookup_delete_eq].
           ++ split; [apply elem_of_cons; by left|done].
        -- rewrite lookup_delete_ne by done. apply decide_ext. rewrite elem_of_cons. tauto.
      * exists ([Disposed (THREE.id (mesh chunk)); Unloaded key] ++ evs).
        split; [by rewrite E, <- app_assoc|]. repeat constructor. exact F.
Qed.

(** [update] when the chunk of the observer is not the recorded one. *)
Lemma update_moved (pos : Vector3) (w : World.World) (st : Statics Entropy) :
  let cur := World.worldToChunk w pos in
  let keys : gset string :=
    list_to_set (World.chunkKey <$> visited cur (viewDistance (World.config w))) in
  World.sameChunk cur (World.lastPlayerChunk w) = false ->
  let r := update pos w st in
  dom (World.chunks r.1.2) = keys
  /\ World.lastPlayerChunk r.1.2 = Some cur
  /\ World.config r.1.2 = World.config w
  /\ (forall k, k ∈ keys -> is_Some (World.chunks w !! k) ->
        World.chunks r.1.2 !! k = World.chunks w !! k)
  /\ (forall c, Generated c ∈ r.1.1 -> World.chunks w !! World.chunkKey c = None).
Proof.
  intros cur keys Hmoved. unfold World.update. fold cur. rewrite Hmoved. cbn [World.config].
  set (w1 := {| World.scene := World.scene w; World.config := World.config w;
                World.chunks := World.chunks w; World.lastPlayerChunk := Some cur |}).
  set (l0 := {| World.events := []; World.neededChunks := ∅; World.world := w1;
                World.statics := st |}).
  destruct (require_fold cur (World.offsets (viewDistance (World.config w))) l0)
    as (N1 & D1 & P1 & C1 & L1 & cs & E1 & F1).
  set (l1 := fold_left (require cur) (World.offsets (viewDistance (World.config w))) l0) in *.
  destruct (sweep_fold (map_to_list (chunks_of l1)) l1)
    as (N2 & S2 & C2 & L2 & K2 & evs & E2 & F2).
  set (l2 := fold_left World.sweep (map_to_list (chunks_of l1)) l1) in *.
  cbv zeta in *. cbn [fst snd]. fold (visited cur (viewDistance (World.config w))) in N1, D1.
  fold keys in N1, D1.
  cbn [World.neededChunks World.world World.events l0 World.chunks w1 World.config
       World.lastPlayerChunk] in N1, D1, P1, C1, L1, E1, F1.
  assert (Hneeded : World.neededChunks l1 = keys).
  { rewrite N1. apply set_eq. intros k. rewrite elem_of_union, elem_of_empty. tauto. }
  assert (Hlookup : forall k, chunks_of l2 !! k =
                      if decide (k ∈ keys) then chunks_of l1 !! k else None).
  { intros k. rewrite K2, Hneeded. destruct (decide (k ∈ keys)) as [Hk|Hk].
    - rewrite decide_False by tauto. done.
    - destruct (chunks_of l1 !! k) as [c|] eqn:Hc; [|by case_decide].
      rewrite decide_True; [done|]. split; [|done].
      apply list_elem_of_fmap. exists (k, c). split; [done|]. by apply elem_of_map_to_list. }
  split_and!.
  - apply set_eq. intros k. rewrite elem_of_dom, Hlookup. case_decide as Hk.
    + split; [done|]. intros _. apply elem_of_dom. rewrite D1.
      apply elem_of_union. by left.
    + split; [intros [? ?]; done|done].
  - congruence.
  - congruence.
  - intros k Hk Hres. rewrite Hlookup. rewrite decide_True by done. by apply P1.
  - intros c Hc. rewrite E2, E1 in Hc. cbn in Hc. apply elem_of_app in Hc as [Hc|Hc].
    + apply list_elem_of_fmap in Hc as (c' & Heq & Hc'). injection Heq as ->. by apply F1.
    + exfalso. rewrite Forall_forall in F2. apply (F2 _ Hc).
Qed.

Lemma sameChunk_true (cur : ChunkCoord) (last : option ChunkCoord) :
  World.sameChunk cur last = true <-> last = Some cur.
Proof.
  unfold World.sameChunk. destruct last as [[lx lz]|]; [|done]. destruct cur as [cx cz]. cbn.
  rewrite andb_true_iff, !Z.eqb_eq. split; [intros [-> ->]; done|intros [= -> ->]; done].
Qed.

End WorldFacts.

(** ** The window manager *)

Section WindowManager.

Context {Entropy : Type}.
Variable Math_random : State Entropy Q.
Variable createNoise2D : State Z Q -> State Z (Q -> Q -> Q).

Local Abbreviation update := (World.update Math_random createNoise2D).
Local Abbreviation forceUpdate := (World.forceUpdate Math_random createNoise2D).

(** The early return of line 46. *)
Lemma update_same (pos : Vector3) (w : World.World) (st : Statics Entropy) :
  World.lastPlayerChunk w = Some (World.worldToChunk w pos) ->
  update pos w st = ([], w, st).
Proof.
  intros Hsame. apply sameChunk_true in Hsame. unfold World.update. rewrite Hsame. reflexivity.
Qed.

(** [update] leaves the configuration alone. *)
Lemma update_config (pos : Vector3) (w : World.World) (st : Statics Entropy) :
  World.config (update pos w st).1.2 = World.config w.
Proof.
  destruct (World.sameChunk (World.worldToChunk w pos) (World.lastPlayerChunk w)) eqn:Hsame.
  - unfold World.update. rewrite Hsame. reflexivity.
  - by destruct (update_moved Math_random createNoise2D pos w st Hsame) as (_ & _ & Hc & _).
Qed.

(** The store after [update], when the chunk changed or the store held the
    window already. *)
Lemma update_window (pos : Vector3) (w : World.World) (st : Statics Entropy) :
  let cur := World.worldToChunk w pos in
  let vd := viewDistance (World.config w) in
  (Z.abs (x cur) + vd <= 2 ^ 53)%Z -> (Z.abs (z cur) + vd <= 2 ^ 53)%Z ->
  World.lastPlayerChunk w <> Some cur \/ dom (World.chunks w) = activeWindow cur vd ->
  dom (World.chunks (update pos w st).1.2) = activeWindow cur vd
  /\ World.lastPlayerChunk (update pos w st).1.2 = Some cur.
Proof.
  intros cur vd Hx Hz Hpre.
  destruct (World.sameChunk cur (World.lastPlayerChunk w)) eqn:Hsame.
  - assert (Hlast : World.lastPlayerChunk w = Some cur) by by apply sameChunk_true.
    rewrite update_same by exact Hlast. cbn.
    destruct Hpre as [Hne|Hdom]; done.
  - destruct (update_moved Math_random createNoise2D pos w st Hsame) as (Hdom & Hlast & _).
    fold cur vd in Hdom. rewrite visited_exact in Hdom by done. done.
Qed.

Lemma forceUpdate_window (pos : Vector3) (w : World.World) (st : Statics Entropy) :
  let cur := World.worldToChunk w pos in
  let vd := viewDistance (World.config w) in
  (Z.abs (x cur) + vd <= 2 ^ 53)%Z -> (Z.abs (z cur) + vd <= 2 ^ 53)%Z ->
  dom (World.chunks (forceUpdate pos w st).1.2) = activeWindow cur vd
  /\ World.lastPlayerChunk (forceUpdate pos w st).1.2 = Some cur
  /\ World.config (forceUpdate pos w st).1.2 = World.config w.
Proof.
  intros cur vd Hx Hz. unfold World.forceUpdate.
  set (w0 := {| World.scene := World.scene w; World.config := World.config w;
                World.chunks := World.chunks w; World.lastPlayerChunk := None |}).
  split; [|split].
  - by apply (update_window pos w0 st); [..|left].
  - by apply (update_window pos w0 st); [..|left].
  - apply (update_config pos w0 st).
Qed.

(** The window is kept over the frames that follow a forced update. *)
Lemma frames_window (positions : list Vector3) (w : World.World) (st : Statics Entropy)
    (p0 : Vector3) :
  Forall (in_exact_range w) positions ->
  World.lastPlayerChunk w = Some (World.worldToChunk w p0) ->
  dom (World.chunks w) = activeWindow (World.worldToChunk w p0) (viewDistance (World.config w)) ->
  dom (World.chunks (frames Math_random createNoise2D positions w st).1)
  = activeWindow (World.worldToChunk w (List.last positions p0)) (viewDistance (World.config w)).
Proof.
  revert w st p0. induction positions as [|p positions IH]; intros w st p0 Hrange Hlast Hdom.
  - exact Hdom.
  - apply Forall_cons in Hrange as [[Hpx Hpz] Hrange]. cbn [frames].
    destruct (update_window p w st Hpx Hpz) as [Hdom' Hlast'].
    { destruct (World.sameChunk (World.worldToChunk w p) (World.lastPlayerChunk w)) eqn:Hs.
      - apply sameChunk_true in Hs. right.
        assert (Heq : World.worldToChunk w p0 = World.worldToChunk w p) by congruence.
        rewrite <- Heq. exact Hdom.
      - left. intros Heq. apply sameChunk_true in Heq. congruence. }
    pose proof (update_config p w st) as Hcfg.
    set (r := update p w st) in *.
    assert (Hw : forall q, World.worldToChunk r.1.2 q = World.worldToChunk w q)
      by (intros q; unfold World.worldToChunk; by rewrite Hcfg).
    replace (List.last (p :: positions) p0) with (List.last positions p).
    + rewrite <- (Hw (List.last positions p)), <- Hcfg. apply IH.
      * eapply Forall_impl; [exact Hrange|]. intros q [Hqx Hqz]. unfold in_exact_range.
        by rewrite Hw, Hcfg.
      * by rewrite Hw.
      * by rewrite Hw, Hcfg.
    + destruct positions as [|q positions]; [reflexivity|].
      change (List.last (p :: q :: positions) p0) with (List.last (q :: positions) p0).
      apply last_cons_default.
Qed.

(** A session as main.ts runs it: after the forced update and any number of
    frames the store holds the window around the chunk of the last position. *)
Lemma session_window (p0 : Vector3) (positions : list Vector3) (w : World.World)
    (st : Statics Entropy) :
  Forall (in_exact_range w) (p0 :: positions) ->
  dom (World.chunks (frames Math_random createNoise2D positions
                       (forceUpdate p0 w st).1.2 (forceUpdate p0 w st).2).1)
  = activeWindow (World.worldToChunk w (List.last positions p0)) (viewDistance (World.config w)).
Proof.
  intros [[Hx Hz] Hrange]%Forall_cons.
  destruct (forceUpdate_window p0 w st Hx Hz) as (Hdom & Hlast & Hcfg).
  set (r := forceUpdate p0 w st) in *.
  assert (Hw : forall q, World.worldToChunk r.1.2 q = World.worldToChunk w q)
    by (intros q; unfold World.worldToChunk; by rewrite Hcfg).
  rewrite <- (Hw (List.last positions p0)), <- Hcfg. apply frames_window.
  - eapply Forall_impl; [exact Hrange|]. intros q [Hqx Hqz]. unfold in_exact_range.
    by rewrite Hw, Hcfg.
  - by rewrite Hw.
  - by rewrite Hw, Hcfg.
Qed.

(** C5.  When the chunk of the observer is the recorded one, [update] returns
    at once: no event (nothing generated, nothing unloaded), the same object
    (store, recorded coordinate, scene), the same statics. *)
Theorem update_same_chunk_no_work (pos : Vector3) (w : World.World) (st : Statics Entropy) :
  World.lastPlayerChunk w = Some (World.worldToChunk w pos) ->
  update pos w st = ([], w, st).
Proof. apply update_same. Qed.

(** C6.  A coordinate (a pair of numbers) that is resident and inside the
    window around the observer's chunk: no chunk is generated for it, and the
    store holds the same chunk object for it after [update]. *)
Theorem update_never_regenerates_resident (pos : Vector3) (w : World.World)
    (st : Statics Entropy) (c : ChunkCoord) (chunk : Chunk) :
  JS.representable (x c) -> JS.representable (z c) ->
  World.chunks w !! World.chunkKey c = Some chunk ->
  inWindow (World.worldToChunk w pos) (viewDistance (World.config w)) c ->
  (Generated c ∉ (update pos w st).1.1)
  /\ World.chunks (update pos w st).1.2 !! World.chunkKey c = Some chunk.
Proof.
  intros Rx Rz Hres Hwin.
  destruct (World.sameChunk (World.worldToChunk w pos) (World.lastPlayerChunk w)) eqn:Hsame.
  - unfold World.update. rewrite Hsame. cbn. split; [inversion 1|exact Hres].
  - destruct (update_moved Math_random createNoise2D pos w st Hsame)
      as (_ & _ & _ & Hkeep & Hgen).
    split.
    + intros Hc. apply Hgen in Hc. congruence.
    + rewrite Hkeep; [exact Hres| |eauto].
      apply elem_of_list_to_set, list_elem_of_fmap_2.
      by apply visited_representable.
Qed.

(** C2 (amended).  With the coordinates of the window in the range of exact
    integers: after [forceUpdate] the keys of the store are exactly the keys of
    the square window around the observer's chunk; after [update] they are,
    provided the observer's chunk differs from the recorded one or the store
    already held that window, and then the resident coordinates are those of
    the square, [(2 * viewDistance + 1)^2] of them for a view distance that is
    not negative, and the observer's chunk is the recorded one. *)
Theorem update_window_complete (pos : Vector3) (w : World.World) (st : Statics Entropy) :
  let cur := World.worldToChunk w pos in
  let vd := viewDistance (World.config w) in
  (Z.abs (x cur) + vd <= 2 ^ 53)%Z -> (Z.abs (z cur) + vd <= 2 ^ 53)%Z ->
  dom (World.chunks (forceUpdate pos w st).1.2) = activeWindow cur vd
  /\ (World.lastPlayerChunk w <> Some cur \/ dom (World.chunks w) = activeWindow cur vd ->
      dom (World.chunks (update pos w st).1.2) = activeWindow cur vd
      /\ (forall c, resident (update pos w st).1.2 c <-> inWindow cur vd c)
      /\ (0 <= vd -> Z.of_nat (World.getChunkCount (update pos w st).1.2)
                      = (2 * vd + 1) * (2 * vd + 1))%Z
      /\ World.lastPlayerChunk (update pos w st).1.2 = Some cur).
Proof.
  intros cur vd Hx Hz. split.
  - by apply forceUpdate_window.
  - intros Hpre. destruct (update_window pos w st Hx Hz Hpre) as [Hdom Hlast].
    fold cur vd in Hdom, Hlast. split_and!; [exact Hdom| | |exact Hlast].
    + intros c. unfold resident. rewrite <- elem_of_dom, Hdom. apply elem_of_activeWindow.
    + intros Hvd. unfold World.getChunkCount.
      rewrite <- size_dom, Hdom, size_activeWindow by exact Hvd. lia.
Qed.

(** C9.  [unloadChunk] for a key that is not in the store leaves the store as
    it is, and the whole object too when the mesh is not in the scene; it
    cannot fail, being a total function; and after one call for a key a second
    call for it leaves the store as the first call left it. *)
Theorem unloadChunk_absent_noop (key : string) (chunk : Chunk) (w : World.World) :
  (World.chunks w !! key = None ->
     World.chunks (World.unloadChunk key chunk w).2 = World.chunks w
     /\ (THREE.id (mesh chunk) ∉ World.scene w -> (World.unloadChunk key chunk w).2 = w))
  /\ World.chunks (World.unloadChunk key chunk w).2 !! key = None
  /\ World.chunks (World.unloadChunk key chunk (World.unloadChunk key chunk w).2).2
     = World.chunks (World.unloadChunk key chunk w).2.
Proof.
  unfold World.unloadChunk. cbn. split_and!.
  - intros Habsent. split; [by apply delete_id|].
    intros Hscene. destruct w as [scene config chunks last]. cbn in *. f_equal.
    + induction scene as [|o scene IH]; [done|]. cbn.
      apply not_elem_of_cons in Hscene as [Hne Hscene].
      destruct (Nat.eqb_spec o (THREE.id (mesh chunk))) as [->|_]; [done|].
      by rewrite IH.
    + by apply delete_id.
  - apply lookup_delete_eq.
  - apply delete_id, lookup_delete_eq.
Qed.

End WindowManager.

(** C2, as stated, fails: the first [update] of a world just constructed,
    with the observer at (1, 1.6, 1) in chunk (0, 0), returns at once, because
    the recorded coordinate starts as (0, 0); the store stays empty and chunk
    (0, 0) itself is not resident. *)
Lemma update_fresh_world_loads_nothing :
  let pos := THREE.vec 1 1.6 1 in
  let w' := (World.update Sample.Math_random Sample.createNoise2D
                          pos Sample.world Sample.statics').1.2 in
  World.worldToChunk Sample.world pos = {| x := 0; z := 0 |}
  /\ World.chunks Sample.world = ∅
  /\ World.chunks w' = ∅
  /\ dom (World.chunks w')
     <> activeWindow (World.worldToChunk Sample.world pos)
                     (viewDistance (World.config Sample.world))
  /\ ~ resident w' {| x := 0; z := 0 |}.
Proof.
  cbv zeta. split_and!; try reflexivity.
  - change (dom (∅ : gmap string Chunk) <> activeWindow {| x := 0; z := 0 |} 3).
    intros Heq.
    assert (Hin : World.chunkKey {| x := 0; z := 0 |} ∈ activeWindow {| x := 0; z := 0 |} 3).
    { apply elem_of_activeWindow. unfold inWindow. cbn. lia. }
    rewrite <- Heq, dom_empty_L in Hin. by apply not_elem_of_empty in Hin.
  - unfold resident.
    change (~ is_Some ((∅ : gmap string Chunk) !! World.chunkKey {| x := 0; z := 0 |})).
    rewrite lookup_empty. by intros [? ?].
Qed.

(** The scenario of section 8 of the specification: chunkSize 32,
    viewDistance 0, seed 7.  The forced update at the origin leaves chunk
    (0, 0) alone in the store; the step to (40, 1.6, 0) generates chunk (1, 0)
    and unloads (0, 0) once. *)
Example scenario_view_distance_0 :
  let start := World.forceUpdate Sample.Math_random Sample.createNoise2D
                 (THREE.vec 0 1.6 0) Sample.narrow_world Sample.statics' in
  let moved := World.update Sample.Math_random Sample.createNoise2D
                 (THREE.vec 40 1.6 0) start.1.2 start.2 in
  (map_to_list (World.chunks start.1.2)).*1 = ["0,0"]
  /\ start.1.1 = [Generated {| x := 0; z := 0 |}]
  /\ (map_to_list (World.chunks moved.1.2)).*1 = ["1,0"]
  /\ moved.1.1 = [Generated {| x := 1; z := 0 |}; Disposed 1; Unloaded "0,0"]
  /\ World.scene moved.1.2 = [0; 2]%nat.
Proof. vm_compute. repeat split; reflexivity. Qed.

(** Beyond the range of exact integers the window is not a square: for an
    observer in chunk [2^53] the sum of line 58 with [dx = 1] is rounded back
    to [2^53], and a view distance of 1 leaves 6 chunks in the store, not 9. *)
Example update_window_beyond_exact_range :
  let w := (World.new_World []
              {| p_chunkSize := None; p_viewDistance := Some 1%Z; p_wallHeight := None;
                 p_corridorWidth := None; p_seed := None |} Sample.statics).1 in
  let pos := THREE.vec (inject_Z (2 ^ 58)) 1.6 0 in
  let r := World.forceUpdate Sample.Math_random Sample.createNoise2D pos w Sample.statics' in
  World.worldToChunk w pos = {| x := 2 ^ 53; z := 0 |}
  /\ World.getChunkCount r.1.2 = 6%nat
  /\ ~ resident r.1.2 {| x := 2 ^ 53 + 1; z := 0 |}.
Proof.
  cbv zeta. split_and!; try (vm_compute; reflexivity).
  unfold resident. vm_compute. by intros [? ?].
Qed.

Lemma update_same_chunk_no_work_witness :
  World.update Sample.Math_random Sample.createNoise2D
               (THREE.vec 31.9 1.6 31.9) Sample.world Sample.statics'
  = ([], Sample.world, Sample.statics').
Proof.
  apply (update_same_chunk_no_work Sample.Math_random Sample.createNoise2D).
  reflexivity.
Defined.

Lemma update_window_complete_witness :
  dom (World.chunks (World.update Sample.Math_random Sample.createNoise2D
                       (THREE.vec 40 1.6 0) Sample.narrow_world Sample.statics').1.2)
  = activeWindow {| x := 1; z := 0 |} 0.
Proof.
  refine (proj1 (proj2 (update_window_complete Sample.Math_random Sample.createNoise2D
                          (THREE.vec 40 1.6 0) Sample.narrow_world Sample.statics' _ _) _)).
  - vm_compute. discriminate.
  - vm_compute. discriminate.
  - left. vm_compute. discriminate.
Defined.

Lemma unloadChunk_absent_noop_witness :
  let chunk := (new_Chunk Sample.Math_random Sample.createNoise2D {| x := 5; z := 5 |}
                          DEFAULT_CONFIG Sample.statics').1 in
  (World.unloadChunk "5,5" chunk Sample.world).2 = Sample.world.
Proof.
  cbv zeta.
  refine (proj2 (proj1 (unloadChunk_absent_noop "5,5" _ Sample.world) _) _).
  - reflexivity.
  - vm_compute. intros H. inversion H; subst. inversion H2.
Defined.

(** The observer of the second scenario of section 8 with a view distance of
    one: after the forced update around chunk (0, 0) a step into chunk (1, 0)
    keeps the chunk of (1, 0). *)
Lemma update_never_regenerates_resident_witness :
  let start := World.forceUpdate Sample.Math_random Sample.createNoise2D
                 (THREE.vec 0 1.6 0)
                 (World.new_World []
                    {| p_chunkSize := None; p_viewDistance := Some 1%Z; p_wallHeight := None;
                       p_corridorWidth := None; p_seed := None |} Sample.statics).1
                 Sample.statics' in
  let moved := World.update Sample.Math_random Sample.createNoise2D
                 (THREE.vec 40 1.6 0) start.1.2 start.2 in
  Generated {| x := 1; z := 0 |} ∉ moved.1.1.
Proof.
  cbv zeta.
  refine (proj1 (update_never_regenerates_resident Sample.Math_random Sample.createNoise2D
                   (THREE.vec 40 1.6 0) _ _ {| x := 1; z := 0 |} _ _ _ _ _)).
  - reflexivity.
  - reflexivity.
  - vm_compute. reflexivity.
  - vm_compute. split; discriminate.
Defined.

(** ** The position relay *)

Local Open Scope Z_scope.

Section Relay.

Import Server.

(** The test of line 62 compares the difference of the two readings. *)
Lemma throttle_test (now last : Z) :
  (BROADCAST_INTERVAL <? JS.sub now last) = true <-> BROADCAST_INTERVAL < now - last.
Proof.
  unfold JS.sub, BROADCAST_INTERVAL. rewrite Z.ltb_lt. apply fl_lt_iff. reflexivity.
Qed.

Lemma on_move_spec (socket_id : string) (data : MoveData) (now : Z) (r : Relay) (p : Player) :
  players r !! socket_id = Some p ->
  let p' := {| id := id p; position := data_position data; rotation := data_rotation data |} in
  let r' := (on_move socket_id data now r).2 in
  let out := (on_move socket_id data now r).1 in
  players r' = <[socket_id := p']> (players r)
  /\ (BROADCAST_INTERVAL < now - lastBroadcast r ->
        out = [(ToOthers socket_id, msg_player_moved p')] /\ lastBroadcast r' = now)
  /\ (now - lastBroadcast r <= BROADCAST_INTERVAL ->
        out = [] /\ lastBroadcast r' = lastBroadcast r).
Proof.
  intros Hp. cbv zeta. unfold on_move. rewrite Hp.
  destruct (BROADCAST_INTERVAL <? JS.sub now (lastBroadcast r)) eqn:Ht; cbn.
  - apply throttle_test in Ht. split_and!; [done|done|lia].
  - assert (~ BROADCAST_INTERVAL < now - lastBroadcast r).
    { intros H. apply throttle_test in H. congruence. }
    split_and!; [done|lia|done].
Qed.

(** What one input does to the shared time stamp. *)
Lemma step_broadcast (i : Input) (r : Relay) :
  match i with
  | Move _ _ now =>
      if existsb is_player_moved (step i r).1
      then BROADCAST_INTERVAL < now - lastBroadcast r /\ lastBroadcast (step i r).2 = now
      else lastBroadcast (step i r).2 = lastBroadcast r
  | _ => lastBroadcast (step i r).2 = lastBroadcast r
  end.
Proof.
  destruct i as [s|s data now|s|]; cbn; try reflexivity.
  unfold on_move. destruct (players r !! s) as [p|]; [|reflexivity].
  destruct (BROADCAST_INTERVAL <? JS.sub now (lastBroadcast r)) eqn:Ht; cbn; [|reflexivity].
  apply throttle_test in Ht. done.
Qed.

(** Along any sequence of inputs the readings at which [player_moved] goes
    out are more than the interval apart. *)
Lemma run_spaced (inputs : list Input) (r : Relay) :
  spaced (lastBroadcast r) (broadcast_times (run inputs r).1).
Proof.
  revert r. induction inputs as [|i inputs IH]; intros r; cbn; [exact I|].
  pose proof (step_broadcast i r) as Hs. specialize (IH (step i r).2).
  destruct (step i r) as [out r1]. cbn in IH, Hs.
  destruct (run inputs r1) as [rest r2]. cbn in *.
  destruct i as [s|s data now|s|]; try (rewrite <- Hs; exact IH).
  destruct (existsb is_player_moved out).
  - destruct Hs as [Hgap Hlast]. cbn. rewrite Hlast in IH. done.
  - rewrite <- Hs. exact IH.
Qed.

(** C8.  A [move] of a connection that has a state object stores the position
    and the rotation of the payload for that connection; it sends
    [player_moved] to the others, and records the reading of the clock in the
    one variable [lastBroadcast], exactly when that reading is more than 50
    after [lastBroadcast]; otherwise it sends nothing and leaves
    [lastBroadcast]; and over any sequence of inputs, from any connections, two
    consecutive [player_moved] are more than 50 apart. *)
Theorem relay_move_throttle (socket_id : string) (data : MoveData) (now : Z)
    (r : Relay) (p : Player) (inputs : list Input) :
  players r !! socket_id = Some p ->
  let p' := {| id := id p; position := data_position data; rotation := data_rotation data |} in
  players (on_move socket_id data now r).2 !! socket_id = Some p'
  /\ (forall other, other <> socket_id ->
        players (on_move socket_id data now r).2 !! other = players r !! other)
  /\ (50 < now - lastBroadcast r ->
        (on_move socket_id data now r).1 = [(ToOthers socket_id, msg_player_moved p')]
        /\ lastBroadcast (on_move socket_id data now r).2 = now)
  /\ (now - lastBroadcast r <= 50 ->
        (on_move socket_id data now r).1 = []
        /\ lastBroadcast (on_move socket_id data now r).2 = lastBroadcast r)
  /\ spaced (lastBroadcast r) (broadcast_times (run inputs r).1).
Proof.
  intros Hp p'.
  destruct (on_move_spec socket_id data now r p Hp) as (Hplayers & Hsend & Hquiet).
  fold p' in Hplayers, Hsend, Hquiet. split_and!.
  - rewrite Hplayers. apply lookup_insert_eq.
  - intros other Hne. rewrite Hplayers. by apply lookup_insert_ne.
  - exact Hsend.
  - exact Hquiet.
  - apply run_spaced.
Qed.

End Relay.

(** The last scenario of section 8: with no connection the roster timer
    sends nothing. *)
Example roster_timer_without_connections :
  Server.on_roster_timer Server.start = ([], Server.start).
Proof. reflexivity. Qed.

(** Two connections; the second [move] comes 30 ms after a broadcast and is
    stored without a broadcast. *)
Lemma relay_move_throttle_witness :
  let r := (Server.run [Server.Connection "a"; Server.Connection "b";
                        Server.Move "a" {| Server.data_position := THREE.vec 1 1.6 1;
                                           Server.data_rotation := 0 |} 1000]
                       Server.start).2 in
  let data := {| Server.data_position := THREE.vec 2 1.6 2; Server.data_rotation := 1 |} in
  Server.lastBroadcast r = 1000
  /\ (Server.on_move "b" data 1030 r).1 = []
  /\ Server.players (Server.on_move "b" data 1030 r).2 !! "b"
     = Some {| Server.id := "b"; Server.position := THREE.vec 2 1.6 2; Server.rotation := 1 |}.
Proof.
  cbv zeta. split; [reflexivity|].
  set (r := (Server.run _ Server.start).2).
  set (data := {| Server.data_position := THREE.vec 2 1.6 2; Server.data_rotation := 1 |}).
  assert (Hp : Server.players r !! "b"
               = Some {| Server.id := "b"; Server.position := THREE.vec 0 1.6 0;
                         Server.rotation := 0 |}) by reflexivity.
  pose proof (relay_move_throttle "b" data 1030 r _ [] Hp) as (Hstored & _ & _ & Hquiet & _).
  split; [|exact Hstored].
  apply Hquiet. vm_compute. discriminate.
Defined.

(** * Further properties of the code *)

(** ** The random source of a chunk *)

Local Open Scope Z_scope.

(** No state at all is followed by [2^31 - 1]: the argument of
    [lcg_next_not_max] without the bounds on the seed.  A product below
    [-2^53] is rounded to an even number, and when the sum with 12345 comes
    back above [-2^53] it is exact and within 12345 of a multiple of [2^31]. *)
Lemma lcg_next_never_max seed : lcg_next seed <> 2 ^ 31 - 1.
Proof.
  rewrite lcg_next_rounded.
  destruct (Z_lt_le_dec (Z.abs (seed * 1103515245)) (2 ^ 53)) as [Hp|Hp].
  - rewrite (fl_exact (seed * 1103515245)) by lia.
    destruct (Z_lt_le_dec (Z.abs (seed * 1103515245 + 12345)) (2 ^ 53)) as [Hq|Hq].
    + rewrite fl_exact by lia. intros Hm.
      pose proof (Z.div_mod (seed * 1103515245 + 12345) (2 ^ 31)) as Hd.
      rewrite Hm in Hd.
      set (q := (seed * 1103515245 + 12345) / 2 ^ 31) in *.
      assert (seed = 230538014
                     + 2 ^ 31 * (1857678181 * q - 954594553 * seed + 1857667501)) by lia.
      lia.
    + apply even_mod_odd, fl_large_even. lia.
  - destruct (Z_le_gt_dec 0 (seed * 1103515245)).
    + apply even_mod_odd, fl_large_even.
      pose proof (fl_large_pos (seed * 1103515245)). lia.
    + destruct (fl_large_form (seed * 1103515245)) as (q & k & Hk & Hq & Hfl); [lia|].
      rewrite Z.sgn_neg in Hfl by lia.
      assert (H1 : 2 ^ 1 <= 2 ^ k) by (apply Z.pow_le_mono_r; lia).
      change (2 ^ 1) with 2 in H1.
      destruct (Z_le_gt_dec (2 ^ 53 + 12345) (q * 2 ^ k)).
      * apply even_mod_odd, fl_large_even. lia.
      * rewrite Hfl, fl_exact by lia. intros Hm.
        pose proof (Z.div_mod (-1 * (q * 2 ^ k) + 12345) (2 ^ 31)) as Hd.
        rewrite Hm in Hd. nia.
Qed.

(** A call of the closure returns a value in [[0, 1)] from any state. *)
Lemma next_unit_interval (s : Z) : (0 <= (next s).1 /\ (next s).1 < 1)%Q.
Proof.
  apply draw_range. pose proof (lcg_next_range s). pose proof (lcg_next_never_max s). lia.
Qed.

(** X1.  Whatever the chunk coordinates and the world seed (any integers,
    also beyond the exact range), the chunk seed computed by [hashCoords] is
    an integer in [[0, 2^31)], and every value drawn from a random source,
    whatever integer it was constructed with, lies in [[0, 1)]: it is never 1
    and never negative. *)
Theorem chunk_random_source_unit_interval (x z seed s : Z) (n : nat) :
  0 <= hashCoords x z seed < 2 ^ 31
  /\ (0 <= nth_draw n s /\ nth_draw n s < 1)%Q
  /\ (0 <= nth_draw n (seededRandom (hashCoords x z seed))
      /\ nth_draw n (seededRandom (hashCoords x z seed)) < 1)%Q.
Proof.
  split; [apply hashCoords_range|]. split; apply next_unit_interval.
Qed.

(** ** The children of a chunk *)

Local Open Scope Q_scope.

Lemma forM_Forall {S A B : Type} (P : B -> Prop) (l : list A) (body : A -> State S (list B)) :
  (forall a s, a ∈ l -> Forall P (body a s).1) -> forall s, Forall P (forM l body s).1.
Proof.
  induction l as [|a l IH]; intros Hbody s; cbn.
  - constructor.
  - unfold bind, ret. pose proof (Hbody a s ltac:(left)) as Ha.
    destruct (body a s) as [bs s1].
    pose proof (IH (fun a s Hin => Hbody a s ltac:(right; exact Hin)) s1) as Hl.
    destruct (forM l body s1) as [rest s2]. cbn in *.
    apply Forall_app. split; assumption.
Qed.

Lemma forM_length_le {S A B : Type} (n : nat) (l : list A) (body : A -> State S (list B)) :
  (forall a s, (length (body a s).1 <= n)%nat) ->
  forall s, (length (forM l body s).1 <= length l * n)%nat.
Proof.
  intros Hbody. induction l as [|a l IH]; intros s; cbn.
  - lia.
  - unfold bind, ret. pose proof (Hbody a s) as Ha.
    destruct (body a s) as [bs s1]. specialize (IH s1).
    destruct (forM l body s1) as [rest s2]. cbn in *.
    rewrite length_app. lia.
Qed.

Lemma elem_of_cells (gx gz : Z) :
  (gx, gz) ∈ cells -> (0 <= gx < gridSize)%Z /\ (0 <= gz < gridSize)%Z.
Proof.
  unfold cells. intros (a & Hin & Ha)%list_elem_of_bind.
  apply list_elem_of_bind in Hin as (b & Hin & Hb).
  apply list_elem_of_singleton in Hin. injection Hin as -> ->.
  apply elem_of_seqZ in Ha, Hb. lia.
Qed.

Lemma cell_children (noise2D : Q -> Q -> Q) (coord : ChunkCoord) (config : WorldConfig)
    (gx gz : Z) (random : Z) :
  (0 <= gx < gridSize)%Z -> (0 <= gz < gridSize)%Z ->
  Forall (chunk_child config) (cell noise2D coord config (gx, gz) random).1.
Proof.
  intros Hgx Hgz.
  assert (Hp : forall s, Forall (chunk_child config) (occasionalPillar config gx gz s).1).
  { intros s. unfold occasionalPillar, bind, ret.
    destruct (next s) as [r2 s3]. destruct (Qgtb r2 0.92); [|constructor].
    pose proof (next_unit_interval s3) as [X0 X1]. destruct (next s3) as [rx s4].
    pose proof (next_unit_interval s4) as [Z0 Z1]. destruct (next s4) as [rz s5].
    cbn in *. apply Forall_singleton. by apply child_pillar. }
  unfold cell. destruct (Qgtb _ _); unfold wallSegment, bind, ret.
  - pose proof (next_unit_interval random) as [R0 R1].
    destruct (next random) as [r s1]. destruct (next s1) as [r' s2].
    specialize (Hp s2). destruct (occasionalPillar config gx gz s2) as [pillars s3].
    cbn in *. apply Forall_cons. split; [by apply child_wall|exact Hp].
  - specialize (Hp random). destruct (occasionalPillar config gx gz random) as [pillars s3].
    exact Hp.
Qed.

Lemma light_children (config : WorldConfig) (lx lz : Q) (random : Z) :
  lx ∈ lightLattice config -> lz ∈ lightLattice config ->
  Forall (chunk_child config) (light config (lx, lz) random).1.
Proof.
  intros Hx Hz. unfold light, bind, ret.
  destruct (next random) as [r s1]. destruct (Qgtb r 0.85); [constructor|].
  destruct (next s1) as [r' s2]. cbn.
  apply Forall_cons. split; [by apply child_fixture|].
  apply Forall_singleton. by apply child_pointLight.
Qed.

Lemma cell_length (noise2D : Q -> Q -> Q) (coord : ChunkCoord) (config : WorldConfig)
    (g : Z * Z) (random : Z) :
  (length (cell noise2D coord config g random).1 <= 2)%nat.
Proof.
  destruct g as [gx gz]. unfold cell, wallSegment, occasionalPillar, bind, ret.
  destruct (Qgtb _ _).
  - destruct (next random) as [r s1]. destruct (next s1) as [r' s2].
    destruct (next s2) as [r2 s3]. destruct (Qgtb r2 0.92); [|cbn; lia].
    destruct (next s3) as [rx s4]. destruct (next s4) as [rz s5]. cbn. lia.
  - destruct (next random) as [r2 s3]. destruct (Qgtb r2 0.92); [|cbn; lia].
    destruct (next s3) as [rx s4]. destruct (next s4) as [rz s5]. cbn. lia.
Qed.

Lemma light_length (config : WorldConfig) (p : Q * Q) (random : Z) :
  (length (light config p random).1 <= 2)%nat.
Proof.
  destruct p as [lx lz]. unfold light, bind, ret.
  destruct (next random) as [r s1]. destruct (Qgtb r 0.85); [cbn; lia|].
  destruct (next s1) as [r' s2]. cbn. lia.
Qed.

Lemma cellSize_unfold (config : WorldConfig) : cellSize config == chunkSize config * (1 # 4).
Proof. reflexivity. Qed.

Lemma half_unfold (q : Q) : q / 2 == q * (1 # 2).
Proof. reflexivity. Qed.

(** The loop of [addLights] starts at 4 and stops before [chunkSize]. *)
Lemma lightLattice_bounds (config : WorldConfig) (v : Q) :
  v ∈ lightLattice config -> 4 <= v /\ v < chunkSize config.
Proof.
  unfold lightLattice. intros (i & -> & Hi)%list_elem_of_fmap.
  apply elem_of_seqZ in Hi as [H0 H1].
  assert (Hlt : inject_Z i < (chunkSize config - lightSpacing / 2) / lightSpacing).
  { eapply Qle_lt_trans; [|apply Qceiling_lt].
    rewrite <- Zle_Qle. lia. }
  assert (H0' : 0 <= inject_Z i) by (rewrite <- (Zle_Qle 0); lia).
  unfold lightSpacing in *.
  assert (E1 : (chunkSize config - 8 / 2) / 8 == (chunkSize config - 4) * (1 # 8)) by field.
  assert (E2 : 8 / 2 + inject_Z i * 8 == 4 + inject_Z i * 8) by field.
  rewrite E1 in Hlt. rewrite E2. lra.
Qed.

Lemma grid_index (g : Z) :
  (0 <= g < gridSize)%Z -> g = 0%Z \/ g = 1%Z \/ g = 2%Z \/ g = 3%Z.
Proof. unfold gridSize. lia. Qed.

Lemma chunk_child_in_footprint (config : WorldConfig) (o : Object3D) :
  0 < chunkSize config -> chunk_child config o -> in_footprint config o.
Proof.
  intros Hc Ho. unfold in_footprint.
  pose proof (cellSize_unfold config) as Hcell.
  destruct Ho as [| |gx gz r turned Hgx Hgz R0 R1|gx gz rx rz Hgx Hgz X0 X1 Z0 Z1
                  |lx lz dim Hx Hz|lx lz Hx Hz]; cbn.
  - rewrite half_unfold. lra.
  - rewrite half_unfold. lra.
  - rewrite half_unfold, Hcell.
    apply grid_index in Hgx as [->|[->|[->| ->]]], Hgz as [->|[->|[->| ->]]];
      change (inject_Z 0) with 0; change (inject_Z 1) with 1; change (inject_Z 2) with 2;
      change (inject_Z 3) with 3; lra.
  - rewrite Hcell.
    apply grid_index in Hgx as [->|[->|[->| ->]]], Hgz as [->|[->|[->| ->]]];
      change (inject_Z 0) with 0; change (inject_Z 1) with 1; change (inject_Z 2) with 2;
      change (inject_Z 3) with 3; nra.
  - apply lightLattice_bounds in Hx, Hz. lra.
  - apply lightLattice_bounds in Hx, Hz. lra.
Qed.

Section Children.

Context {Entropy : Type}.
Variable Math_random : State Entropy Q.
Variable createNoise2D : State Z Q -> State Z (Q -> Q -> Q).

Lemma generate_children (coord : ChunkCoord) (config : WorldConfig) :
  Forall (chunk_child config) (generate createNoise2D coord config).2.
Proof.
  unfold generate. destruct (createNoise2D next _) as [noise2D s0].
  pose proof (forM_Forall (chunk_child config) cells (cell noise2D coord config)) as Hw.
  specialize (Hw (fun g s Hin => ltac:(destruct g as [gx gz]; apply elem_of_cells in Hin as [? ?];
                                       by apply cell_children)) s0).
  destruct (forM cells _ s0) as [walls s1].
  pose proof (forM_Forall (chunk_child config)
                (lx ← lightLattice config; lz ← lightLattice config; [(lx, lz)])
                (light config)) as Hl.
  unfold addLights.
  specialize (Hl (fun p s Hin => ltac:(
    destruct p as [lx lz];
    apply list_elem_of_bind in Hin as (a & Hin & Ha);
    apply list_elem_of_bind in Hin as (b & Hin & Hb);
    apply list_elem_of_singleton in Hin; injection Hin as -> ->;
    by apply light_children)) s1).
  destruct (forM _ (light config) s1) as [lights s2]. cbn in *.
  apply Forall_cons. split; [apply child_floor|].
  apply Forall_cons. split; [apply child_ceiling|].
  apply Forall_app. split; assumption.
Qed.

(** X2.  Every child of the group of a generated chunk is the floor, the
    ceiling, a wall segment of one of the 16 cells with a length of
    [cellSize * (0.5 + r * 0.5)] for a draw [r] in [[0, 1)] (so between half
    a cell and a cell), a pillar of one of the cells at a drawn place inside
    the cell, or the fixture or the point light of a point of the light
    lattice; whatever the noise function is. *)
Theorem generate_children_classified (coord : ChunkCoord) (config : WorldConfig)
    (st : Statics Entropy) :
  Forall (chunk_child config) (generate createNoise2D coord config).2
  /\ Forall (chunk_child config)
            (THREE.children (mesh (new_Chunk Math_random createNoise2D coord config st).1)).
Proof.
  split; [apply generate_children|].
  unfold new_Chunk. pose proof (generate_children coord config) as H.
  destruct (generate createNoise2D coord config) as [position children]. exact H.
Qed.

(** X3.  For a positive chunk size every child of a generated chunk (floor,
    ceiling, walls, pillars, fixtures, lights) is placed over the square
    [[0, chunkSize] x [0, chunkSize]] of the chunk, in the coordinates of its
    group. *)
Theorem generate_children_in_footprint (coord : ChunkCoord) (config : WorldConfig) :
  0 < chunkSize config ->
  Forall (in_footprint config) (generate createNoise2D coord config).2.
Proof.
  intros Hc. eapply Forall_impl; [apply generate_children|].
  intros o. by apply chunk_child_in_footprint.
Qed.

(** X4.  A generated chunk has at least the floor and the ceiling, and at
    most [34 + 2 * n * n] children, [n] being the number of rows of the light
    lattice (4 for a chunk size of 32: at most 66 children, of which 16 point
    lights). *)
Theorem generate_children_count (coord : ChunkCoord) (config : WorldConfig) :
  let n := length (lightLattice config) in
  (2 <= length (generate createNoise2D coord config).2 <= 34 + 2 * (n * n))%nat
  /\ length (lightLattice DEFAULT_CONFIG) = 4%nat.
Proof.
  cbv zeta. split; [|reflexivity].
  unfold generate. destruct (createNoise2D next _) as [noise2D s0].
  pose proof (forM_length_le 2 cells (cell noise2D coord config)
                (cell_length noise2D coord config) s0) as Hw.
  destruct (forM cells _ s0) as [walls s1].
  unfold addLights.
  pose proof (forM_length_le 2 (lx ← lightLattice config; lz ← lightLattice config; [(lx, lz)])
                (light config) (light_length config) s1) as Hl.
  destruct (forM _ (light config) s1) as [lights s2]. cbn [fst snd length] in *.
  rewrite length_app.
  rewrite (length_bind_const _ (length (lightLattice config))) in Hl.
  2:{ intros lx. rewrite (length_bind_const _ 1%nat); [lia|reflexivity]. }
  change (length cells) with 16%nat in Hw. lia.
Qed.

(** X23.  Generation reads three fields of the configuration only: two
    configurations with the same chunk size, wall height and seed give the
    same position and the same children, whatever their view distance and
    corridor width are ([corridorWidth] is used nowhere). *)
Theorem generate_ignores_unused_config (coord : ChunkCoord) (config config' : WorldConfig) :
  chunkSize config' = chunkSize config -> wallHeight config' = wallHeight config ->
  seed config' = seed config ->
  generate createNoise2D coord config' = generate createNoise2D coord config.
Proof.
  destruct config as [cs vd wh cw sd], config' as [cs' vd' wh' cw' sd']. cbn.
  intros -> -> ->. reflexivity.
Qed.

End Children.

Lemma generate_children_in_footprint_witness :
  Forall (in_footprint DEFAULT_CONFIG)
         (generate Sample.createNoise2D {| x := 2; z := -1 |} DEFAULT_CONFIG).2.
Proof.
  apply (generate_children_in_footprint Sample.createNoise2D {| x := 2; z := -1 |} DEFAULT_CONFIG).
  vm_compute. reflexivity.
Defined.

Lemma generate_ignores_unused_config_witness :
  generate Sample.createNoise2D {| x := 2; z := -1 |}
           {| chunkSize := 32; viewDistance := 1; wallHeight := 3; corridorWidth := 7;
              seed := 42 |}
  = generate Sample.createNoise2D {| x := 2; z := -1 |} DEFAULT_CONFIG.
Proof.
  apply (generate_ignores_unused_config Sample.createNoise2D); reflexivity.
Defined.

(** ** The scene, the statics and the events of [update] *)

Local Open Scope Z_scope.

(** Removing a child of the scene takes one occurrence away. *)
Lemma scene_remove_Permutation (id : nat) (l : list nat) :
  id ∈ l -> l ≡ₚ id :: World.scene_remove id l.
Proof.
  induction l as [|c l IH]; [inversion 1|]. cbn.
  destruct (Nat.eqb_spec c id) as [->|Hne]; [reflexivity|].
  intros [?|Hin]%elem_of_cons; [congruence|].
  rewrite (IH Hin) at 1. apply Permutation_swap.
Qed.

Lemma scene_remove_tracks (others : list nat) (id : nat) (rest sc : list nat) :
  sc ≡ₚ others ++ id :: rest -> World.scene_remove id sc ≡ₚ others ++ rest.
Proof.
  intros Hinv.
  assert (Hmem : id ∈ sc) by (rewrite Hinv; apply elem_of_app; right; by left).
  apply scene_remove_Permutation in Hmem. rewrite Hmem in Hinv.
  rewrite <- Permutation_middle in Hinv. by apply Permutation_cons_inv in Hinv.
Qed.

Lemma filter_ext_elem {A : Type} (P Q : A -> Prop) `{!forall x, Decision (P x)}
    `{!forall x, Decision (Q x)} (l : list A) :
  (forall x, x ∈ l -> P x <-> Q x) -> filter P l = filter Q l.
Proof.
  induction l as [|a l IH]; intros Hext; [reflexivity|].
  rewrite !filter_cons. rewrite IH by (intros x Hx; apply Hext; by right).
  pose proof (Hext a ltac:(left)) as Ha.
  destruct (decide (P a)), (decide (Q a)); tauto || reflexivity.
Qed.

Local Open Scope Q_scope.



Local Open Scope Z_scope.

Lemma filter_all {A : Type} (P : A -> Prop) `{!forall x, Decision (P x)} (l : list A) :
  (forall a, P a) -> filter P l = l.
Proof.
  intros HP. induction l as [|a l IH]; [reflexivity|].
  rewrite filter_cons, decide_True by apply HP. by rewrite IH.
Qed.

(** With a negative view distance the loading loops do not run. *)
Lemma offsets_negative (vd : Z) : vd < 0 -> World.offsets vd = [].
Proof. intros Hvd. unfold World.offsets. rewrite seqZ_nil by lia. reflexivity. Qed.

Section SceneAndEvents.

Context {Entropy : Type}.
Variable Math_random : State Entropy Q.
Variable createNoise2D : State Z Q -> State Z (Q -> Q -> Q).

Local Abbreviation require := (World.require Math_random createNoise2D).
Local Abbreviation update := (World.update Math_random createNoise2D).
Local Abbreviation forceUpdate := (World.forceUpdate Math_random createNoise2D).
Local Abbreviation Loop := (@World.Loop Entropy).
Local Abbreviation chunks_of l := (World.chunks (World.world l)).












(** The loading loops over coordinates with distinct keys generate a chunk for
    each coordinate that is not resident, in the order of the loops, and
    unload nothing. *)
Lemma require_fold_events (cur : ChunkCoord) (ds : list (Z * Z)) (l : Loop) :
  NoDup (World.neighbour cur <$> ds) ->
  let l' := fold_left (require cur) ds l in
  generated (World.events l')
  = generated (World.events l)
    ++ filter (fun c => chunks_of l !! World.chunkKey c = None) (World.neighbour cur <$> ds)
  /\ unloaded (World.events l') = unloaded (World.events l)
  /\ disposed (World.events l') = disposed (World.events l).
Proof.
  revert l. induction ds as [|d ds IH]; intros l Hnd; cbn [fold_left fmap list_fmap].
  - cbn. rewrite app_nil_r. done.
  - apply NoDup_cons in Hnd as [Hd Hnd].
    destruct (require_step Math_random createNoise2D cur l d) as (_ & D1 & P1 & _ & _ & E1).
    destruct (IH (require cur l d) Hnd) as (G2 & U2 & X2). cbv zeta in *.
    assert (Hrest : filter (fun c => chunks_of (require cur l d) !! World.chunkKey c = None)
                           (World.neighbour cur <$> ds)
                    = filter (fun c => chunks_of l !! World.chunkKey c = None)
                             (World.neighbour cur <$> ds)).
    { apply filter_ext_elem. intros c Hc.
      assert (Hne : World.chunkKey c <> World.chunkKey (World.neighbour cur d)).
      { intros Heq. apply chunkKey_inj in Heq. subst c. exact (Hd Hc). }
      rewrite <- !not_elem_of_dom, D1, not_elem_of_union, not_elem_of_singleton. tauto. }
    rewrite G2, U2, X2, Hrest, filter_cons.
    destruct E1 as [[-> Hres]|[-> Hnone]].
    + rewrite decide_False; [split_and!; reflexivity|].
      intros Hn. rewrite Hn in Hres. by destruct Hres.
    + rewrite decide_True by exact Hnone.
      unfold generated, unloaded, disposed. rewrite !omap_app. cbn.
      rewrite !app_nil_r, <- app_assoc. split_and!; reflexivity.
Qed.

(** The unloading loop: every entry whose key is not needed is disposed of
    and leaves the store, in the order of the entries; nothing is generated. *)
Lemma sweep_fold_events (entries : list (string * Chunk)) (l : Loop) :
  let l' := fold_left World.sweep entries l in
  let out := filter (fun entry : string * Chunk => entry.1 ∉ World.neededChunks l) entries in
  generated (World.events l') = generated (World.events l)
  /\ unloaded (World.events l') = unloaded (World.events l) ++ out.*1
  /\ disposed (World.events l')
     = disposed (World.events l) ++ ((fun entry : string * Chunk => THREE.id (mesh entry.2)) <$> out).
Proof.
  revert l. induction entries as [|[key chunk] entries IH]; intros l; cbn [fold_left].
  - cbn. rewrite !app_nil_r. done.
  - remember (World.sweep l (key, chunk)) as l1 eqn:Hl1.
    destruct (IH l1) as (G & U & X). cbv zeta in *. rewrite G, U, X, filter_cons.
    unfold World.sweep in Hl1. cbn [fst].
    destruct (decide (key ∈ World.neededChunks l)) as [Hin|Hout]; subst l1.
    + rewrite decide_False by tauto. done.
    + rewrite decide_True by exact Hout. cbn.
      unfold generated, unloaded, disposed. rewrite !omap_app. cbn.
      rewrite app_nil_r, <- !app_assoc. done.
Qed.

(** The events of an [update] that passes the early return. *)
Lemma update_moved_events (pos : Vector3) (w : World.World) (st : Statics Entropy) :
  let cur := World.worldToChunk w pos in
  let vd := viewDistance (World.config w) in
  let evs := (update pos w st).1.1 in
  (Z.abs (x cur) + vd <= 2 ^ 53)%Z -> (Z.abs (z cur) + vd <= 2 ^ 53)%Z ->
  World.lastPlayerChunk w <> Some cur ->
  generated evs
  = filter (fun c => World.chunks w !! World.chunkKey c = None) (windowCoords cur vd)
  /\ NoDup (unloaded evs)
  /\ (forall k, k ∈ unloaded evs <-> (k ∈ dom (World.chunks w)) /\ (k ∉ activeWindow cur vd))
  /\ (forall i, i ∈ disposed evs <->
        exists k c, World.chunks w !! k = Some c /\ (k ∉ activeWindow cur vd)
                    /\ THREE.id (mesh c) = i)
  /\ length (disposed evs) = length (unloaded evs).
Proof.
  intros cur vd evs Hx Hz Hlast. subst evs.
  assert (Hmoved : World.sameChunk cur (World.lastPlayerChunk w) = false).
  { destruct (World.sameChunk cur (World.lastPlayerChunk w)) eqn:Hs; [|done].
    apply sameChunk_true in Hs. done. }
  unfold World.update. fold cur. rewrite Hmoved.
  cbn [World.config]. fold vd.
  set (w1 := {| World.scene := World.scene w; World.config := World.config w;
                World.chunks := World.chunks w; World.lastPlayerChunk := Some cur |}).
  set (l0 := {| World.events := []; World.neededChunks := ∅; World.world := w1;
                World.statics := st |}).
  assert (Hnd : NoDup (World.neighbour cur <$> World.offsets vd)).
  { fold (visited cur vd). rewrite visited_exact by done. apply windowCoords_NoDup. }
  destruct (require_fold Math_random createNoise2D cur (World.offsets vd) l0)
    as (N1 & D1 & P1 & _).
  destruct (require_fold_events cur (World.offsets vd) l0 Hnd) as (G1 & U1 & X1).
  set (l1 := fold_left (require cur) (World.offsets vd) l0) in *.
  destruct (sweep_fold_events (map_to_list (chunks_of l1)) l1) as (G2 & U2 & X2).
  set (l2 := fold_left World.sweep (map_to_list (chunks_of l1)) l1) in *.
  cbv zeta in *. cbn [fst snd].
  fold (visited cur vd) in N1, D1, G1. rewrite visited_exact in N1, D1, G1 by done.
  fold (activeWindow cur vd) in N1, D1.
  cbn [World.neededChunks World.world World.events l0 World.chunks w1] in N1, D1, P1, G1, U1, X1.
  assert (Hneeded : World.neededChunks l1 = activeWindow cur vd).
  { rewrite N1. apply set_eq. intros k. rewrite elem_of_union, elem_of_empty. tauto. }
  rewrite Hneeded in U2, X2.
  set (out := filter (fun entry : string * Chunk => entry.1 ∉ activeWindow cur vd)
                     (map_to_list (chunks_of l1))) in *.
  assert (Hout : forall k c, (k, c) ∈ out <->
                   World.chunks w !! k = Some c /\ (k ∉ activeWindow cur vd)).
  { intros k c. unfold out. rewrite list_elem_of_filter, elem_of_map_to_list. cbn.
    split.
    - intros [H1 H2]. split; [|exact H1].
      assert (Hdom : k ∈ dom (chunks_of l1)) by (apply elem_of_dom; eauto).
      rewrite D1, elem_of_union in Hdom. destruct Hdom as [?|Hdom]; [done|].
      apply elem_of_dom in Hdom. rewrite <- (P1 k Hdom). exact H2.
    - intros [H1 H2]. split; [exact H2|]. rewrite P1; eauto. }
  rewrite G2, G1, U2, U1, X2, X1.
  change (generated []) with (@nil ChunkCoord). change (unloaded []) with (@nil string).
  change (disposed []) with (@nil nat). cbn [app].
  split_and!.
  - reflexivity.
  - apply NoDup_fmap_fst.
    + intros k c c' [H1 _]%Hout [H2 _]%Hout. congruence.
    + apply NoDup_filter, NoDup_map_to_list.
  - intros k. rewrite list_elem_of_fmap. split.
    + intros ([k' c] & -> & [H1 H2]%Hout). cbn. split; [|done]. apply elem_of_dom. eauto.
    + intros [[c Hc]%elem_of_dom Hk]. exists (k, c). split; [done|]. by apply Hout.
  - intros i. rewrite list_elem_of_fmap. split.
    + intros ([k c] & -> & [H1 H2]%Hout). eauto.
    + intros (k & c & H1 & H2 & <-). exists (k, c). split; [done|]. by apply Hout.
  - by rewrite !length_fmap.
Qed.

(** X7.  An [update] that finds the observer in another chunk than the
    recorded one (chunk size not 0, window in the range of exact integers)
    generates a chunk for exactly the coordinates of the window that are not
    resident, each of them once, in the order of the two loops. *)
Theorem update_generates_missing_chunks_once (pos : Vector3) (w : World.World)
    (st : Statics Entropy) :
  let cur := World.worldToChunk w pos in
  let vd := viewDistance (World.config w) in
  let gen := generated (update pos w st).1.1 in
  ~ (chunkSize (World.config w) == 0)%Q ->
  (Z.abs (x cur) + vd <= 2 ^ 53)%Z -> (Z.abs (z cur) + vd <= 2 ^ 53)%Z ->
  World.lastPlayerChunk w <> Some cur ->
  gen = filter (fun c => World.chunks w !! World.chunkKey c = None) (windowCoords cur vd)
  /\ NoDup gen
  /\ (forall c, c ∈ gen <-> inWindow cur vd c /\ ~ resident w c).
Proof.
  intros cur vd gen _ Hx Hz Hlast.
  destruct (update_moved_events pos w st Hx Hz Hlast) as (Hgen & _).
  fold cur vd gen in Hgen. split_and!.
  - exact Hgen.
  - rewrite Hgen. apply NoDup_filter, windowCoords_NoDup.
  - intros c. rewrite Hgen, list_elem_of_filter, elem_of_windowCoords. unfold resident.
    split.
    + intros [Hn Hw]. split; [exact Hw|]. rewrite Hn. by intros [? ?].
    + intros [Hw Hn]. split; [|exact Hw].
      destruct (World.chunks w !! World.chunkKey c); [|done]. exfalso. apply Hn. eauto.
Qed.

(** X8.  An [update] that finds the observer in another chunk than the
    recorded one (chunk size not 0, window in the range of exact integers)
    takes out of the store exactly the keys that were
    resident and are outside the window, each once, disposes of exactly the
    groups of the chunks stored under those keys, and the keys are absent
    from the store afterwards. *)
Theorem update_unloads_chunks_outside_window (pos : Vector3) (w : World.World)
    (st : Statics Entropy) :
  let cur := World.worldToChunk w pos in
  let vd := viewDistance (World.config w) in
  let evs := (update pos w st).1.1 in
  ~ (chunkSize (World.config w) == 0)%Q ->
  (Z.abs (x cur) + vd <= 2 ^ 53)%Z -> (Z.abs (z cur) + vd <= 2 ^ 53)%Z ->
  World.lastPlayerChunk w <> Some cur ->
  NoDup (unloaded evs)
  /\ (forall k, k ∈ unloaded evs <-> (k ∈ dom (World.chunks w)) /\ (k ∉ activeWindow cur vd))
  /\ (forall i, i ∈ disposed evs <->
        exists k c, World.chunks w !! k = Some c /\ (k ∉ activeWindow cur vd)
                    /\ THREE.id (mesh c) = i)
  /\ length (disposed evs) = length (unloaded evs)
  /\ (forall k, k ∈ unloaded evs -> World.chunks (update pos w st).1.2 !! k = None).
Proof.
  intros cur vd evs _ Hx Hz Hlast.
  destruct (update_moved_events pos w st Hx Hz Hlast) as (_ & Hnd & Hun & Hdis & Hlen).
  fold cur vd evs in Hnd, Hun, Hdis, Hlen. split_and!; try assumption.
  intros k [_ Hk]%Hun.
  destruct (update_window Math_random createNoise2D pos w st Hx Hz) as [Hdom _]; [by left|].
  fold cur vd in Hdom. apply not_elem_of_dom. by rewrite Hdom.
Qed.

(** [update] records the chunk it was called for. *)
Lemma update_twice (pos : Vector3) (w : World.World) (st : Statics Entropy) :
  update pos (update pos w st).1.2 (update pos w st).2
  = ([], (update pos w st).1.2, (update pos w st).2).
Proof.
  apply update_same.
  destruct (World.sameChunk (World.worldToChunk w pos) (World.lastPlayerChunk w)) eqn:Hsame.
  - unfold World.update. rewrite Hsame. cbn. by apply sameChunk_true.
  - destruct (update_moved Math_random createNoise2D pos w st Hsame) as (_ & Hlast & Hcfg & _).
    rewrite Hlast. unfold World.worldToChunk. by rewrite Hcfg.
Qed.

(** X9.  [update] is idempotent: called again with the same position right
    after a call, it does nothing (no event, the same object, the same
    statics), whatever the first call did.  The chunk size is taken different
    from 0, for which the quotient of line 35 is not a number. *)
Theorem update_twice_is_idle (pos : Vector3) (w : World.World) (st : Statics Entropy) :
  ~ (chunkSize (World.config w) == 0)%Q ->
  let r := update pos w st in
  update pos r.1.2 r.2 = ([], r.1.2, r.2).
Proof. intros _. apply update_twice. Qed.

(** X12.  Over a session as main.ts runs it (a forced update at the first
    position, then an update per frame; chunk size not 0, all windows in the
    range of exact integers, view distance not negative) the resident chunks are exactly
    those of the window around the chunk of the last position, and their
    number is [(2 * viewDistance + 1)^2]. *)
Theorem session_resident_chunks (p0 : Vector3) (positions : list Vector3)
    (w : World.World) (st : Statics Entropy) :
  ~ (chunkSize (World.config w) == 0)%Q ->
  Forall (in_exact_range w) (p0 :: positions) ->
  (0 <= viewDistance (World.config w))%Z ->
  let r := forceUpdate p0 w st in
  let w' := (frames Math_random createNoise2D positions r.1.2 r.2).1 in
  let last := World.worldToChunk w (List.last positions p0) in
  (forall c, resident w' c <-> inWindow last (viewDistance (World.config w)) c)
  /\ Z.of_nat (World.getChunkCount w')
     = ((2 * viewDistance (World.config w) + 1) * (2 * viewDistance (World.config w) + 1))%Z.
Proof.
  intros _ Hrange Hvd r w' last.
  pose proof (session_window Math_random createNoise2D p0 positions w st Hrange) as Hdom.
  fold r w' last in Hdom. split.
  - intros c. unfold resident. rewrite <- elem_of_dom, Hdom. apply elem_of_activeWindow.
  - unfold World.getChunkCount. rewrite <- size_dom, Hdom, size_activeWindow by exact Hvd. lia.
Qed.

(** X22.  With a negative view distance an [update] that finds the observer
    in another chunk than the recorded one (chunk size not 0) loads nothing
    and unloads every resident chunk: the store is empty afterwards, and the
    statics are untouched. *)
Theorem update_negative_view_distance_unloads_all (pos : Vector3) (w : World.World)
    (st : Statics Entropy) :
  let cur := World.worldToChunk w pos in
  let r := update pos w st in
  ~ (chunkSize (World.config w) == 0)%Q ->
  viewDistance (World.config w) < 0 ->
  World.lastPlayerChunk w <> Some cur ->
  World.chunks r.1.2 = ∅
  /\ generated r.1.1 = []
  /\ unloaded r.1.1 = (map_to_list (World.chunks w)).*1
  /\ r.2 = st.
Proof.
  intros cur r _ Hvd Hlast. subst r.
  assert (Hmoved : World.sameChunk cur (World.lastPlayerChunk w) = false).
  { destruct (World.sameChunk cur (World.lastPlayerChunk w)) eqn:Hs; [|done].
    apply sameChunk_true in Hs. done. }
  unfold World.update. fold cur. rewrite Hmoved. cbn [World.config].
  rewrite offsets_negative by exact Hvd. cbn [fold_left World.world World.chunks].
  match goal with |- context [fold_left World.sweep ?es ?l0] =>
    destruct (sweep_fold es l0) as (_ & S & _ & _ & K & _);
    destruct (sweep_fold_events es l0) as (G & U & _) end.
  cbv zeta in *. cbn [fst snd]. rewrite G, U, S. cbn [World.events World.neededChunks
    World.statics World.world World.chunks] in *.
  split_and!; try reflexivity.
  - apply map_eq. intros k. rewrite K, lookup_empty.
    destruct (World.chunks w !! k) as [c|] eqn:Hc; [|by case_decide].
    rewrite decide_True; [done|]. split; [|apply not_elem_of_empty].
    apply list_elem_of_fmap. exists (k, c). split; [done|]. by apply elem_of_map_to_list.
  - change (unloaded []) with (@nil string). cbn [app]. f_equal.
    apply filter_all. intros e. apply not_elem_of_empty.
Qed.

(** The loading loops when every coordinate they build is resident. *)
Lemma require_fold_resident (cur : ChunkCoord) (ds : list (Z * Z)) (l : Loop) :
  (forall d, d ∈ ds -> is_Some (chunks_of l !! World.chunkKey (World.neighbour cur d))) ->
  fold_left (require cur) ds l
  = {| World.events := World.events l;
       World.neededChunks :=
         list_to_set (World.chunkKey <$> (World.neighbour cur <$> ds)) ∪ World.neededChunks l;
       World.world := World.world l; World.statics := World.statics l |}.
Proof.
  revert l. induction ds as [|d ds IH]; intros l Hres; cbn [fold_left fmap list_fmap].
  - destruct l as [ev nd wd sts]. cbn. f_equal. by rewrite union_empty_l_L.
  - assert (Hd : require cur l d
                 = {| World.events := World.events l;
                      World.neededChunks :=
                        {[ World.chunkKey (World.neighbour cur d) ]} ∪ World.neededChunks l;
                      World.world := World.world l; World.statics := World.statics l |}).
    { unfold World.require. destruct (Hres d ltac:(left)) as [c ->]. reflexivity. }
    rewrite Hd, IH.
    + cbn [World.events World.neededChunks World.world World.statics]. f_equal.
      rewrite list_to_set_cons. apply set_eq. intros k. rewrite !elem_of_union. tauto.
    + intros d' Hd'. cbn. apply Hres. by right.
Qed.

(** The unloading loop when every key is needed. *)
Lemma sweep_fold_needed (entries : list (string * Chunk)) (l : Loop) :
  (forall e, e ∈ entries -> e.1 ∈ World.neededChunks l) ->
  fold_left World.sweep entries l = l.
Proof.
  induction entries as [|[key chunk] entries IH]; intros Hin; [reflexivity|].
  cbn [fold_left]. unfold World.sweep at 2.
  rewrite decide_True by (apply (Hin (key, chunk)); by left).
  apply IH. intros e He. apply Hin. by right.
Qed.

Lemma forceUpdate_twice (pos : Vector3) (w : World.World) (st : Statics Entropy) :
  let cur := World.worldToChunk w pos in
  let vd := viewDistance (World.config w) in
  (Z.abs (x cur) + vd <= 2 ^ 53)%Z -> (Z.abs (z cur) + vd <= 2 ^ 53)%Z ->
  let r := forceUpdate pos w st in
  forceUpdate pos r.1.2 r.2 = ([], r.1.2, r.2).
Proof.
  intros cur vd Hx Hz r.
  destruct (forceUpdate_window Math_random createNoise2D pos w st Hx Hz) as (Hdom & Hlast & Hcfg).
  fold cur vd r in Hdom, Hlast, Hcfg.
  destruct r as [[evs w1] st1]. cbn [fst snd] in *.
  unfold World.forceUpdate.
  set (w0 := {| World.scene := World.scene w1; World.config := World.config w1;
                World.chunks := World.chunks w1; World.lastPlayerChunk := None |}).
  assert (Hcur : World.worldToChunk w0 pos = cur)
    by (unfold cur, World.worldToChunk; cbn; by rewrite Hcfg).
  unfold World.update. rewrite Hcur. cbn [World.sameChunk World.lastPlayerChunk w0
    World.config World.scene World.chunks]. rewrite Hcfg. fold vd.
  rewrite require_fold_resident.
  - cbn [World.world World.chunks World.events World.statics].
    rewrite sweep_fold_needed.
    + cbn. destruct w1 as [sc cfg ch last]. cbn in *. congruence.
    + intros [k c] Hkc%elem_of_map_to_list. cbn.
      apply elem_of_union. left. fold (visited cur vd). rewrite visited_exact by done.
      fold (activeWindow cur vd). rewrite <- Hdom. apply elem_of_dom. eauto.
  - intros d Hd. cbn. apply elem_of_dom. rewrite Hdom.
    unfold activeWindow. rewrite <- visited_exact by done.
    apply elem_of_list_to_set, list_elem_of_fmap_2. unfold visited.
    by apply list_elem_of_fmap_2.
Qed.

(** X24.  [forceUpdate] is idempotent (chunk size not 0, window in the range
    of exact integers): forced again at the same position it generates
    nothing, unloads nothing and leaves the object and the statics as the
    first call left them. *)
Theorem forceUpdate_twice_is_idle (pos : Vector3) (w : World.World) (st : Statics Entropy) :
  let cur := World.worldToChunk w pos in
  let vd := viewDistance (World.config w) in
  ~ (chunkSize (World.config w) == 0)%Q ->
  (Z.abs (x cur) + vd <= 2 ^ 53)%Z -> (Z.abs (z cur) + vd <= 2 ^ 53)%Z ->
  let r := forceUpdate pos w st in
  forceUpdate pos r.1.2 r.2 = ([], r.1.2, r.2).
Proof. intros cur vd _. apply forceUpdate_twice. Qed.

End SceneAndEvents.





Lemma update_generates_missing_chunks_once_witness :
  let start := World.forceUpdate Sample.Math_random Sample.createNoise2D
                 (THREE.vec 0 1.6 0) Sample.narrow_world Sample.statics' in
  NoDup (generated (World.update Sample.Math_random Sample.createNoise2D
                                 (THREE.vec 40 1.6 0) start.1.2 start.2).1.1).
Proof.
  cbv zeta.
  refine (proj1 (proj2 (update_generates_missing_chunks_once
                          Sample.Math_random Sample.createNoise2D
                          (THREE.vec 40 1.6 0) _ _ _ _ _ _))).
  - vm_compute. discriminate.
  - vm_compute. discriminate.
  - vm_compute. discriminate.
  - vm_compute. discriminate.
Defined.

Lemma update_unloads_chunks_outside_window_witness :
  let start := World.forceUpdate Sample.Math_random Sample.createNoise2D
                 (THREE.vec 0 1.6 0) Sample.narrow_world Sample.statics' in
  let evs := (World.update Sample.Math_random Sample.createNoise2D
                           (THREE.vec 40 1.6 0) start.1.2 start.2).1.1 in
  length (disposed evs) = length (unloaded evs).
Proof.
  cbv zeta.
  refine (proj1 (proj2 (proj2 (proj2 (update_unloads_chunks_outside_window
                          Sample.Math_random Sample.createNoise2D
                          (THREE.vec 40 1.6 0) _ _ _ _ _ _))))).
  - vm_compute. discriminate.
  - vm_compute. discriminate.
  - vm_compute. discriminate.
  - vm_compute. discriminate.
Defined.

Lemma update_twice_is_idle_witness :
  let r := World.update Sample.Math_random Sample.createNoise2D
             (THREE.vec 40 1.6 0) Sample.narrow_world Sample.statics' in
  World.update Sample.Math_random Sample.createNoise2D (THREE.vec 40 1.6 0) r.1.2 r.2
  = ([], r.1.2, r.2).
Proof.
  cbv zeta.
  apply (update_twice_is_idle Sample.Math_random Sample.createNoise2D (THREE.vec 40 1.6 0)
           Sample.narrow_world Sample.statics').
  vm_compute. discriminate.
Defined.

Lemma session_resident_chunks_witness :
  let r := World.forceUpdate Sample.Math_random Sample.createNoise2D
             (THREE.vec 0 1.6 0) Sample.world Sample.statics' in
  let w' := (frames Sample.Math_random Sample.createNoise2D
               [THREE.vec 40 1.6 0; THREE.vec 70 1.6 (-5)] r.1.2 r.2).1 in
  Z.of_nat (World.getChunkCount w') = (2 * 3 + 1) * (2 * 3 + 1).
Proof.
  cbv zeta.
  refine (proj2 (session_resident_chunks Sample.Math_random Sample.createNoise2D
                   (THREE.vec 0 1.6 0) [THREE.vec 40 1.6 0; THREE.vec 70 1.6 (-5)]
                   Sample.world Sample.statics' _ _ _)).
  - vm_compute. discriminate.
  - repeat (apply Forall_cons; split; [split; vm_compute; discriminate|]). constructor.
  - vm_compute. discriminate.
Defined.


Lemma update_negative_view_distance_unloads_all_witness :
  let config := {| chunkSize := 32; viewDistance := -1; wallHeight := 3; corridorWidth := 3;
                   seed := 42 |} in
  let chunk := (new_Chunk Sample.Math_random Sample.createNoise2D {| x := 0; z := 0 |}
                          config Sample.statics').1 in
  let w := {| World.scene := [0; 1]%nat; World.config := config;
              World.chunks := {[ World.chunkKey {| x := 0; z := 0 |} := chunk ]};
              World.lastPlayerChunk := Some {| x := 0; z := 0 |} |} in
  World.chunks (World.update Sample.Math_random Sample.createNoise2D
                             (THREE.vec 40 1.6 0) w Sample.statics').1.2 = ∅.
Proof.
  intros config chunk w.
  refine (proj1 (update_negative_view_distance_unloads_all
                   Sample.Math_random Sample.createNoise2D
                   (THREE.vec 40 1.6 0) w Sample.statics' _ _ _)).
  - vm_compute. discriminate.
  - reflexivity.
  - vm_compute. discriminate.
Defined.

Lemma forceUpdate_twice_is_idle_witness :
  let r := World.forceUpdate Sample.Math_random Sample.createNoise2D
             (THREE.vec 40 1.6 0) Sample.narrow_world Sample.statics' in
  World.forceUpdate Sample.Math_random Sample.createNoise2D (THREE.vec 40 1.6 0) r.1.2 r.2
  = ([], r.1.2, r.2).
Proof.
  cbv zeta.
  apply (forceUpdate_twice_is_idle Sample.Math_random Sample.createNoise2D
           (THREE.vec 40 1.6 0) Sample.narrow_world Sample.statics').
  - vm_compute. discriminate.
  - vm_compute. discriminate.
  - vm_compute. discriminate.
Defined.

(** ** The relay over any sequence of inputs *)

Section RelayInvariants.

Import Server.

Lemma run_cons (i : Input) (inputs : list Input) (r : Relay) :
  (run (i :: inputs) r).2 = (run inputs (step i r).2).2.
Proof.
  cbn [run]. destruct (step i r) as [out r1]. cbn [snd].
  destruct (run inputs r1) as [rest r2]. reflexivity.
Qed.

Lemma step_keyed (i : Input) (r : Relay) : keyed r -> keyed (step i r).2.
Proof.
  intros Hk k p. destruct i as [s|s data now|s|]; cbn.
  - destruct (decide (k = s)) as [->|Hne].
    + rewrite lookup_insert_eq. by intros [= <-].
    + rewrite lookup_insert_ne by done. apply Hk.
  - unfold on_move. destruct (players r !! s) as [q|] eqn:Hq; [|apply Hk].
    assert (Hid : id q = s) by by apply Hk.
    destruct (BROADCAST_INTERVAL <? JS.sub now (lastBroadcast r)); cbn;
      (destruct (decide (k = s)) as [->|Hne];
       [rewrite lookup_insert_eq; by intros [= <-]
       |rewrite lookup_insert_ne by done; apply Hk]).
  - destruct (decide (k = s)) as [->|Hne].
    + by rewrite lookup_delete_eq.
    + rewrite lookup_delete_ne by done. apply Hk.
  - apply Hk.
Qed.

Lemma run_keyed (inputs : list Input) (r : Relay) : keyed r -> keyed (run inputs r).2.
Proof.
  revert r. induction inputs as [|i inputs IH]; intros r Hk; [exact Hk|].
  rewrite run_cons. by apply IH, step_keyed.
Qed.

Lemma start_keyed : keyed start.
Proof. intros k p. cbn. by rewrite lookup_empty. Qed.

Lemma keyed_roster_ids (r : Relay) : keyed r -> id <$> roster r = (map_to_list (players r)).*1.
Proof.
  intros Hk. unfold roster. rewrite <- list_fmap_compose.
  apply list_fmap_ext. intros _ [k p] Hkp%list_elem_of_lookup_2%elem_of_map_to_list. cbn.
  by apply Hk.
Qed.

Lemma keyed_roster_set (r : Relay) :
  keyed r -> list_to_set (id <$> roster r) = dom (players r).
Proof.
  intros Hk. rewrite keyed_roster_ids by exact Hk. apply set_eq. intros k.
  rewrite elem_of_list_to_set, list_elem_of_fmap, elem_of_dom. split.
  - intros ([k' p] & -> & Hp%elem_of_map_to_list). eauto.
  - intros [p Hp]. exists (k, p). split; [done|]. by apply elem_of_map_to_list.
Qed.

(** X13.  Whatever happened to the relay since it started, every state
    object is stored under the identifier it carries, so that no roster it
    sends lists an identifier twice, and a roster has one entry per stored
    state object. *)
Theorem relay_roster_ids_unique (inputs : list Input) :
  let r := (run inputs start).2 in
  keyed r /\ NoDup (id <$> roster r) /\ length (roster r) = size (players r).
Proof.
  cbv zeta. pose proof (run_keyed inputs start start_keyed) as Hk. split_and!.
  - exact Hk.
  - rewrite keyed_roster_ids by exact Hk. apply NoDup_fst_map_to_list.
  - unfold roster. by rewrite length_fmap, length_map_to_list.
Qed.

Lemma step_dom (i : Input) (r : Relay) :
  dom (players (step i r).2) = connected_after [i] (dom (players r)).
Proof.
  destruct i as [s|s data now|s|]; cbn.
  - apply dom_insert_L.
  - unfold on_move. destruct (players r !! s) as [q|] eqn:Hq; [|done].
    assert (Hin : s ∈ dom (players r)) by (apply elem_of_dom; eauto).
    destruct (BROADCAST_INTERVAL <? JS.sub now (lastBroadcast r)); cbn;
      rewrite dom_insert_L; by apply subseteq_union_1_L, singleton_subseteq_l.
  - apply dom_delete_L.
  - done.
Qed.

(** X14.  The relay holds a state object for exactly the sockets that
    connected and did not disconnect since: a [move] (also of a socket
    without a state object) and the roster timer neither add nor remove
    one. *)
Theorem relay_membership (inputs : list Input) (r : Relay) :
  dom (players (run inputs r).2) = connected_after inputs (dom (players r))
  /\ (forall s data now, dom (players (on_move s data now r).2) = dom (players r))
  /\ dom (players (on_roster_timer r).2) = dom (players r).
Proof.
  split_and!.
  - revert r. induction inputs as [|i inputs IH]; intros r; [done|].
    rewrite run_cons, IH, step_dom. done.
  - intros s data now. apply (step_dom (Move s data now) r).
  - done.
Qed.

Lemma step_lastBroadcast (i : Input) (r : Relay) :
  lastBroadcast r <= lastBroadcast (step i r).2.
Proof.
  pose proof (step_broadcast i r) as Hs.
  destruct i as [s|s data now|s|]; try lia.
  destruct (existsb is_player_moved (step (Move s data now) r).1).
  - unfold BROADCAST_INTERVAL in Hs. lia.
  - lia.
Qed.

(** X15.  The time stamp [lastBroadcast] never decreases, whatever the
    inputs and whatever the readings of the clock they carry (also readings
    that go backwards). *)
Theorem relay_lastBroadcast_monotone (inputs : list Input) (r : Relay) :
  lastBroadcast r <= lastBroadcast (run inputs r).2.
Proof.
  revert r. induction inputs as [|i inputs IH]; intros r; [done|].
  rewrite run_cons. pose proof (step_lastBroadcast i r). specialize (IH (step i r).2). lia.
Qed.

(** X16.  A [move] of a connected socket is never lost: whether or not it
    was broadcast, a roster that the timer sends in the state the [move]
    left goes to every socket and holds the state object of the sender with
    the position and the rotation of the [move]. *)
Theorem throttled_move_reaches_roster (socket_id : string) (data : MoveData) (now : Z)
    (r : Relay) (p : Player) :
  players r !! socket_id = Some p ->
  let p' := {| id := id p; position := data_position data; rotation := data_rotation data |} in
  let r' := (on_move socket_id data now r).2 in
  on_roster_timer r' = ([(ToAll, msg_players (roster r'))], r')
  /\ p' ∈ roster r'.
Proof.
  intros Hp p' r'.
  destruct (on_move_spec socket_id data now r p Hp) as (Hplayers & _). fold r' p' in Hplayers.
  assert (Hl : players r' !! socket_id = Some p') by (rewrite Hplayers; apply lookup_insert_eq).
  split.
  - unfold on_roster_timer.
    assert (size (players r') <> 0%nat).
    { intros Hz. apply map_size_empty_iff in Hz. rewrite Hz in Hl. by rewrite lookup_empty in Hl. }
    destruct (Nat.ltb_spec 0 (size (players r'))); [done|lia].
  - unfold roster. apply list_elem_of_fmap. exists (socket_id, p'). split; [done|].
    by apply elem_of_map_to_list.
Qed.

End RelayInvariants.

Lemma throttled_move_reaches_roster_witness :
  let r := (Server.run [Server.Connection "a"; Server.Connection "b";
                        Server.Move "a" {| Server.data_position := THREE.vec 1 1.6 1;
                                           Server.data_rotation := 0 |} 1000]
                       Server.start).2 in
  let data := {| Server.data_position := THREE.vec 2 1.6 2; Server.data_rotation := 1 |} in
  let r' := (Server.on_move "b" data 1030 r).2 in
  (Server.on_move "b" data 1030 r).1 = []
  /\ {| Server.id := "b"; Server.position := THREE.vec 2 1.6 2; Server.rotation := 1 |}
     ∈ Server.roster r'.
Proof.
  cbv zeta. split; [reflexivity|].
  exact (proj2 (throttled_move_reaches_roster "b"
                  {| Server.data_position := THREE.vec 2 1.6 2; Server.data_rotation := 1 |}
                  1030
                  (Server.run [Server.Connection "a"; Server.Connection "b";
                               Server.Move "a" {| Server.data_position := THREE.vec 1 1.6 1;
                                                  Server.data_rotation := 0 |} 1000]
                              Server.start).2
                  {| Server.id := "b"; Server.position := THREE.vec 0 1.6 0;
                     Server.rotation := 0 |} eq_refl)).
Defined.

(** ** The client of the relay *)

Section Client.

Import Multiplayer.

Implicit Types (m : Multiplayer) (player : PlayerState).

(** What [updatePlayerPosition] does to the map of avatars. *)
Lemma updatePlayerPosition_players player m :
  Server.id player <> localPlayerId m ->
  exists avatar,
    players (updatePlayerPosition player m) = <[Server.id player := avatar]> (players m)
    /\ avatar_position avatar = lerp (avatar_start m (Server.id player)) (target player) 0.1
    /\ avatar_rotation_y avatar = Server.rotation player
    /\ avatar_id avatar = match players m !! Server.id player with
                          | Some a => avatar_id a
                          | None => nextObjectId m
                          end.
Proof.
  intros Hne. unfold updatePlayerPosition, avatar_start. rewrite decide_False by exact Hne.
  destruct (players m !! Server.id player) as [a|]; cbn; eexists; split_and!; reflexivity.
Qed.

Lemma updatePlayerPosition_local player m :
  localPlayerId (updatePlayerPosition player m) = localPlayerId m.
Proof.
  unfold updatePlayerPosition. case_decide; [done|].
  destruct (players m !! Server.id player); reflexivity.
Qed.

Lemma updatePlayerPosition_dom player m :
  dom (players (updatePlayerPosition player m))
  = (if decide (Server.id player = localPlayerId m) then ∅ else {[ Server.id player ]})
    ∪ dom (players m).
Proof.
  destruct (decide (Server.id player = localPlayerId m)) as [Heq|Hne].
  - unfold updatePlayerPosition. rewrite decide_True by exact Heq. by rewrite union_empty_l_L.
  - destruct (updatePlayerPosition_players player m Hne) as (a & -> & _). apply dom_insert_L.
Qed.

(** The second loop of [updatePlayers]. *)
Lemma update_loop (roster : list PlayerState) m :
  let m' := fold_left (fun m0 (q : Server.Player) =>
                         if decide (Server.id q = localPlayerId m0) then m0
                         else updatePlayerPosition q m0) roster m in
  localPlayerId m' = localPlayerId m
  /\ dom (players m')
     = (list_to_set (Server.id <$> roster) ∖ {[ localPlayerId m ]}) ∪ dom (players m).
Proof.
  revert m. induction roster as [|p roster IH]; intros m; cbn [fold_left].
  - cbn. split; [done|]. apply set_eq. intros k.
    rewrite elem_of_union, elem_of_difference, elem_of_empty. tauto.
  - set (m1 := if decide (Server.id p = localPlayerId m) then m else updatePlayerPosition p m).
    assert (Hl : localPlayerId m1 = localPlayerId m).
    { unfold m1. case_decide; [done|apply updatePlayerPosition_local]. }
    assert (Hd : dom (players m1)
                 = (if decide (Server.id p = localPlayerId m) then ∅ else {[ Server.id p ]})
                   ∪ dom (players m)).
    { unfold m1. case_decide as Hp; [by rewrite union_empty_l_L|].
      rewrite updatePlayerPosition_dom. by rewrite decide_False. }
    destruct (IH m1) as [IH1 IH2]. cbv zeta in *. rewrite IH1, IH2, Hl, Hd. split; [done|].
    apply set_eq. intros k. rewrite fmap_cons, list_to_set_cons.
    rewrite !elem_of_union, !elem_of_difference, elem_of_union, !elem_of_singleton.
    case_decide as Hp.
    + rewrite elem_of_empty. split; [tauto|]. intros [[[->|Hk] Hn]|Hk]; tauto.
    + rewrite elem_of_singleton.
      split; [intros [[? ?]|[->|?]]; auto|intros [[[->|?] ?]|?]; auto].
Qed.

(** The first loop of [updatePlayers]. *)
Lemma prune_loop (currentIds : gset string) (entries : list (string * Avatar)) m :
  let m' := fold_left (prune currentIds) entries m in
  localPlayerId m' = localPlayerId m
  /\ nextObjectId m' = nextObjectId m
  /\ (forall k, players m' !! k =
        if decide (k ∈ entries.*1 /\ k ∉ currentIds) then None else players m !! k).
Proof.
  revert m. induction entries as [|[key avatar] entries IH]; intros m; cbn [fold_left].
  - cbn. split_and!; done.
  - destruct (IH (prune currentIds m (key, avatar))) as (L & N & K). cbv zeta in *.
    rewrite L, N. unfold prune in *.
    destruct (decide (key ∈ currentIds)) as [Hin|Hout].
    + split_and!; try done. intros k. rewrite K. apply decide_ext. cbn. rewrite elem_of_cons.
      split; [tauto|]. intros [[->|Hk] Hn]; tauto.
    + cbn in *. split_and!; try done. intros k. rewrite K.
      destruct (decide (k = key)) as [->|Hne].
      * rewrite (decide_True (P := key ∈ key :: entries.*1 /\ _)).
        -- case_decide; [done|apply lookup_delete_eq].
        -- split; [apply elem_of_cons; by left|done].
      * rewrite lookup_delete_ne by done. apply decide_ext. rewrite elem_of_cons. tauto.
Qed.

Lemma updatePlayers_dom (roster : list PlayerState) m :
  localPlayerId (updatePlayers roster m) = localPlayerId m
  /\ dom (players (updatePlayers roster m))
     = (list_to_set (Server.id <$> roster) ∖ {[ localPlayerId m ]})
       ∪ (dom (players m) ∩ list_to_set (Server.id <$> roster)).
Proof.
  unfold updatePlayers. cbv zeta.
  set (ids := list_to_set (Server.id <$> roster) : gset string).
  destruct (prune_loop ids (map_to_list (players m)) m) as (L & _ & K).
  set (m1 := fold_left (prune ids) (map_to_list (players m)) m) in *.
  destruct (update_loop roster m1) as [L2 D2]. cbv zeta in *. fold ids in D2.
  rewrite L2, D2, L. split; [done|]. f_equal.
  apply set_eq. intros k. rewrite elem_of_intersection, !elem_of_dom, K.
  destruct (decide (k ∈ ids)) as [Hk|Hk].
  - rewrite decide_False by tauto. tauto.
  - split; [|tauto]. case_decide as Hgone; [by intros [? ?]|].
    intros [a Ha]. exfalso. apply Hgone. split; [|done].
    apply list_elem_of_fmap. exists (k, a). split; [done|]. by apply elem_of_map_to_list.
Qed.

(** X18.  After a [players] message the client has an avatar for exactly the
    identifiers of the roster other than its own, and for its own identifier
    only if it had one before and the roster lists it; the local identifier
    is left as it was. *)
Theorem client_roster_sync (roster : list PlayerState) m :
  let m' := (handle (on_players roster) m).2 in
  localPlayerId m' = localPlayerId m
  /\ dom (players m')
     = (list_to_set (Server.id <$> roster) ∖ {[ localPlayerId m ]})
       ∪ (dom (players m) ∩ list_to_set (Server.id <$> roster))
  /\ (forall k, k <> localPlayerId m ->
        k ∈ dom (players m') <-> k ∈ (Server.id <$> roster)).
Proof.
  cbv zeta. cbn [handle snd]. destruct (updatePlayers_dom roster m) as [Hl Hd].
  split_and!; [exact Hl|exact Hd|].
  intros k Hk. rewrite Hd, elem_of_union, elem_of_difference, elem_of_intersection,
    elem_of_singleton, elem_of_list_to_set. tauto.
Qed.

Lemma handle_no_local_avatar (i : Input) m :
  is_on_connect i = false ->
  players m !! localPlayerId m = None ->
  localPlayerId (handle i m).2 = localPlayerId m
  /\ players (handle i m).2 !! localPlayerId m = None.
Proof.
  intros Hi Hnone. destruct i as [s| | |roster|p|k|p]; try discriminate; cbn.
  - done.
  - done.
  - destruct (updatePlayers_dom roster m) as [Hl Hd]. split; [exact Hl|].
    apply not_elem_of_dom. rewrite Hd.
    apply not_elem_of_dom in Hnone.
    rewrite elem_of_union, elem_of_difference, elem_of_intersection, elem_of_singleton. tauto.
  - unfold addPlayer. case_decide as Hp; [done|].
    destruct (players m !! Server.id p); [done|]. cbn. split; [done|].
    rewrite lookup_insert_ne by done. exact Hnone.
  - unfold removePlayer. destruct (players m !! k); [|done]. cbn. split; [done|].
    destruct (decide (k = localPlayerId m)) as [->|Hne].
    + apply lookup_delete_eq.
    + rewrite lookup_delete_ne by done. exact Hnone.
  - split; [apply updatePlayerPosition_local|].
    apply not_elem_of_dom. rewrite updatePlayerPosition_dom.
    apply not_elem_of_dom in Hnone. case_decide as Hp.
    + rewrite union_empty_l_L. exact Hnone.
    + rewrite elem_of_union, elem_of_singleton. intros [Heq|?]; [congruence|done].
Qed.

(** X17.  The client never draws its own player: when it has no avatar under
    its own identifier, it has none after any sequence of messages of the
    relay, lost connections included, that holds no new [connect] (which
    gives the client another identifier); its identifier stays the same. *)
Theorem client_never_draws_local_player (inputs : list Input) m :
  forallb (fun i => negb (is_on_connect i)) inputs = true ->
  players m !! localPlayerId m = None ->
  localPlayerId (deliver inputs m) = localPlayerId m
  /\ players (deliver inputs m) !! localPlayerId m = None.
Proof.
  revert m. induction inputs as [|i inputs IH]; intros m Hin Hnone; [done|].
  cbn in Hin. apply andb_true_iff in Hin as [Hi Hin]. apply negb_true_iff in Hi.
  destruct (handle_no_local_avatar i m Hi Hnone) as [Hl Hp].
  cbn [deliver fold_left]. fold (deliver inputs (handle i m).2).
  destruct (IH (handle i m).2 Hin) as [IHl IHp]; [by rewrite Hl|].
  rewrite IHl, Hl in *. done.
Qed.

(** The avatars of the scene. *)

Lemma avatars_insert_new (k : string) (a : Avatar) m sc n :
  players m !! k = None ->
  avatars (with_avatars m sc (<[k := a]> (players m)) n) ≡ₚ avatar_id a :: avatars m.
Proof.
  intros Hk. unfold avatars. cbn. by rewrite map_to_list_insert.
Qed.

Lemma avatars_delete (k : string) (a : Avatar) m sc n :
  players m !! k = Some a ->
  avatar_id a :: avatars (with_avatars m sc (delete k (players m)) n) ≡ₚ avatars m.
Proof.
  intros Hk. unfold avatars. cbn. by rewrite <- (map_to_list_delete _ _ _ Hk).
Qed.

Lemma avatars_insert_same (k : string) (a a' : Avatar) m sc n :
  players m !! k = Some a -> avatar_id a' = avatar_id a ->
  avatars (with_avatars m sc (<[k := a']> (players m)) n) ≡ₚ avatars m.
Proof.
  intros Hk Hid. rewrite <- (avatars_delete k a m sc n Hk). unfold avatars. cbn.
  rewrite <- insert_delete_eq, map_to_list_insert by apply lookup_delete_eq.
  cbn. by rewrite Hid.
Qed.

Lemma addPlayer_scene player m (others : list nat) :
  scene m ≡ₚ others ++ avatars m ->
  scene (addPlayer player m) ≡ₚ others ++ avatars (addPlayer player m).
Proof.
  intros Hinv. unfold addPlayer. case_decide; [done|].
  destruct (players m !! Server.id player) eqn:Hk; [done|].
  cbn [createPlayerAvatar avatar_id]. rewrite avatars_insert_new by done. cbn.
  unfold World.scene_add. rewrite <- Permutation_cons_append, <- Permutation_middle.
  by apply Permutation_skip.
Qed.

Lemma removePlayer_scene (k : string) m (others : list nat) :
  scene m ≡ₚ others ++ avatars m ->
  scene (removePlayer k m) ≡ₚ others ++ avatars (removePlayer k m).
Proof.
  intros Hinv. unfold removePlayer. destruct (players m !! k) as [a|] eqn:Hk; [|done].
  cbn [scene with_avatars]. apply scene_remove_tracks.
  etrans; [exact Hinv|]. apply Permutation_app_head. symmetry.
  apply (avatars_delete k a m _ _ Hk).
Qed.

Lemma updatePlayerPosition_scene player m (others : list nat) :
  scene m ≡ₚ others ++ avatars m ->
  scene (updatePlayerPosition player m) ≡ₚ others ++ avatars (updatePlayerPosition player m).
Proof.
  intros Hinv. unfold updatePlayerPosition. case_decide; [done|].
  destruct (players m !! Server.id player) as [a|] eqn:Hk.
  - rewrite avatars_insert_same with (a := a) by done. exact Hinv.
  - cbn [createPlayerAvatar avatar_id]. rewrite avatars_insert_new by done. cbn.
    unfold World.scene_add. rewrite <- Permutation_cons_append, <- Permutation_middle.
    by apply Permutation_skip.
Qed.

Lemma prune_loop_scene (currentIds : gset string) (entries : list (string * Avatar)) m
    (others : list nat) :
  NoDup entries.*1 ->
  (forall k a, (k, a) ∈ entries -> players m !! k = Some a) ->
  scene m ≡ₚ others ++ avatars m ->
  let m' := fold_left (prune currentIds) entries m in
  scene m' ≡ₚ others ++ avatars m'.
Proof.
  revert m. induction entries as [|[key a] entries IH]; intros m Hnd Hin Hinv; cbn;
    [exact Hinv|].
  apply NoDup_cons in Hnd as [Hkey Hnd].
  destruct (decide (key ∈ currentIds)) as [Hcur|Hout].
  - apply IH; [exact Hnd| |exact Hinv]. intros k c Hkc. apply Hin. by right.
  - assert (Hres : players m !! key = Some a) by (apply Hin; by left).
    apply IH; [exact Hnd| |].
    + intros k c Hkc. cbn. rewrite lookup_delete_ne.
      * apply Hin. by right.
      * intros ->. apply Hkey. apply list_elem_of_fmap. by exists (k, c).
    + cbn [scene with_avatars]. apply scene_remove_tracks.
      etrans; [exact Hinv|]. apply Permutation_app_head. symmetry.
      apply (avatars_delete key a m _ _ Hres).
Qed.

Lemma updatePlayers_scene (roster : list PlayerState) m (others : list nat) :
  scene m ≡ₚ others ++ avatars m ->
  scene (updatePlayers roster m) ≡ₚ others ++ avatars (updatePlayers roster m).
Proof.
  intros Hinv. unfold updatePlayers. cbv zeta.
  set (ids := list_to_set (Server.id <$> roster) : gset string).
  pose proof (prune_loop_scene ids (map_to_list (players m)) m others
                (NoDup_fst_map_to_list _)
                (fun k a H => proj1 (elem_of_map_to_list _ _ _) H) Hinv) as H1.
  cbv zeta in H1. revert H1. generalize (fold_left (prune ids) (map_to_list (players m)) m).
  induction roster as [|p roster IH]; intros m1 H1; [exact H1|].
  cbn [fold_left]. apply IH. case_decide; [exact H1|]. by apply updatePlayerPosition_scene.
Qed.

Lemma handle_scene (i : Input) m (others : list nat) :
  scene m ≡ₚ others ++ avatars m ->
  scene (handle i m).2 ≡ₚ others ++ avatars (handle i m).2.
Proof.
  intros Hinv. destruct i as [s| | |roster|p|k|p]; cbn [handle snd].
  - exact Hinv.
  - exact Hinv.
  - exact Hinv.
  - by apply updatePlayers_scene.
  - by apply addPlayer_scene.
  - by apply removePlayer_scene.
  - by apply updatePlayerPosition_scene.
Qed.

Lemma deliver_scene (inputs : list Input) m (others : list nat) :
  scene m ≡ₚ others ++ avatars m ->
  scene (deliver inputs m) ≡ₚ others ++ avatars (deliver inputs m).
Proof.
  revert m. induction inputs as [|i inputs IH]; intros m Hinv; [exact Hinv|].
  cbn [deliver fold_left]. apply IH, handle_scene, Hinv.
Qed.

Lemma remove_all_scene (l : list Avatar) (sc others : list nat) :
  sc ≡ₚ others ++ (avatar_id <$> l) ->
  fold_left (fun scene avatar => World.scene_remove (avatar_id avatar) scene) l sc ≡ₚ others.
Proof.
  revert sc. induction l as [|a l IH]; intros sc Hinv; cbn.
  - by rewrite app_nil_r in Hinv.
  - apply IH. by apply scene_remove_tracks.
Qed.

(** X19.  The scene follows the avatars: if the children of the scene are
    the avatars of the client and a list of other objects, the same holds,
    with the same other objects, after any sequence of messages of the
    relay, so that the avatar of every player that left is out of the scene;
    and after [disconnect] the scene holds the other objects only and the
    client has no avatar. *)
Theorem client_scene_tracks_avatars (inputs : list Input) m (others : list nat) :
  scene m ≡ₚ others ++ avatars m ->
  scene (deliver inputs m) ≡ₚ others ++ avatars (deliver inputs m)
  /\ scene (disconnect (deliver inputs m)) ≡ₚ others
  /\ players (disconnect (deliver inputs m)) = ∅.
Proof.
  intros Hinv. pose proof (deliver_scene inputs m others Hinv) as Hd.
  split_and!; [exact Hd| |reflexivity].
  cbn. apply remove_all_scene. unfold avatars in Hd. by rewrite <- list_fmap_compose.
Qed.

Local Open Scope Q_scope.

Lemma updatePlayerPosition_step player m :
  Server.id player <> localPlayerId m ->
  let m' := updatePlayerPosition player m in
  let p := avatar_start m (Server.id player) in
  let p' := avatar_start m' (Server.id player) in
  localPlayerId m' = localPlayerId m
  /\ (exists a, players m' !! Server.id player = Some a
                /\ avatar_rotation_y a = Server.rotation player)
  /\ THREE.x (target player) - THREE.x p' == (9 # 10) * (THREE.x (target player) - THREE.x p)
  /\ THREE.z (target player) - THREE.z p' == (9 # 10) * (THREE.z (target player) - THREE.z p)
  /\ THREE.y p' == (9 # 10) * THREE.y p.
Proof.
  intros Hne. cbv zeta.
  destruct (updatePlayerPosition_players player m Hne) as (a & Hp & Hpos & Hrot & _).
  split; [apply updatePlayerPosition_local|].
  unfold avatar_start at 1 3 5. rewrite Hp, lookup_insert_eq. split; [eauto|].
  rewrite Hpos. cbn. split_and!; ring.
Qed.

(** X20.  Every [player_moved] (or roster entry) for a player other than
    the local one moves the avatar of that player a tenth of the way to the
    target (the position of the player at the height 0), starting from the
    origin when the client had no avatar for it: after [n] such messages with
    the same state the horizontal offsets from the target are [0.9^n] times
    what they were, and so is the height; the last one leaves an avatar with
    the rotation of the message. *)
Theorem avatar_approaches_target (n : nat) player m :
  Server.id player <> localPlayerId m ->
  let m' := Nat.iter n (updatePlayerPosition player) m in
  let p := avatar_start m (Server.id player) in
  let p' := avatar_start m' (Server.id player) in
  localPlayerId m' = localPlayerId m
  /\ THREE.x (target player) - THREE.x p'
     == (9 # 10) ^ Z.of_nat n * (THREE.x (target player) - THREE.x p)
  /\ THREE.z (target player) - THREE.z p'
     == (9 # 10) ^ Z.of_nat n * (THREE.z (target player) - THREE.z p)
  /\ THREE.y p' == (9 # 10) ^ Z.of_nat n * THREE.y p
  /\ exists a, players (updatePlayerPosition player m') !! Server.id player = Some a
               /\ avatar_rotation_y a = Server.rotation player.
Proof.
  intros Hne. cbv zeta.
  assert (Hiter : localPlayerId (Nat.iter n (updatePlayerPosition player) m) = localPlayerId m
    /\ THREE.x (target player)
       - THREE.x (avatar_start (Nat.iter n (updatePlayerPosition player) m) (Server.id player))
       == (9 # 10) ^ Z.of_nat n
          * (THREE.x (target player) - THREE.x (avatar_start m (Server.id player)))
    /\ THREE.z (target player)
       - THREE.z (avatar_start (Nat.iter n (updatePlayerPosition player) m) (Server.id player))
       == (9 # 10) ^ Z.of_nat n
          * (THREE.z (target player) - THREE.z (avatar_start m (Server.id player)))
    /\ THREE.y (avatar_start (Nat.iter n (updatePlayerPosition player) m) (Server.id player))
       == (9 # 10) ^ Z.of_nat n * THREE.y (avatar_start m (Server.id player))).
  { induction n as [|n (IHl & IHx & IHz & IHy)].
    - change (Nat.iter 0 (updatePlayerPosition player) m) with m.
      change ((9 # 10) ^ Z.of_nat 0) with 1. split_and!; [done|ring..].
    - rewrite Nat.iter_succ.
      destruct (updatePlayerPosition_step player (Nat.iter n (updatePlayerPosition player) m))
        as (Hl & _ & Hx & Hz & Hy); [by rewrite IHl|]. cbv zeta in *.
      rewrite Hl, Hx, Hz, Hy, IHx, IHz, IHy. split; [exact IHl|].
      rewrite Nat2Z.inj_succ. unfold Z.succ. rewrite Qpower_plus by discriminate.
      change ((9 # 10) ^ 1) with (9 # 10). split_and!; ring. }
  destruct Hiter as (Hl & Hx & Hz & Hy). split_and!; try assumption.
  destruct (updatePlayerPosition_step player (Nat.iter n (updatePlayerPosition player) m))
    as (_ & Ha & _); [by rewrite Hl|]. exact Ha.
Qed.

End Client.

Section EndToEnd.

Import Multiplayer.

(** X21.  The roster of the relay at the client: whatever happened to the
    relay since it started, a client without an avatar of its own that
    receives the roster has an avatar for exactly the other sockets that the
    relay holds a state object for; and if the relay holds one for the client
    too, [getPlayerCount] is the number of state objects of the relay, which
    is the length of the roster (the number handed to the callback of
    [players]). *)
Theorem roster_reaches_client (inputs : list Server.Input) (m : Multiplayer) :
  players m !! localPlayerId m = None ->
  let r := (Server.run inputs Server.start).2 in
  let m' := (handle (on_players (Server.roster r)) m).2 in
  dom (players m') = dom (Server.players r) ∖ {[ localPlayerId m ]}
  /\ (localPlayerId m ∈ dom (Server.players r) ->
      getPlayerCount m' = size (Server.players r)
      /\ getPlayerCount m' = length (Server.roster r)).
Proof.
  intros Hnone r m'.
  assert (Hk : keyed r) by (apply run_keyed, start_keyed).
  subst m'. cbn [handle snd].
  destruct (updatePlayers_dom (Server.roster r) m) as [_ Hd].
  rewrite keyed_roster_set in Hd by exact Hk.
  assert (Hdom : dom (players (updatePlayers (Server.roster r) m))
                 = dom (Server.players r) ∖ {[ localPlayerId m ]}).
  { rewrite Hd. apply set_eq. intros k. apply not_elem_of_dom in Hnone.
    rewrite elem_of_union, elem_of_intersection, elem_of_difference, elem_of_singleton.
    split; [|tauto]. intros [?|[Hin ?]]; [done|]. split; [done|]. intros ->. done. }
  split; [exact Hdom|]. intros Hin.
  assert (Hsize : getPlayerCount (updatePlayers (Server.roster r) m) = size (Server.players r)).
  { unfold getPlayerCount. rewrite <- size_dom, Hdom, size_difference
      by (by apply singleton_subseteq_l).
    rewrite size_singleton, size_dom.
    assert (size (Server.players r) <> 0%nat).
    { intros Hz. apply map_size_empty_iff in Hz. rewrite Hz, dom_empty_L in Hin.
      by apply not_elem_of_empty in Hin. }
    lia. }
  split; [exact Hsize|]. rewrite Hsize. unfold Server.roster.
  by rewrite length_fmap, length_map_to_list.
Qed.

End EndToEnd.

(** A client that connected under the identifier "a", in a scene that holds
    one other object, and two players as the relay describes them. *)
Lemma client_never_draws_local_player_witness :
  let m := (Multiplayer.handle (Multiplayer.on_connect "a")
              (Multiplayer.connect (Multiplayer.new_Multiplayer [0%nat] 1))).2 in
  let pa := {| Server.id := "a"; Server.position := THREE.vec 0 1.6 0; Server.rotation := 0 |} in
  let pb := {| Server.id := "b"; Server.position := THREE.vec 10 1.6 (-20);
               Server.rotation := 1 |} in
  let inputs := [Multiplayer.on_players [pa; pb]; Multiplayer.on_player_moved pa;
                 Multiplayer.on_player_joined pa; Multiplayer.on_disconnect;
                 Multiplayer.on_player_left "b"] in
  Multiplayer.players (deliver inputs m) !! "a" = None.
Proof.
  intros m pa pb inputs.
  refine (proj2 (client_never_draws_local_player inputs m _ _)).
  - reflexivity.
  - reflexivity.
Defined.

Lemma client_scene_tracks_avatars_witness :
  let m := (Multiplayer.handle (Multiplayer.on_connect "a")
              (Multiplayer.connect (Multiplayer.new_Multiplayer [0%nat] 1))).2 in
  let pa := {| Server.id := "a"; Server.position := THREE.vec 0 1.6 0; Server.rotation := 0 |} in
  let pb := {| Server.id := "b"; Server.position := THREE.vec 10 1.6 (-20);
               Server.rotation := 1 |} in
  let pc := {| Server.id := "c"; Server.position := THREE.vec 3 1.6 4; Server.rotation := 2 |} in
  let inputs := [Multiplayer.on_players [pa; pb]; Multiplayer.on_player_joined pc;
                 Multiplayer.on_player_left "b"; Multiplayer.on_player_moved pb] in
  Multiplayer.scene (Multiplayer.disconnect (deliver inputs m)) ≡ₚ [0%nat].
Proof.
  intros m pa pb pc inputs.
  refine (proj1 (proj2 (client_scene_tracks_avatars inputs m [0%nat] _))).
  vm_compute. reflexivity.
Defined.

Lemma avatar_approaches_target_witness :
  let m := (Multiplayer.handle (Multiplayer.on_connect "a")
              (Multiplayer.connect (Multiplayer.new_Multiplayer [0%nat] 1))).2 in
  let pb := {| Server.id := "b"; Server.position := THREE.vec 10 1.6 (-20);
               Server.rotation := 1 |} in
  let m' := Nat.iter 2 (Multiplayer.updatePlayerPosition pb) m in
  (10 - THREE.x (avatar_start m' "b") == (9 # 10) ^ 2 * (10 - 0))%Q.
Proof.
  intros m pb m'.
  refine (proj1 (proj2 (avatar_approaches_target 2 pb m _))).
  vm_compute. discriminate.
Defined.

Lemma roster_reaches_client_witness :
  let m := (Multiplayer.handle (Multiplayer.on_connect "a")
              (Multiplayer.connect (Multiplayer.new_Multiplayer [0%nat] 1))).2 in
  let r := (Server.run [Server.Connection "a"; Server.Connection "b"; Server.Connection "c";
                        Server.Disconnect "b"] Server.start).2 in
  let m' := (Multiplayer.handle (Multiplayer.on_players (Server.roster r)) m).2 in
  dom (Multiplayer.players m') = dom (Server.players r) ∖ {[ "a" ]}.
Proof.
  intros m r m'.
  refine (proj1 (roster_reaches_client
                   [Server.Connection "a"; Server.Connection "b"; Server.Connection "c";
                    Server.Disconnect "b"] m _)).
  reflexivity.
Defined.

(** ** The player *)

Local Open Scope Q_scope.

Lemma Qabs_scale (v k : Q) : 0 <= k -> k <= 1 -> Qabs (v * k) <= Qabs v.
Proof.
  intros H0 H1. rewrite Qabs_Qmult, (Qabs_pos k) by exact H0.
  pose proof (Qabs_nonneg v). nra.
Qed.

(** [Math.max(lo, Math.min(hi, v))] lies between the bounds. *)
Lemma clamp_bounds (lo hi v : Q) :
  lo <= hi -> lo <= Player.Math_max lo (Math_min hi v) /\ Player.Math_max lo (Math_min hi v) <= hi.
Proof.
  intros Hlh. unfold Player.Math_max, Math_min. split.
  - apply Q.le_max_l.
  - apply Q.max_lub; [exact Hlh|apply Q.le_min_l].
Qed.

Section PlayerFacts.

Context {Quaternion : Type}.
Variable setFromEuler : Vector3 -> Quaternion.
Variable setFromQuaternion : Quaternion -> Vector3.
Variable getWorldDirection : Quaternion -> Vector3.
Variable Math_atan2 : Q -> Q -> Q.
Variable Math_cos : Q -> Q.
Variable Math_sin : Q -> Q.

Local Abbreviation step :=
  (Player.step setFromEuler setFromQuaternion getWorldDirection Math_atan2 Math_cos Math_sin).
Local Abbreviation run :=
  (Player.run setFromEuler setFromQuaternion getWorldDirection Math_atan2 Math_cos Math_sin).
Local Abbreviation update :=
  (Player.update getWorldDirection Math_atan2 Math_cos Math_sin).

Lemma coasting_direction (p : Player.Player Quaternion) :
  no_net_direction p ->
  Qgtb (Player.length (Player.normalize (Player.direction p))) 0 = false.
Proof.
  intros [Hz Hx]. unfold Player.direction. rewrite Hz, Hx.
  destruct (Player.moveBackward p), (Player.moveRight p); vm_compute; reflexivity.
Qed.

Lemma update_coasting (dt : Q) (p : Player.Player Quaternion) :
  no_net_direction p -> 0 <= dt -> dt <= 0.1 ->
  let p' := update dt p in
  Qabs (THREE.x (Player.velocity p')) <= Qabs (THREE.x (Player.velocity p))
  /\ Qabs (THREE.z (Player.velocity p')) <= Qabs (THREE.z (Player.velocity p))
  /\ THREE.x (Player.position p') = THREE.x (Player.position p) + THREE.x (Player.velocity p') * dt
  /\ THREE.z (Player.position p') = THREE.z (Player.position p) + THREE.z (Player.velocity p') * dt.
Proof.
  intros Hdir H0 H1. cbv zeta. unfold Player.update.
  rewrite (coasting_direction p Hdir).
  set (vx := THREE.x (Player.velocity p)). set (vz := THREE.z (Player.velocity p)).
  set (speed := if Player.isRunning p then Player.runSpeed else Player.walkSpeed).
  assert (Hspeed : 0 < speed) by (unfold speed; destruct (Player.isRunning p); reflexivity).
  set (vx1 := vx - vx * Player.friction * dt). set (vz1 := vz - vz * Player.friction * dt).
  assert (Hx1 : Qabs vx1 <= Qabs vx).
  { assert (E : vx1 == vx * (1 - 10 * dt)) by (unfold vx1, Player.friction; ring).
    rewrite E. apply Qabs_scale; lra. }
  assert (Hz1 : Qabs vz1 <= Qabs vz).
  { assert (E : vz1 == vz * (1 - 10 * dt)) by (unfold vz1, Player.friction; ring).
    rewrite E. apply Qabs_scale; lra. }
  set (cs := Math_sqrt (vx1 * vx1 + vz1 * vz1)).
  unfold Qgtb. destruct (Qle_bool cs speed) eqn:Hcs;
    cbn [negb THREE.x THREE.z THREE.y THREE.vec Player.velocity Player.position].
  - split_and!; done.
  - assert (Hlt : speed < cs).
    { apply Qnot_le_lt. intros Hle. apply Qle_bool_iff in Hle. congruence. }
    assert (Hk : 0 <= speed / cs /\ speed / cs <= 1).
    { split.
      - apply Qle_shift_div_l; lra.
      - apply Qle_shift_div_r; lra. }
    split_and!; try reflexivity.
    + assert (E : vx1 / cs * speed == vx1 * (speed / cs)) by (field; lra).
      rewrite E. eapply Qle_trans; [apply Qabs_scale; tauto|exact Hx1].
    + assert (E : vz1 / cs * speed == vz1 * (speed / cs)) by (field; lra).
      rewrite E. eapply Qle_trans; [apply Qabs_scale; tauto|exact Hz1].
Qed.

(** X25.  A frame in which no direction is held, or the directions held
    cancel each other (forward with backward, left with right), never
    accelerates the player: with the frame time capped at 0.1 as main.ts does,
    neither horizontal component of the velocity grows in magnitude, whatever
    the camera looks at, and the position advances by the new velocity times
    the capped frame time. *)
Theorem frame_without_direction_never_accelerates (delta : Q)
    (p : Player.Player Quaternion) :
  no_net_direction p -> 0 <= delta ->
  let dt := Math_min delta 0.1 in
  let p' := step p (Player.Frame delta) in
  Qabs (THREE.x (Player.velocity p')) <= Qabs (THREE.x (Player.velocity p))
  /\ Qabs (THREE.z (Player.velocity p')) <= Qabs (THREE.z (Player.velocity p))
  /\ THREE.x (Player.position p') = THREE.x (Player.position p) + THREE.x (Player.velocity p') * dt
  /\ THREE.z (Player.position p') = THREE.z (Player.position p) + THREE.z (Player.velocity p') * dt.
Proof.
  intros Hdir H0 dt p'. apply update_coasting; [exact Hdir| |].
  - unfold dt, Math_min. apply Q.min_glb; [exact H0|]. vm_compute. discriminate.
  - apply Q.le_min_r.
Qed.

(** The quaternion of a new camera. *)
Variable identity : Quaternion.

Lemma step_invariant (p : Player.Player Quaternion) (i : Player.Input) :
  player_invariant p -> player_invariant (step p i).
Proof.
  intros (Hy & Hcam & Hvy & Hlo & Hhi). unfold player_invariant.
  destruct i as [code|code|mx my|locked|delta]; cbn [Player.step].
  - unfold Player.onKeyDown. destruct (Player.flag_of_code code); cbn; done.
  - unfold Player.onKeyUp. destruct (Player.flag_of_code code); cbn; done.
  - unfold Player.onMouseMove. destruct (Player.isLocked p); cbn; [|done].
    split_and!; try done; apply clamp_bounds; vm_compute; discriminate.
  - cbn. done.
  - unfold Player.update. repeat case_match; cbn; done.
Qed.

Lemma run_invariant (inputs : list Player.Input) (p : Player.Player Quaternion) :
  player_invariant p -> player_invariant (run inputs p).
Proof.
  revert p. induction inputs as [|i inputs IH]; intros p Hp; [exact Hp|].
  apply IH, step_invariant, Hp.
Qed.

Lemma new_Player_invariant : player_invariant (Player.new_Player identity).
Proof. unfold player_invariant. cbn. split_and!; try reflexivity; vm_compute; discriminate. Qed.

(** X26.  Whatever the keys, the mouse, the pointer lock and the frames do,
    and whatever numbers three.js and the trigonometric functions return:
    the player stays at eye height (1.6, shown as 1 by [getCoordinates]) with
    no vertical velocity, the camera is at the position of the player, and
    the pitch of the player stays between [-Math.PI / 2] and [Math.PI / 2]. *)
Theorem player_invariants (inputs : list Player.Input) :
  let p := run inputs (Player.new_Player identity) in
  player_invariant p /\ (Player.getCoordinates p).1.2 = 1%Z.
Proof.
  cbv zeta. pose proof (run_invariant inputs _ new_Player_invariant) as Hinv.
  split; [exact Hinv|]. destruct Hinv as (Hy & _). unfold Player.getCoordinates. cbn.
  rewrite Hy. reflexivity.
Qed.

End PlayerFacts.

(** A camera that looks along the z axis (the angle is 0), a key held for
    one frame and released: the next frame finds a velocity and no
    direction. *)
Lemma frame_without_direction_never_accelerates_witness :
  let setFromEuler := fun _ : Vector3 => tt in
  let setFromQuaternion := fun _ : unit => THREE.vec 0 0 0 in
  let getWorldDirection := fun _ : unit => THREE.vec 0 0 1 in
  let Math_atan2 := fun _ _ : Q => 0 in
  let Math_cos := fun _ : Q => 1 in
  let Math_sin := fun _ : Q => 0 in
  let p := Player.run setFromEuler setFromQuaternion getWorldDirection Math_atan2 Math_cos
                      Math_sin
                      [Player.KeyDown "KeyW"; Player.Frame 0.016; Player.KeyUp "KeyW"]
                      (Player.new_Player tt) in
  let p' := Player.step setFromEuler setFromQuaternion getWorldDirection Math_atan2 Math_cos
                        Math_sin p (Player.Frame 0.016) in
  ~ THREE.z (Player.velocity p) == 0
  /\ Qabs (THREE.z (Player.velocity p')) <= Qabs (THREE.z (Player.velocity p)).
Proof.
  intros setFromEuler setFromQuaternion getWorldDirection Math_atan2 Math_cos Math_sin p p'.
  split; [vm_compute; discriminate|].
  refine (proj1 (proj2 (frame_without_direction_never_accelerates
                          setFromEuler setFromQuaternion getWorldDirection Math_atan2
                          Math_cos Math_sin 0.016 p _ _))).
  - split; reflexivity.
  - vm_compute. discriminate.
Defined.

